(** * Mobile typo generator: the corruption engine and its dataset builder

    Shallow embedding of [src/data/english_variants.py] and
    [src/data/generate_typos.py], and the properties stated about them.

    Conventions of the embedding.
    - A Python [str] is a [string]; characters are bytes.  The character
      classes and case maps below are those of Python on ASCII text
      (code points below 128); a byte of 128 or more (a piece of a UTF-8
      encoded character) is caseless and in no class.
    - A Python [dict] is an association list in insertion order
      ([dict_setitem] overwrites in place, as Python does), a [set] is a
      list used through membership only.
    - A Python [float] probability is a rational number ([Q]); the
      decimal literals of the source are taken exactly.
    - The process-wide generator of the [random] module is a tape of
      draws read left to right; an exception is the [Raise] result. *)

From Stdlib Require Import String Ascii List Bool Arith NArith ZArith QArith Lia.
From Stdlib Require Import Sorting.Sorted.
Import ListNotations.

Close Scope Q_scope.
Local Open Scope nat_scope.
Local Open Scope string_scope.
Local Open Scope list_scope.

(** ** Python built-ins on [str] *)

Module Py.

Definition code (c : ascii) : nat := nat_of_ascii c.

Definition between (lo hi : nat) (c : ascii) : bool :=
  Nat.leb lo (code c) && Nat.leb (code c) hi.

Definition chr_isupper (c : ascii) : bool := between 65 90 c.
Definition chr_islower (c : ascii) : bool := between 97 122 c.
Definition chr_isdigit (c : ascii) : bool := between 48 57 c.
Definition chr_isalnum (c : ascii) : bool :=
  chr_isupper c || chr_islower c || chr_isdigit c.
(* str.split() separators: TAB LF VT FF CR, FS GS RS US, SPACE *)
Definition chr_isspace (c : ascii) : bool := between 9 13 c || between 28 32 c.

Definition chr_lower (c : ascii) : ascii :=
  if chr_isupper c then ascii_of_nat (code c + 32) else c.
Definition chr_upper (c : ascii) : ascii :=
  if chr_islower c then ascii_of_nat (code c - 32) else c.
Definition chr_swapcase (c : ascii) : ascii :=
  if chr_isupper c then chr_lower c else chr_upper c.

Fixpoint str_map (f : ascii -> ascii) (s : string) : string :=
  match s with
  | EmptyString => EmptyString
  | String c r => String (f c) (str_map f r)
  end.

Fixpoint str_any (p : ascii -> bool) (s : string) : bool :=
  match s with
  | EmptyString => false
  | String c r => p c || str_any p r
  end.

Fixpoint str_all (p : ascii -> bool) (s : string) : bool :=
  match s with
  | EmptyString => true
  | String c r => p c && str_all p r
  end.

Definition truthy (s : string) : bool :=
  match s with EmptyString => false | _ => true end.

(* s.lower(), s.upper(), s.swapcase() *)
Definition lower : string -> string := str_map chr_lower.
Definition upper : string -> string := str_map chr_upper.
Definition swapcase : string -> string := str_map chr_swapcase.

(* s.isupper(): some cased character, and no lower-case one *)
Definition isupper (s : string) : bool :=
  str_any chr_isupper s && negb (str_any chr_islower s).
Definition islower (s : string) : bool :=
  str_any chr_islower s && negb (str_any chr_isupper s).
Definition isdigit (s : string) : bool := truthy s && str_all chr_isdigit s.

(* s.capitalize() *)
Definition capitalize (s : string) : string :=
  match s with
  | EmptyString => EmptyString
  | String c r => String (chr_upper c) (lower r)
  end.

(* word[0].isupper() if word else False *)
Definition starts_upper (s : string) : bool :=
  match s with
  | EmptyString => false
  | String c _ => chr_isupper c
  end.

Definition chr (c : ascii) : string := String c EmptyString.

Fixpoint str_rev (s : string) : string :=
  match s with
  | EmptyString => EmptyString
  | String c r => str_rev r ++ chr c
  end.

Fixpoint str_mem (c : ascii) (chars : string) : bool :=
  match chars with
  | EmptyString => false
  | String d r => Ascii.eqb c d || str_mem c r
  end.

(* s.lstrip(chars), s.rstrip(chars), s.strip(chars) *)
Fixpoint lstrip (chars s : string) : string :=
  match s with
  | EmptyString => EmptyString
  | String c r => if str_mem c chars then lstrip chars r else s
  end.
Definition rstrip (chars s : string) : string :=
  str_rev (lstrip chars (str_rev s)).
Definition strip (chars s : string) : string := rstrip chars (lstrip chars s).

(* s.replace(c, '') for a one-character c *)
Fixpoint remove_chr (c : ascii) (s : string) : string :=
  match s with
  | EmptyString => EmptyString
  | String d r => if Ascii.eqb d c then remove_chr c r else String d (remove_chr c r)
  end.

(* s[:n] and s[n:] for n >= 0 *)
Fixpoint take (n : nat) (s : string) : string :=
  match n, s with
  | S n', String c r => String c (take n' r)
  | _, _ => EmptyString
  end.
Fixpoint drop (n : nat) (s : string) : string :=
  match n, s with
  | S n', String _ r => drop n' r
  | _, _ => s
  end.

(* s[-1] and s[:-1] *)
Fixpoint last_chr (s : string) : option ascii :=
  match s with
  | EmptyString => None
  | String c EmptyString => Some c
  | String _ r => last_chr r
  end.
Fixpoint init (s : string) : string :=
  match s with
  | EmptyString => EmptyString
  | String _ EmptyString => EmptyString
  | String c r => String c (init r)
  end.

(* s.split(): maximal runs of non-whitespace *)
Fixpoint split_from (cur s : string) : list string :=
  match s with
  | EmptyString => if truthy cur then [cur] else []
  | String c r =>
      if chr_isspace c
      then (if truthy cur then cur :: split_from EmptyString r
            else split_from EmptyString r)
      else split_from (cur ++ chr c) r
  end.
Definition split (s : string) : list string := split_from EmptyString s.

(* sep.join(parts) *)
Definition join (sep : string) (parts : list string) : string :=
  String.concat sep parts.

(* list(s) *)
Fixpoint chars (s : string) : list string :=
  match s with
  | EmptyString => []
  | String c r => chr c :: chars r
  end.

(* x in xs, for a list or a set of strings *)
Definition contains (x : string) (xs : list string) : bool :=
  existsb (String.eqb x) xs.

(* set(xs) as a list: the first occurrence of every element (Python leaves
   the iteration order of a set open; nothing below relies on it) *)
Fixpoint set_of (xs : list string) : list string :=
  match xs with
  | [] => []
  | x :: r => x :: filter (fun y => negb (String.eqb x y)) (set_of r)
  end.

(* the peeling loops shared by both modules:
     while core and not core[0].isalnum():  prefix += core[0]; core = core[1:]
     while core and not core[-1].isalnum(): suffix = core[-1] + suffix; core = core[:-1] *)
Fixpoint peel_prefix (prefix core : string) : string * string :=
  match core with
  | EmptyString => (prefix, core)
  | String c r =>
      if negb (chr_isalnum c) then peel_prefix (prefix ++ chr c) r
      else (prefix, core)
  end.

Fixpoint peel_suffix_loop (n : nat) (core suffix : string) : string * string :=
  match n with
  | 0 => (core, suffix)
  | S n' =>
      match last_chr core with
      | None => (core, suffix)
      | Some c =>
          if negb (chr_isalnum c)
          then peel_suffix_loop n' (init core) (String c suffix)
          else (core, suffix)
      end
  end.
Definition peel_suffix (core : string) : string * string :=
  peel_suffix_loop (String.length core) core EmptyString.

(* prefix, core, suffix of one whitespace-delimited token *)
Definition peel (word : string) : string * string * string :=
  let (prefix, core) := peel_prefix EmptyString word in
  let (core', suffix) := peel_suffix core in
  (prefix, core', suffix).

(** dict: association list in insertion order *)

Definition dict (V : Type) : Type := list (string * V).

Fixpoint dict_get {V} (d : dict V) (k : string) : option V :=
  match d with
  | [] => None
  | (k', v) :: r => if String.eqb k k' then Some v else dict_get r k
  end.

Definition dict_in {V} (k : string) (d : dict V) : bool :=
  match dict_get d k with Some _ => true | None => false end.

(* d[k] = v *)
Fixpoint dict_setitem {V} (d : dict V) (k : string) (v : V) : dict V :=
  match d with
  | [] => [(k, v)]
  | (k', v') :: r =>
      if String.eqb k k' then (k, v) :: r else (k', v') :: dict_setitem r k v
  end.

(* a dict display {k1: v1, k2: v2, ...}: entries are stored left to right *)
Definition dict_of {V} (entries : list (string * V)) : dict V :=
  fold_left (fun d kv => dict_setitem d (fst kv) (snd kv)) entries [].

(* exceptions, and a computation that may raise one *)
Inductive exn : Type := KeyError | IndexError | ValueError.

Inductive result (A : Type) : Type :=
| Ok (a : A)
| Raise (e : exn).
Arguments Ok {A} a.
Arguments Raise {A} e.

Definition rbind {A B} (r : result A) (k : A -> result B) : result B :=
  match r with
  | Ok a => k a
  | Raise e => Raise e
  end.

(* d[k] *)
Definition getitem {V} (d : dict V) (k : string) : result V :=
  match dict_get d k with
  | Some v => Ok v
  | None => Raise KeyError
  end.

(* d.get(k, default); the default is evaluated by the caller *)
Definition get_default {V} (d : dict V) (k : string) (default : V) : V :=
  match dict_get d k with
  | Some v => v
  | None => default
  end.

(* xs[i] and xs[i] = v on a list *)
Definition list_getitem {A} (xs : list A) (i : nat) : result A :=
  match nth_error xs i with
  | Some x => Ok x
  | None => Raise IndexError
  end.

Fixpoint list_setitem {A} (xs : list A) (i : nat) (v : A) : result (list A) :=
  match xs, i with
  | [], _ => Raise IndexError
  | _ :: r, 0 => Ok (v :: r)
  | x :: r, S i' => rbind (list_setitem r i' v) (fun r' => Ok (x :: r'))
  end.

(* s[i] on a str *)
Definition str_getitem (s : string) (i : nat) : result string :=
  match String.get i s with
  | Some c => Ok (chr c)
  | None => Raise IndexError
  end.

Definition keys {V} (d : dict V) : list string := map fst d.
Definition values {V} (d : dict V) : list V := map snd d.
Definition items {V} (d : dict V) : list (string * V) := d.

End Py.
Import Py.

Declare Scope result_scope.
Delimit Scope result_scope with result.
Notation "x <~ e ;; k" := (rbind e (fun x => k))
  (at level 61, e at next level, right associativity) : result_scope.

(** ** english_variants.py *)

Module english_variants.

Definition SPELLING_US_TO_UK_literal : list (string * string) :=
  [
   ("color", "colour"); ("colors", "colours"); ("colored", "coloured");
   ("coloring", "colouring"); ("favor", "favour"); ("favors", "favours");
   ("favored", "favoured"); ("favorite", "favourite"); ("favorites", "favourites");
   ("flavor", "flavour"); ("flavors", "flavours"); ("flavored", "flavoured");
   ("harbor", "harbour"); ("harbors", "harbours"); ("honor", "honour"); ("honors", "honours");
   ("honored", "honoured"); ("honoring", "honouring"); ("humor", "humour");
   ("humors", "humours"); ("labor", "labour"); ("labors", "labours"); ("labored", "laboured");
   ("laboring", "labouring"); ("neighbor", "neighbour"); ("neighbors", "neighbours");
   ("neighboring", "neighbouring"); ("neighborhood", "neighbourhood"); ("rumor", "rumour");
   ("rumors", "rumours"); ("savior", "saviour"); ("saviors", "saviours");
   ("behavior", "behaviour"); ("behaviors", "behaviours"); ("endeavor", "endeavour");
   ("endeavors", "endeavours"); ("center", "centre"); ("centers", "centres");
   ("centered", "centred"); ("centering", "centring"); ("theater", "theatre");
   ("theaters", "theatres"); ("meter", "metre"); ("meters", "metres"); ("liter", "litre");
   ("liters", "litres"); ("fiber", "fibre"); ("fibers", "fibres"); ("caliber", "calibre");
   ("somber", "sombre"); ("specter", "spectre"); ("scepter", "sceptre"); ("luster", "lustre");
   ("meager", "meagre"); ("organize", "organise"); ("organizes", "organises");
   ("organized", "organised"); ("organizing", "organising"); ("organization", "organisation");
   ("organizations", "organisations"); ("recognize", "recognise");
   ("recognizes", "recognises"); ("recognized", "recognised"); ("recognizing", "recognising");
   ("realize", "realise"); ("realizes", "realises"); ("realized", "realised");
   ("realizing", "realising"); ("apologize", "apologise"); ("apologizes", "apologises");
   ("apologized", "apologised"); ("analyze", "analyse"); ("analyzes", "analyses");
   ("analyzed", "analysed"); ("analyzing", "analysing"); ("paralyze", "paralyse");
   ("paralyzed", "paralysed"); ("criticize", "criticise"); ("criticizes", "criticises");
   ("criticized", "criticised"); ("customize", "customise"); ("customizes", "customises");
   ("customized", "customised"); ("minimize", "minimise"); ("minimizes", "minimises");
   ("minimized", "minimised"); ("maximize", "maximise"); ("maximizes", "maximises");
   ("maximized", "maximised"); ("optimize", "optimise"); ("optimizes", "optimises");
   ("optimized", "optimised"); ("prioritize", "prioritise"); ("prioritizes", "prioritises");
   ("prioritized", "prioritised"); ("authorize", "authorise"); ("authorizes", "authorises");
   ("authorized", "authorised"); ("summarize", "summarise"); ("summarizes", "summarises");
   ("summarized", "summarised"); ("memorize", "memorise"); ("memorizes", "memorises");
   ("memorized", "memorised"); ("categorize", "categorise"); ("categorizes", "categorises");
   ("categorized", "categorised"); ("standardize", "standardise");
   ("standardized", "standardised"); ("specialize", "specialise");
   ("specializes", "specialises"); ("specialized", "specialised"); ("visualize", "visualise");
   ("visualized", "visualised"); ("finalize", "finalise"); ("finalized", "finalised");
   ("utilize", "utilise"); ("utilized", "utilised"); ("defense", "defence");
   ("offense", "offence"); ("license", "licence"); ("practice", "practise");
   ("pretense", "pretence"); ("catalog", "catalogue"); ("catalogs", "catalogues");
   ("dialog", "dialogue"); ("dialogs", "dialogues"); ("analog", "analogue");
   ("monolog", "monologue"); ("prolog", "prologue"); ("epilog", "epilogue");
   ("judgment", "judgement"); ("judgments", "judgements");
   ("acknowledgment", "acknowledgement"); ("acknowledgments", "acknowledgements");
   ("traveled", "travelled"); ("traveling", "travelling"); ("traveler", "traveller");
   ("travelers", "travellers"); ("canceled", "cancelled"); ("canceling", "cancelling");
   ("labeled", "labelled"); ("labeling", "labelling"); ("modeled", "modelled");
   ("modeling", "modelling"); ("counselor", "counsellor"); ("counselors", "counsellors");
   ("jeweler", "jeweller"); ("jewelers", "jewellers"); ("fueled", "fuelled");
   ("fueling", "fuelling"); ("leveled", "levelled"); ("leveling", "levelling");
   ("signaled", "signalled"); ("signaling", "signalling"); ("dialed", "dialled");
   ("dialing", "dialling"); ("marveled", "marvelled"); ("marveling", "marvelling");
   ("marvelous", "marvellous"); ("gray", "grey"); ("grays", "greys"); ("program", "programme");
   ("programs", "programmes"); ("check", "cheque"); ("checks", "cheques"); ("tire", "tyre");
   ("tires", "tyres"); ("airplane", "aeroplane"); ("airplanes", "aeroplanes");
   ("pajamas", "pyjamas"); ("mom", "mum"); ("moms", "mums"); ("draft", "draught");
   ("drafts", "draughts"); ("plow", "plough"); ("plows", "ploughs"); ("plowed", "ploughed");
   ("skeptic", "sceptic"); ("skeptics", "sceptics"); ("skeptical", "sceptical");
   ("donut", "doughnut"); ("donuts", "doughnuts"); ("curb", "kerb"); ("curbs", "kerbs");
   ("fulfill", "fulfil"); ("fulfills", "fulfils"); ("fulfilled", "fulfilled");
   ("skillful", "skilful"); ("willful", "wilful"); ("enrollment", "enrolment");
   ("enrollments", "enrolments"); ("installment", "instalment");
   ("installments", "instalments"); ("fulfill", "fulfil"); ("aging", "ageing");
   ("routing", "routeing"); ("artifact", "artefact"); ("artifacts", "artefacts");
   ("medieval", "mediaeval"); ("maneuver", "manoeuvre"); ("maneuvers", "manoeuvres");
   ("maneuvered", "manoeuvred"); ("pediatric", "paediatric"); ("pediatrics", "paediatrics");
   ("orthopedic", "orthopaedic"); ("anesthetic", "anaesthetic"); ("anesthesia", "anaesthesia");
   ("estrogen", "oestrogen"); ("fetus", "foetus"); ("diarrhea", "diarrhoea");
   ("leukemia", "leukaemia"); ("edema", "oedema"); ("encyclopedia", "encyclopaedia");
   ("archeology", "archaeology"); ("ax", "axe"); ("cozy", "cosy"); ("licorice", "liquorice");
   ("molt", "moult"); ("mustache", "moustache"); ("omelet", "omelette");
   ("smolder", "smoulder"); ("story", "storey"); ("stories", "storeys") ].

Definition SPELLING_US_TO_UK : dict string := dict_of SPELLING_US_TO_UK_literal.

(* {v: k for k, v in SPELLING_US_TO_UK.items()} *)
Definition SPELLING_UK_TO_US : dict string :=
  dict_of (map (fun kv => (snd kv, fst kv)) (items SPELLING_US_TO_UK)).

Record config : Type := {
  name : string;
  markets : list string;
  spelling : string;
  protected : list string
}.

Definition VARIANT_CONFIG_literal : list (string * config) :=
  [ ("US",
     {| name := "American English";
        markets := ["USA"; "Canada"];
        spelling := "US";
        protected := [] |});
    ("UK",
     {| name := "British English";
        markets := ["UK"; "EU"; "Malta"];
        spelling := "UK";
        protected := [
          "innit"; "bloody"; "blimey"; "cheers"; "mate"; "rubbish"; "dodgy"; "gobsmacked";
          "chuffed" ] |});
    ("AU",
     {| name := "Australian English";
        markets := ["Australia"];
        spelling := "UK";
        protected := [
          "arvo"; "servo"; "bottle-o"; "smoko"; "brekkie"; "barbie"; "sunnies"; "thongs";
          "mate"; "reckon"; "heaps"; "keen"; "no worries"; "strewth"; "crikey"; "fair dinkum";
          "bogan"; "drongo"; "sheila"; "bloke"; "ripper"; "stoked"; "sicko"; "maccas" ] |});
    ("NZ",
     {| name := "New Zealand English";
        markets := ["New Zealand"];
        spelling := "UK";
        protected := [
          "bro"; "cuz"; "sweet as"; "choice"; "chur"; "yeah nah"; "nah yeah"; "mint"; "mean";
          "hard out"; "all good"; "ka pai"; "kia ora"; "whanau"; "tamariki"; "tiki tour";
          "tramping"; "jandals"; "dairy"; "bach" ] |});
    ("SG",
     {| name := "Singapore English (Singlish)";
        markets := ["Singapore"];
        spelling := "UK";
        protected := [
          "lah"; "leh"; "lor"; "meh"; "hor"; "sia"; "liao"; "ah"; "one"; "already"; "can";
          "cannot"; "got"; "never"; "still got"; "how come"; "is it"; "steady"; "shiok";
          "sian"; "blur"; "kiasu"; "kiasi"; "paiseh"; "bojio"; "jialat"; "alamak"; "wah";
          "walao"; "aiyo"; "aiyah"; "oi"; "eh"; "hah"; "makan"; "chope"; "lepak"; "kopi";
          "teh"; "tabao"; "dabao"; "hawker"; "kopitiam"; "ang moh"; "gahmen"; "atas"; "sua ku";
          "act blur"; "kena"; "arrow"; "sabo"; "wayang"; "on"; "off"; "ownself"; "liddat";
          "likdat"; "machiam" ] |});
    ("MY",
     {| name := "Malaysian English (Manglish)";
        markets := ["Malaysia"];
        spelling := "UK";
        protected := [
          "lah"; "mah"; "lor"; "leh"; "meh"; "one"; "got"; "already"; "can"; "cannot"; "wei";
          "woi"; "eh"; "aiyo"; "aiyoh"; "walao"; "yalor"; "haiya"; "aiya"; "boss"; "macha";
          "dei"; "macam"; "cincai"; "gostan"; "jalan"; "makan"; "mamak"; "tapau"; "yum cha";
          "kaw kaw"; "terror"; "geng"; "syok"; "action"; "outstation"; "lepak"; "yamcha";
          "potong"; "cabut"; "kantoi" ] |});
    ("IN",
     {| name := "Indian English";
        markets := ["India"; "Nepal"; "Bangladesh"];
        spelling := "UK";
        protected := [
          "yaar"; "yar"; "na"; "no"; "hai"; "haan"; "ji"; "arey"; "arre"; "arrey"; "accha";
          "achha"; "theek"; "thik"; "bas"; "chalo"; "kya"; "bhai"; "didi"; "uncle"; "aunty";
          "auntie"; "beta"; "beti"; "babu"; "sahib"; "ji"; "prepone"; "revert";
          "do the needful"; "kindly"; "intimate"; "passed out"; "mugging"; "timepass";
          "eve teasing"; "godown"; "lakh"; "crore"; "dabba"; "dabbawala"; "pukka"; "jugaad";
          "bindaas"; "fundoo"; "bakwas"; "timepass"; "tension"; "funda"; "gyaan"; "desi";
          "firangi"; "gora" ] |});
    ("PH",
     {| name := "Philippine English";
        markets := ["Philippines"];
        spelling := "US";
        protected := [
          "po"; "opo"; "ho"; "naman"; "ba"; "daw"; "raw"; "pala"; "kasi"; "talaga"; "ano";
          "di ba"; "diba"; "ganun"; "ganon"; "edi"; "sige"; "ge"; "hala"; "ay"; "nako"; "sus";
          "hay"; "aba"; "aray"; "lodi"; "petmalu"; "werpa"; "for a while"; "open the light";
          "close the light"; "CR"; "comfort room"; "ref"; "aircon"; "brownout"; "blow out";
          "despedida"; "merienda"; "balikbayan"; "pasalubong"; "utang na loob"; "kilig";
          "gigil"; "basta" ] |});
    ("NG",
     {| name := "Nigerian English";
        markets := ["Nigeria"; "Ghana"; "West Africa"];
        spelling := "UK";
        protected := [
          "abi"; "sha"; "shaa"; "sef"; "o"; "oh"; "na"; "dey"; "wey"; "wetin"; "wahala";
          "gist"; "gisting"; "yawa"; "chop"; "dash"; "kolo"; "craze"; "japa"; "sabi";
          "no wahala"; "e go be"; "how far"; "how body"; "bros"; "oga"; "madam"; "abeg";
          "biko"; "jare"; "ehen"; "ehn"; "shey"; "oya"; "ginger"; "pepper"; "strong thing";
          "enter"; "drop"; "pick"; "flash"; "okada"; "danfo"; "keke"; "mama put"; "buka";
          "suya"; "small chops"; "ashewo"; "packaging"; "shakara"; "flex"; "slay"; "on point";
          "gbas gbos" ] |});
    ("ZA",
     {| name := "South African English";
        markets := ["South Africa"; "Namibia"; "Zimbabwe"];
        spelling := "UK";
        protected := [
          "lekker"; "kiff"; "kif"; "sharp"; "shap"; "eish"; "eina"; "ag"; "shame"; "ja"; "nee";
          "dankie"; "baie"; "braai"; "bru"; "boet"; "china"; "oke"; "dof"; "dwaal"; "gatvol";
          "now now"; "just now"; "robot"; "circle"; "bakkie"; "tackies"; "takkies"; "slops";
          "howzit"; "yebo"; "aikona"; "ubuntu"; "sangoma"; "toyi-toyi"; "vuvuzela"; "braai";
          "potjie"; "bunny chow"; "boerewors"; "biltong"; "rooibos"; "moerse"; "lank" ] |});
    ("HK",
     {| name := "Hong Kong English";
        markets := ["Hong Kong"; "Macau"];
        spelling := "UK";
        protected := [
          "lah"; "ah"; "la"; "lor"; "leh"; "geh"; "meh"; "wor"; "ga"; "ge"; "add oil";
          "fighting"; "aiya"; "aiyo"; "wah"; "haiya"; "siu mai"; "char siu"; "dim sum";
          "yum cha"; "dai pai dong"; "wet market"; "MTR"; "octopus"; "minibus"; "ding ding";
          "helper"; "domestic helper"; "expat"; "gweilo"; "ABC"; "BBC"; "can"; "cannot"; "got";
          "have"; "play"; "do"; "make" ] |});
    ("IE",
     {| name := "Irish English (Hiberno)";
        markets := ["Ireland"];
        spelling := "UK";
        protected := [
          "grand"; "craic"; "crack"; "fierce"; "deadly"; "gas"; "sound"; "class"; "yer man";
          "yer one"; "yer wan"; "himself"; "herself"; "bold"; "press"; "messages"; "runners";
          "jumper"; "minerals"; "banjaxed"; "knackered"; "eejit"; "gobshite"; "feck";
          "acting the maggot"; "giving out"; "what way"; "amnt"; "tis"; "twas"; "yoke"; "yera";
          "ara"; "sure look"; "slainte"; "cead mile failte"; "go raibh maith agat"; "ta"; "nil" ] |});
    ("SC",
     {| name := "Scottish English";
        markets := ["Scotland"];
        spelling := "UK";
        protected := [
          "aye"; "nae"; "wee"; "braw"; "bonnie"; "ken"; "kent"; "dinna"; "didnae"; "cannae";
          "willnae"; "wouldnae"; "shouldnae"; "havnae"; "isnae"; "wasnae"; "och"; "hoots";
          "wheesht"; "blether"; "haver"; "scunner"; "crabbit"; "dreich"; "glaikit"; "numpty";
          "bampot"; "radge"; "bairn"; "lad"; "lass"; "loch"; "ben"; "brae"; "kirk"; "croft";
          "burn"; "glen"; "strath"; "tattie"; "neep"; "haggis"; "hogmanay"; "ceilidh"; "slàinte" ] |}) ].

Definition VARIANT_CONFIG : dict config := dict_of VARIANT_CONFIG_literal.

(* ALL_PROTECTED_WORDS = set(); for config in VARIANT_CONFIG.values(): update(...) *)
Definition ALL_PROTECTED_WORDS : list string :=
  set_of (flat_map (fun c => map lower (protected c)) (values VARIANT_CONFIG)).

Definition SAMPLE_SENTENCES : list string :=
  [
   "I'll meet you at the center of town."; "What's your favorite color?";
   "The theater is just around the corner."; "Can you organize the meeting for tomorrow?";
   "I realized I left my phone at home."; "Let me check my schedule and get back to you.";
   "The neighbor's dog has been barking all night."; "I need to apologize for being late.";
   "She has a great sense of humor."; "The program starts at eight o'clock.";
   "We need to finalize the report by Friday."; "Can you summarize the main points?";
   "The team analyzed the data carefully."; "I'll authorize the payment today.";
   "Let's prioritize the urgent tasks."; "The organization is planning a restructure.";
   "We should optimize the workflow."; "I recognize that this is challenging.";
   "The defense team prepared their case."; "Please catalog all the items.";
   "I traveled to London last summer."; "The airplane landed on time.";
   "Check the tire pressure before driving."; "The draft is coming through the window.";
   "She wore her favorite pajamas."; "The jewelry store is closed today.";
   "I need to refuel the car."; "The counselor gave good advice.";
   "It was a gray and cloudy day."; "Mom is coming to visit next week.";
   "That donut looks delicious."; "I'm skeptical about the results.";
   "The movie was marvelous."; "He has a thick mustache."; "I made an omelet for breakfast.";
   "The building has ten stories."; "Let me fulfill your request.";
   "She's very skillful at her job."; "The artifact was found in Egypt.";
   "They maneuvered through traffic." ].
Definition REGIONAL_SENTENCES_literal : list (string * list string) :=
  [ ("SG",
     [
      "This one very shiok lah!"; "Wah, the queue so long sia.";
      "Can help me chope this seat ah?"; "Later go makan, you want?"; "Aiyo, I so blur today.";
      "Don't be so kiasu lah."; "Why you never tell me earlier leh?";
      "This place damn atas one."; "Aiyah, kena arrow again."; "Wa lao eh, so jialat.";
      "You eat already or not?"; "The kopitiam downstairs got good kopi.";
      "I paiseh to ask him leh."; "This one macam not right lor."; "Ok lah, I do it myself.";
      "Today very sian, nothing to do."; "You bojio me go!"; "Steady lah bro!";
      "How come liddat one?"; "Is it? I didn't know sia." ]);
    ("MY",
     [
      "Wah, this food damn terror lah!"; "Boss, one teh tarik please.";
      "Let's go mamak later lah."; "Aiyo, so mahal one this.";
      "Can or not? I need answer now."; "Wei, you going where ah?";
      "Haiya, traffic jam again."; "This one cincai do can already lah.";
      "Let's lepak at my place."; "Don't action so much lah."; "I outstation next week.";
      "Gostan a bit, you blocking me."; "Syok sendiri only you."; "Why you so geng one?";
      "Yalor, I also think so."; "Jom yamcha tonight!"; "Faster lah, we late already.";
      "This curry kaw kaw one."; "He kantoi already, everyone knows."; "Potong stim lah you." ]);
    ("IN",
     [
      "Please do the needful and revert back."; "I will intimate you once done.";
      "The meeting got preponed to 2 PM."; "Arey yaar, what happened?";
      "Accha, I understand now."; "One second, I am coming only."; "What is your good name?";
      "Kindly adjust a little bit."; "I passed out from IIT in 2015.";
      "He's doing timepass only."; "This is very tension giving.";
      "Let me give you some gyaan on this."; "Chalo, let's go now."; "Bas, that's enough.";
      "Theek hai, no problem."; "Uncle, can you help me?"; "This is very fundoo idea yaar.";
      "He's a total bakwas person."; "I am having some doubts.";
      "My cousin brother is coming today." ]);
    ("PH",
     [
      "Wait lang po, for a while."; "Sige, I'll do it na."; "Can you open the light please?";
      "The CR is over there."; "Ay nako, I forgot again!"; "It's so traffic outside.";
      "I'll get my ref and bring some food."; "There's a brownout in our area.";
      "We had a blow out for her birthday."; "Did you bring pasalubong?";
      "I'm so kilig right now!"; "This makes me gigil!"; "Basta, just do it.";
      "That's so petmalu, lodi!"; "Talaga? I didn't know that."; "Kasi, I was busy eh.";
      "Edi wow, good for you."; "Hala, we're late!"; "Close the aircon, it's cold.";
      "I have a despedida party next week." ]);
    ("NG",
     [
      "How far, my guy?"; "No wahala, we go sort am."; "Abeg, help me with this.";
      "The thing dey pepper me sha."; "Oya, make we go!"; "Wetin you dey do?";
      "E go be, no worry."; "This gist is too much!"; "Bros, I dey come.";
      "That one na wahala o."; "Shey you understand?"; "Na so the thing be.";
      "I wan chop something."; "Make we go mama put."; "This suya is on point!";
      "Ehen, I remember now."; "Oga, please help me."; "You sabi this thing well well.";
      "Dem dey ginger me."; "I don japa already." ]);
    ("ZA",
     [
      "Howzit my china!"; "That braai was lekker!"; "Eish, what a mission.";
      "I'll do it now now."; "Just now I was there."; "Sharp sharp, see you later.";
      "This place is moerse nice."; "Stop at the robot please.";
      "I'm gatvol with this traffic."; "Shame, that's so sad."; "Ja nee, it's complicated.";
      "The biltong here is kiff."; "Let me get my takkies."; "I came with my bakkie.";
      "This boerewors is baie lekker!"; "Ag man, don't stress."; "That oke is a bit dof.";
      "I'm in a dwaal today."; "Yebo, I agree with you."; "We need more ubuntu here." ]);
    ("HK",
     [
      "Add oil! You can do it!"; "Let's go yum cha tomorrow."; "Take the MTR, it's faster.";
      "The wet market closes early."; "Aiya, I forgot my octopus card!";
      "The ding ding is very slow."; "My helper is on leave today.";
      "This char siu is amazing lah!"; "Wah, so expensive ah!"; "Can can, no problem.";
      "Fighting! Good luck!"; "Let's eat at the dai pai dong."; "The dim sum here is good ge.";
      "I'm an ABC, born in America."; "That gweilo speaks Cantonese!";
      "The minibus is faster lor."; "Got time or not?"; "This one very nice wor.";
      "Haiya, so troublesome."; "The siu mai here is the best!" ]);
    ("IE",
     [
      "Ah sure, it'll be grand."; "The craic was mighty last night!";
      "That's pure gas altogether."; "Yer man over there said so.";
      "I'm absolutely knackered."; "Stop acting the maggot!";
      "She's always giving out about something."; "What way are you going?";
      "That's a deadly idea!"; "The young fella is being bold."; "I need to get the messages.";
      "Put on your runners, we're late."; "Get us some minerals from the shop.";
      "The car is totally banjaxed."; "That yoke over there is broken.";
      "Yera, don't worry about it."; "Sure look, it is what it is.";
      "Your one from down the road."; "Tis a fierce cold day."; "Sláinte! Good health to you!" ]);
    ("SC",
     [
      "Aye, I ken what you mean."; "That's a braw wee idea!"; "Och, dinnae worry about it.";
      "The bairn is sleeping upstairs."; "She's a bonnie lass."; "I cannae do that right now.";
      "Wheesht! Be quiet!"; "Stop your blethering!"; "That's pure brilliant, pal!";
      "The weather's awfy dreich today."; "He's a right numpty.";
      "Are you coming to the ceilidh?"; "Let's go up the ben.";
      "The burn is running high today."; "I'm fair scunnered with this.";
      "She's in a crabbit mood."; "That's a glaikit thing to say."; "Happy Hogmanay everyone!";
      "The kirk is just up the brae."; "I'll have some tatties and neeps." ]);
    ("AU",
     [
      "G'day mate, how's it going?"; "No worries, she'll be right!";
      "That's fair dinkum, mate."; "Let's have a barbie this arvo.";
      "I'm heading to the servo."; "Grab some snags for the barbie.";
      "Strewth, that was close!"; "He's a bit of a drongo."; "That sheila is really nice.";
      "This is heaps good!"; "I reckon we should go."; "I'm absolutely stoked!";
      "Let's go to Maccas."; "Crikey, look at that!"; "Put on your sunnies, it's bright.";
      "I left my thongs at the beach."; "That bloke is a ripper!"; "Time for smoko.";
      "Let's grab a bottle-o run."; "I'm keen as mustard!" ]);
    ("NZ",
     [
      "Sweet as, bro!"; "Chur, thanks for that."; "That's pretty choice, aye.";
      "Yeah nah, I'm not sure."; "Nah yeah, let's do it!"; "That feed was mean as!";
      "All good, no drama."; "Hard out, that was intense!"; "Ka pai! Well done!";
      "Kia ora, welcome everyone!"; "We're going tramping this weekend.";
      "Grab your jandals, we're going to the beach."; "Let's go to the dairy for some milk.";
      "We're staying at the bach."; "That's a mint car, bro!";
      "Whanau is coming over for dinner."; "The tamariki are playing outside.";
      "Let's do a tiki tour around town."; "Choice bro, see you later.";
      "That's pretty mean, cuz!" ]);
    ("UK",
     [
      "Cheers mate, appreciate it!"; "That's absolutely brilliant!";
      "Blimey, that was unexpected!"; "Don't talk rubbish."; "That seems a bit dodgy to me.";
      "I'm gobsmacked by the news!"; "I'm well chuffed with the result."; "Fancy a cuppa?";
      "That's proper good, innit?"; "I'm knackered, need some sleep.";
      "Let's pop to the shops."; "I'll ring you later."; "Queueing is a way of life here.";
      "The telly is on too loud."; "I'm going to the loo."; "That's a load of codswallop!";
      "I'm feeling a bit poorly today."; "Mind the gap please."; "Lovely weather for ducks!";
      "Sorted, we're all good now." ]);
    ("US",
     [
      "What's up, how's it going?"; "That's awesome, dude!"; "I'm gonna grab some coffee.";
      "Let's hang out this weekend."; "That's totally cool with me.";
      "I'm good, thanks for asking."; "We should totally do that.";
      "No worries, it's all good."; "I'm super excited about this!";
      "Let me check my schedule real quick."; "I gotta run, catch you later!";
      "That's so sick, bro!"; "We're grabbing some takeout."; "I'll shoot you a text later.";
      "That's lit, for real!"; "I'm down for whatever."; "Let's bounce, it's getting late.";
      "I'm so done with this."; "That slaps, honestly."; "No cap, that was amazing." ]) ].

Definition REGIONAL_SENTENCES : dict (list string) := dict_of REGIONAL_SENTENCES_literal.

Definition SHORT_MESSAGES : list string :=
  [
   "ok"; "okay"; "k"; "kk"; "yep"; "yup"; "nope"; "nah"; "ya"; "yeah"; "yes"; "no"; "sure";
   "cool"; "nice"; "great"; "thanks"; "thx"; "ty"; "np"; "yw"; "please"; "pls"; "sorry"; "sry";
   "hi"; "hey"; "hello"; "bye"; "later"; "soon"; "now"; "wait"; "omw"; "otw"; "brb"; "brt";
   "ttyl"; "gtg"; "g2g"; "lol"; "lmao"; "haha"; "hehe"; "idk"; "idc"; "imo"; "imho"; "tbh";
   "nvm"; "jk"; "ikr"; "smh"; "fyi"; "btw"; "asap"; "omg"; "wtf"; "wth"; "rn"; "atm"; "fr";
   "ngl"; "ong"; "bet"; "facts"; "true"; "same"; "mood"; "vibes"; "slay"; "fire"; "goat";
   "goated"; "bussin"; "cap"; "no cap"; "lowkey"; "highkey"; "sus"; "based"; "mid"; "lit";
   "valid"; "bet"; "word"; "say less"; "less"; "sounds good"; "sounds great"; "all good";
   "no problem"; "no worries"; "got it"; "on my way"; "be right there"; "be there soon";
   "running late"; "almost there"; "see you soon"; "see you later"; "talk later";
   "call you later"; "text me"; "let me know"; "keep me posted"; "what's up"; "how are you";
   "you good"; "wanna hang"; "wanna come"; "you down"; "i'm down"; "count me in"; "i'm in";
   "can't make it"; "maybe later"; "rain check"; "next time"; "my bad"; "all good"; "no rush";
   "take your time"; "whenever you can"; "when you're free"; "good morning"; "good night";
   "sleep well"; "have fun"; "good luck"; "congrats"; "happy birthday"; "thank you so much";
   "appreciate it"; "means a lot"; "miss you"; "love you"; "thinking of you"; "checking in";
   "just checking"; "quick question"; "one sec"; "hold on"; "coming"; "leaving now"; "here";
   "where are you"; "you there"; "anyone home"; "hello?"; "you up" ].
Definition PRESERVED_ABBREVIATIONS_literal : list (string * string) :=
  [
   ("u", "u"); ("r", "r"); ("ur", "ur"); ("y", "y"); ("n", "n"); ("k", "k"); ("b", "b");
   ("pls", "pls"); ("plz", "plz"); ("thx", "thx"); ("thnx", "thnx"); ("ty", "ty");
   ("yw", "yw"); ("np", "np"); ("sry", "sry"); ("bc", "bc"); ("cuz", "cuz"); ("tho", "tho");
   ("rn", "rn"); ("tmr", "tmr"); ("tmrw", "tmrw"); ("tn", "tn"); ("ytd", "ytd");
   ("msg", "msg"); ("mins", "mins"); ("secs", "secs"); ("hrs", "hrs"); ("wks", "wks");
   ("omw", "omw"); ("otw", "otw"); ("brb", "brb"); ("brt", "brt"); ("ttyl", "ttyl");
   ("gtg", "gtg"); ("g2g", "g2g"); ("lol", "lol"); ("lmao", "lmao"); ("rofl", "rofl");
   ("idk", "idk"); ("idc", "idc"); ("imo", "imo"); ("imho", "imho"); ("tbh", "tbh");
   ("nvm", "nvm"); ("jk", "jk"); ("ikr", "ikr"); ("smh", "smh"); ("fyi", "fyi");
   ("btw", "btw"); ("asap", "asap"); ("omg", "omg"); ("wtf", "wtf"); ("wth", "wth");
   ("afk", "afk"); ("irl", "irl"); ("fomo", "fomo"); ("yolo", "yolo"); ("tmi", "tmi");
   ("dm", "dm"); ("pm", "pm"); ("hmu", "hmu"); ("lmk", "lmk"); ("wyd", "wyd"); ("hbu", "hbu");
   ("ily", "ily"); ("ilysm", "ilysm"); ("bff", "bff"); ("bf", "bf"); ("gf", "gf");
   ("gonna", "gonna"); ("wanna", "wanna"); ("gotta", "gotta"); ("kinda", "kinda");
   ("sorta", "sorta"); ("dunno", "dunno"); ("lemme", "lemme"); ("gimme", "gimme");
   ("gotcha", "gotcha"); ("whatcha", "whatcha"); ("coulda", "coulda"); ("shoulda", "shoulda");
   ("woulda", "woulda"); ("oughta", "oughta"); ("hafta", "hafta"); ("outta", "outta");
   ("tryna", "tryna"); ("finna", "finna"); ("boutta", "boutta"); ("imma", "imma");
   ("fr", "fr"); ("ngl", "ngl"); ("ong", "ong"); ("lowkey", "lowkey"); ("highkey", "highkey");
   ("sus", "sus"); ("bussin", "bussin"); ("slay", "slay"); ("goated", "goated");
   ("mid", "mid"); ("based", "based"); ("valid", "valid"); ("bet", "bet"); ("cap", "cap");
   ("nocap", "nocap"); ("rizz", "rizz"); ("simp", "simp"); ("stan", "stan"); ("vibe", "vibe");
   ("yeet", "yeet"); ("sheesh", "sheesh"); ("bruh", "bruh"); ("fam", "fam"); ("lit", "lit") ].

Definition PRESERVED_ABBREVIATIONS : dict string := dict_of PRESERVED_ABBREVIATIONS_literal.

Definition get_spelling_for_variant (word variant : string) : string :=
  let word_lower := lower word in
  let is_capitalized := starts_upper word in
  let is_upper := if truthy word then isupper word else false in
  let result :=
    if variant =? "US" then
      match dict_get SPELLING_UK_TO_US word_lower with
      | Some w => w
      | None => word_lower
      end
    else if contains variant ["UK"; "AU"] then
      match dict_get SPELLING_US_TO_UK word_lower with
      | Some w => w
      | None => word_lower
      end
    else word_lower in
  if is_upper then upper result
  else if is_capitalized then capitalize result
  else result.

(* the body of the loop over sentence.split() *)
Definition convert_word (variant word : string) : string :=
  let '(prefix, core, suffix) := peel word in
  let core := if truthy core then get_spelling_for_variant core variant else core in
  prefix ++ core ++ suffix.

Definition convert_sentence_spelling (sentence variant : string) : string :=
  join " " (map (convert_word variant) (split sentence)).

Local Open Scope result_scope.

Definition get_sample_sentences (variant : string)
    (include_regional include_short : bool) : result (list string) :=
  let sentences := [] in
  us <~ getitem VARIANT_CONFIG "US" ;;
  let config := get_default VARIANT_CONFIG variant us in
  let spelling := spelling config in
  let sentences :=
    sentences ++ map (fun s => convert_sentence_spelling s spelling) SAMPLE_SENTENCES in
  sentences <~ (if include_regional && dict_in variant REGIONAL_SENTENCES
                then regional <~ getitem REGIONAL_SENTENCES variant ;;
                     Ok (sentences ++ regional)
                else Ok sentences) ;;
  let sentences := if include_short then sentences ++ SHORT_MESSAGES else sentences in
  Ok sentences.

(* a | b and s.update(xs) on sets *)
Definition union (a b : list string) : list string := set_of (a ++ b).

Definition get_protected_words (variant : option string) : list string :=
  match variant with
  | None => union ALL_PROTECTED_WORDS (set_of (keys PRESERVED_ABBREVIATIONS))
  | Some variant =>
      let protected_ := set_of (keys PRESERVED_ABBREVIATIONS) in
      match dict_get VARIANT_CONFIG variant with
      | Some config => union protected_ (map lower (protected config))
      | None => protected_
      end
  end.

(* the characters stripped by is_protected_word: . , ! ? ; : apostrophe, double quote *)
Definition QUOTE : string := chr (ascii_of_nat 34).
Definition STRIP_CHARS : string := ".,!?;:'" ++ QUOTE.

Definition is_protected_word (word : string) (variant : option string) : bool :=
  let word_lower := strip STRIP_CHARS (lower word) in
  let protected_ := get_protected_words variant in
  contains word_lower protected_.

End english_variants.

(** ** The random module and the effects of generate_typos.py *)

Module Eff.

(* The state the program threads: the tape of raw draws of the global
   generator with the read position, and a ghost log of the arguments
   corrupt_word_mobile has been called with (most recent first). *)
Record world : Type := {
  tape : nat -> N;
  cursor : nat;
  calls : list string
}.

Definition M (A : Type) : Type := world -> result (A * world).

Definition ret {A} (a : A) : M A := fun w => Ok (a, w).

Definition bind {A B} (m : M A) (k : A -> M B) : M B :=
  fun w =>
    match m w with
    | Ok (a, w') => k a w'
    | Raise e => Raise e
    end.

Definition raise {A} (e : exn) : M A := fun _ => Raise e.

Definition lift {A} (r : result A) : M A :=
  fun w => match r with Ok a => Ok (a, w) | Raise e => Raise e end.

(* one raw draw *)
Definition draw : M N :=
  fun w => Ok (tape w (cursor w),
               {| tape := tape w; cursor := S (cursor w); calls := calls w |}).

(* ghost step: log a call of corrupt_word_mobile *)
Definition note_call (word : string) : M unit :=
  fun w => Ok (tt, {| tape := tape w; cursor := cursor w; calls := word :: calls w |}).

(* the state at start-up, for a given list of raw draws (zero afterwards) *)
Definition start (draws : list N) : world :=
  {| tape := fun i => nth i draws 0%N; cursor := 0; calls := [] |}.

End Eff.
Import Eff.

Declare Scope eff_scope.
Delimit Scope eff_scope with eff.
Notation "x <- e ;; k" := (bind e (fun x => k))
  (at level 61, e at next level, right associativity) : eff_scope.
Notation "e ;;; k" := (bind e (fun _ => k))
  (at level 61, right associativity) : eff_scope.

Module random.

Local Open Scope eff_scope.

Definition Qltb (a b : Q) : bool := negb (Qle_bool b a).

(* random.random(): a multiple of 2^-53 in [0, 1) *)
Definition random : M Q :=
  n <- draw ;;
  ret (Qmake (Z.of_N (n mod 9007199254740992)) 9007199254740992).

(* a uniformly drawn index below n *)
Definition randbelow (n : nat) : M nat :=
  if Nat.eqb n 0 then raise ValueError
  else k <- draw ;; ret (N.to_nat (k mod N.of_nat n)).

(* random.randint(a, b) *)
Definition randint (a b : nat) : M nat :=
  if Nat.ltb b a then raise ValueError
  else k <- randbelow (b + 1 - a) ;; ret (a + k).

(* random.choice(seq) *)
Definition choice {A} (seq : list A) : M A :=
  match seq with
  | [] => raise IndexError
  | _ => i <- randbelow (length seq) ;; lift (list_getitem seq i)
  end.

(* itertools.accumulate(weights) *)
Fixpoint accumulate_from (acc : Q) (weights : list Q) : list Q :=
  match weights with
  | [] => []
  | x :: r => Qplus acc x :: accumulate_from (Qplus acc x) r
  end.
Definition accumulate (weights : list Q) : list Q :=
  match weights with
  | [] => []
  | x :: r => x :: accumulate_from x r
  end.

(* bisect.bisect(a, x, 0, hi) on a non-decreasing list: the number of
   entries among the first hi that are <= x *)
Fixpoint bisect (a : list Q) (x : Q) (hi : nat) : nat :=
  match a, hi with
  | y :: r, S hi' => if Qle_bool y x then S (bisect r x hi') else 0
  | _, _ => 0
  end.

(* random.choices(population, weights=weights)[0] *)
Definition choices {A} (population : list A) (weights : list Q) : M A :=
  let n := length population in
  let cum_weights := accumulate weights in
  if negb (Nat.eqb (length cum_weights) n) then raise ValueError
  else
    match rev cum_weights with
    | [] => raise IndexError
    | total :: _ =>
        if Qle_bool total 0 then raise ValueError
        else
          r <- random ;;
          lift (list_getitem population (bisect cum_weights (Qmult r total) (n - 1)))
    end.

End random.

(** ** generate_typos.py *)

Module generate_typos.

Import english_variants.
Local Open Scope eff_scope.

Definition MOBILE_ADJACENT_KEYS_literal : list (string * list string) :=
  [ ("q", ["w"; "a"; "s"]);
    ("w", ["q"; "e"; "a"; "s"; "d"]);
    ("e", ["w"; "r"; "s"; "d"; "f"]);
    ("r", ["e"; "t"; "d"; "f"; "g"]);
    ("t", ["r"; "y"; "f"; "g"; "h"]);
    ("y", ["t"; "u"; "g"; "h"; "j"]);
    ("u", ["y"; "i"; "h"; "j"; "k"]);
    ("i", ["u"; "o"; "j"; "k"; "l"]);
    ("o", ["i"; "p"; "k"; "l"]);
    ("p", ["o"; "l"]);
    ("a", ["q"; "w"; "s"; "z"; "x"]);
    ("s", ["q"; "w"; "e"; "a"; "d"; "z"; "x"; "c"]);
    ("d", ["w"; "e"; "r"; "s"; "f"; "x"; "c"; "v"]);
    ("f", ["e"; "r"; "t"; "d"; "g"; "c"; "v"; "b"]);
    ("g", ["r"; "t"; "y"; "f"; "h"; "v"; "b"; "n"]);
    ("h", ["t"; "y"; "u"; "g"; "j"; "b"; "n"; "m"]);
    ("j", ["y"; "u"; "i"; "h"; "k"; "n"; "m"]);
    ("k", ["u"; "i"; "o"; "j"; "l"; "m"]);
    ("l", ["i"; "o"; "p"; "k"]);
    ("z", ["a"; "s"; "x"]);
    ("x", ["a"; "s"; "d"; "z"; "c"]);
    ("c", ["s"; "d"; "f"; "x"; "v"]);
    ("v", ["d"; "f"; "g"; "c"; "b"]);
    ("b", ["f"; "g"; "h"; "v"; "n"]);
    ("n", ["g"; "h"; "j"; "b"; "m"]);
    ("m", ["h"; "j"; "k"; "n"]) ].
Definition ERROR_WEIGHTS_literal : list (string * Q) :=
  [ ("adjacent", (7 # 20)%Q);
    ("omission", (1 # 5)%Q);
    ("insertion", (3 # 20)%Q);
    ("transposition", (3 # 20)%Q);
    ("substitution", (1 # 20)%Q);
    ("space_error", (1 # 20)%Q);
    ("case_error", (1 # 20)%Q) ].
Definition THUMB_TYPING_ERRORS_literal : list (string * list string) :=
  [ ("the", ["thr"; "tue"; "rhe"; "tge"; "yhe"; "th"; "te"]);
    ("and", ["ans"; "abd"; "snd"; "amd"; "anf"; "anx"; "nd"]);
    ("that", ["thar"; "thst"; "rhat"; "yhat"; "tgat"; "thay"]);
    ("have", ["habe"; "hsve"; "have"; "jave"; "hav"; "havr"]);
    ("for", ["fir"; "fot"; "gor"; "dor"; "fpr"; "fo"]);
    ("are", ["ate"; "arr"; "arf"; "sre"; "ae"; "arre"]);
    ("but", ["bur"; "vut"; "bir"; "nit"; "byt"; "bt"]);
    ("not", ["nit"; "nor"; "noy"; "mot"; "nof"; "nt"]);
    ("you", ["yiu"; "tou"; "yoy"; "ypu"; "uou"; "yo"]);
    ("all", ["sll"; "akk"; "al"; "alll"; "alk"]);
    ("can", ["csn"; "cab"; "van"; "xan"; "cann"; "cn"]);
    ("had", ["hsd"; "jad"; "haf"; "hax"; "hadd"]);
    ("her", ["hee"; "het"; "jer"; "hrr"; "ger"]);
    ("was", ["wss"; "qas"; "wad"; "eaw"; "wa"; "wass"]);
    ("one", ["onr"; "obe"; "ine"; "ond"; "on"; "onee"]);
    ("our", ["oir"; "oyr"; "pur"; "out"; "ou"]);
    ("out", ["oit"; "put"; "oyt"; "our"; "ot"; "outt"]);
    ("day", ["dat"; "dau"; "fay"; "dsy"; "dy"]);
    ("get", ["gwt"; "het"; "ger"; "grt"; "gt"; "gett"]);
    ("has", ["hss"; "jas"; "hsd"; "gas"; "hs"]);
    ("him", ["hom"; "hin"; "jim"; "gim"; "hum"]);
    ("his", ["hos"; "hia"; "jis"; "hiss"; "hs"]);
    ("how", ["hiw"; "jow"; "hoe"; "gow"; "hw"]);
    ("its", ["ita"; "irs"; "ots"; "itss"; "ts"]);
    ("may", ["mat"; "nay"; "msy"; "mau"; "my"]);
    ("new", ["nee"; "mew"; "nrw"; "bew"; "nw"]);
    ("now", ["niw"; "mow"; "noe"; "bow"; "nw"]);
    ("say", ["sat"; "sau"; "ssy"; "aay"; "sy"]);
    ("two", ["teo"; "twi"; "rwo"; "tw"; "twoo"]);
    ("way", ["wau"; "wsy"; "eay"; "qay"; "wy"]);
    ("who", ["whi"; "eho"; "qho"; "wgo"; "wh"]);
    ("did", ["fid"; "dud"; "didd"; "dd"; "sid"]);
    ("she", ["shr"; "ahe"; "dhe"; "shee"; "sh"]);
    ("been", ["bern"; "veen"; "bren"; "ben"; "beenn"]);
    ("from", ["frim"; "fron"; "feom"; "grom"; "frm"]);
    ("have", ["habe"; "hsve"; "jave"; "havee"; "hve"]);
    ("into", ["inti"; "inro"; "intoo"; "unto"; "nto"]);
    ("just", ["jusr"; "kust"; "jsut"; "jist"; "jst"]);
    ("like", ["lile"; "likr"; "luke"; "lik"; "loke"]);
    ("make", ["makr"; "maje"; "nake"; "mke"; "msle"]);
    ("more", ["mire"; "morr"; "nore"; "mote"; "mre"]);
    ("only", ["onlt"; "inly"; "omly"; "oly"; "onky"]);
    ("over", ["iver"; "ovet"; "pver"; "ovee"; "ovr"]);
    ("such", ["suxh"; "sich"; "suvh"; "sch"; "sucj"]);
    ("take", ["tske"; "takr"; "rake"; "taje"; "tke"]);
    ("than", ["tham"; "tjan"; "rhan"; "thn"; "thsn"]);
    ("them", ["thrm"; "rhem"; "tjem"; "thm"; "tgem"]);
    ("then", ["tjen"; "rhen"; "thrn"; "thn"; "tgen"]);
    ("this", ["thia"; "thjs"; "rhis"; "thos"; "ths"]);
    ("time", ["tine"; "timr"; "rime"; "tume"; "tme"]);
    ("very", ["vety"; "veru"; "bery"; "vry"; "verg"]);
    ("want", ["wanr"; "qant"; "wamt"; "wnt"; "wabt"]);
    ("well", ["wekk"; "qell"; "wrll"; "wll"; "welll"]);
    ("were", ["wete"; "qere"; "wrer"; "wre"; "weee"]);
    ("what", ["wjat"; "qhat"; "whst"; "wht"; "whay"]);
    ("when", ["wjen"; "qhen"; "whrn"; "whn"; "wheb"]);
    ("will", ["eill"; "wikk"; "qill"; "wil"; "willl"]);
    ("with", ["woth"; "wirh"; "qith"; "wth"; "wiyh"]);
    ("word", ["wird"; "worf"; "qord"; "wrd"; "worx"]);
    ("work", ["wirk"; "wotk"; "qork"; "wrk"; "wprk"]);
    ("year", ["yeat"; "yesr"; "uear"; "yar"; "yeae"]);
    ("your", ["yoir"; "ypur"; "uour"; "yor"; "youe"]);
    ("about", ["aboit"; "sbout"; "abour"; "abt"; "abput"]);
    ("after", ["aftet"; "sfter"; "afrer"; "aftr"; "aftee"]);
    ("again", ["agsin"; "sgain"; "agaun"; "agin"; "agaib"]);
    ("being", ["beinf"; "veing"; "brung"; "bing"; "beibg"]);
    ("could", ["coild"; "ciuld"; "cpuld"; "cld"; "coudl"]);
    ("first", ["furst"; "forst"; "dirst"; "frst"; "firat"]);
    ("great", ["grear"; "gteat"; "grwat"; "grt"; "greay"]);
    ("never", ["neved"; "mever"; "nevee"; "nvr"; "nevwr"]);
    ("other", ["othet"; "orher"; "pther"; "othr"; "othee"]);
    ("right", ["righr"; "roght"; "rugjt"; "rght"; "righy"]);
    ("still", ["stoll"; "srill"; "atill"; "stll"; "stikl"]);
    ("thank", ["thabk"; "tjank"; "rhank"; "thnk"; "thsnk"]);
    ("their", ["theur"; "tjeir"; "rheir"; "thir"; "theie"]);
    ("there", ["thete"; "tjere"; "rhere"; "thre"; "theee"]);
    ("these", ["thesw"; "tjese"; "rhese"; "thse"; "thesee"]);
    ("think", ["thunk"; "tjink"; "rhink"; "thnk"; "thibl"]);
    ("those", ["thise"; "tjose"; "rhose"; "thse"; "thosee"]);
    ("three", ["thfee"; "tjree"; "rhree"; "thre"; "threee"]);
    ("today", ["todat"; "roday"; "todau"; "tday"; "todsy"]);
    ("under", ["unfer"; "ubder"; "inder"; "undr"; "undee"]);
    ("water", ["wated"; "qater"; "watee"; "watr"; "watef"]);
    ("where", ["whete"; "qhere"; "wjere"; "whre"; "wheee"]);
    ("which", ["whuch"; "qhich"; "wjich"; "whch"; "whicj"]);
    ("while", ["whike"; "qhile"; "wjile"; "whle"; "whilw"]);
    ("world", ["wirld"; "qorld"; "wprld"; "wrld"; "worle"]);
    ("would", ["woukd"; "qould"; "woyld"; "wld"; "woudl"]);
    ("write", ["wriyr"; "qrite"; "wfite"; "wrte"; "writw"]);
    ("going", ["goung"; "giing"; "goinf"; "gng"; "goibg"]);
    ("typing", ["typong"; "tyoing"; "typinf"; "typng"; "typibg"]);
    ("office", ["offixe"; "iffice"; "offuce"; "offce"; "officw"]);
    ("because", ["becayse"; "becauae"; "vecause"; "bcause"; "becuase"]);
    ("people", ["pwople"; "oeople"; "peopke"; "ppl"; "peoplee"]);
    ("should", ["shoild"; "ahould"; "shpuld"; "shld"; "shoudl"]);
    ("through", ["thrpugh"; "tjrough"; "throigh"; "thru"; "througj"]);
    ("hello", ["jello"; "helli"; "hrllo"; "hllo"; "helllo"]);
    ("message", ["messafe"; "nessage"; "messsgr"; "msg"; "mesaage"]);
    ("meeting", ["mweting"; "meering"; "neetkng"; "mtng"; "meetibg"]);
    ("morning", ["mornong"; "norning"; "mornibg"; "mrng"; "mornimg"]);
    ("thanks", ["tjanks"; "rhanks"; "thsnks"; "thx"; "thankss"]);
    ("please", ["pleaae"; "olease"; "plesse"; "pls"; "pleasee"]);
    ("sorry", ["sorrt"; "sirry"; "sorru"; "sry"; "sorrry"]);
    ("really", ["reall"; "rwally"; "reakky"; "rly"; "reallt"]);
    ("thing", ["thong"; "thinf"; "rhing"; "thng"; "thibg"]);
    ("things", ["thongs"; "thinfs"; "rhings"; "thngs"; "thibgs"]);
    ("something", ["somethong"; "somwthing"; "somerhing"; "smth"; "somethimg"]);
    ("someone", ["someobe"; "soneone"; "somrone"; "smone"; "someonee"]);
    ("anything", ["anythong"; "anytjing"; "snything"; "anythng"; "anythimg"]);
    ("everything", ["everythong"; "everytjing"; "evrrything"; "evrythng"; "everythimg"]);
    ("nothing", ["nothong"; "notjing"; "borhing"; "nthng"; "nothimg"]);
    ("i", ["u"; "o"; "k"]);
    ("a", ["s"; "q"; "z"]) ].
Definition SPACEBAR_ERRORS_literal : list (string * Q) :=
  [ ("space_to_b", (1 # 5)%Q);
    ("space_to_n", (1 # 5)%Q);
    ("space_to_v", (1 # 10)%Q);
    ("double_space", (1 # 5)%Q);
    ("no_space", (3 # 10)%Q) ].
Definition PROTECTED_PROPER_NOUNS_literal : list string :=
  [
   "iphone"; "ipad"; "macbook"; "airpods"; "imac"; "ios"; "macos"; "ipados"; "android";
   "samsung"; "galaxy"; "pixel"; "oneplus"; "huawei"; "xiaomi"; "google"; "gmail"; "youtube";
   "chrome"; "chromebook"; "microsoft"; "windows"; "xbox"; "linkedin"; "github"; "vscode";
   "facebook"; "instagram"; "whatsapp"; "messenger"; "meta"; "twitter"; "tiktok"; "snapchat";
   "discord"; "slack"; "zoom"; "teams"; "amazon"; "alexa"; "kindle"; "aws"; "netflix";
   "spotify"; "uber"; "lyft"; "airbnb"; "paypal"; "venmo"; "cashapp"; "stripe"; "shopify";
   "tesla"; "spacex"; "openai"; "chatgpt"; "claude"; "anthropic"; "gmail"; "outlook"; "yahoo";
   "hotmail"; "icloud"; "dropbox"; "onedrive"; "notion"; "figma"; "canva"; "photoshop";
   "illustrator"; "premiere"; "john"; "jane"; "mike"; "david"; "sarah"; "emma"; "james";
   "mary"; "michael"; "jennifer"; "robert"; "linda"; "william"; "elizabeth"; "london"; "paris";
   "tokyo"; "singapore"; "sydney"; "melbourne"; "new york"; "los angeles"; "san francisco";
   "seattle"; "chicago"; "mumbai"; "delhi"; "bangalore"; "manila"; "lagos"; "johannesburg";
   "dublin"; "edinburgh"; "auckland"; "wellington"; "hong kong"; "kuala lumpur" ].

Definition MOBILE_ADJACENT_KEYS : dict (list string) := dict_of MOBILE_ADJACENT_KEYS_literal.
Definition ERROR_WEIGHTS : dict Q := dict_of ERROR_WEIGHTS_literal.
Definition THUMB_TYPING_ERRORS : dict (list string) := dict_of THUMB_TYPING_ERRORS_literal.
Definition SPACEBAR_ERRORS : dict Q := dict_of SPACEBAR_ERRORS_literal.
Definition PROTECTED_PROPER_NOUNS : list string := set_of PROTECTED_PROPER_NOUNS_literal.

(* the characters stripped by should_protect_word:
   . , ! ? ; : apostrophe, double quote, ( ) [ ] { } *)
Definition STRIP_CHARS : string := ".,!?;:'" ++ QUOTE ++ "()[]{}".

Definition should_protect_word (word : string) (variant : option string) : bool :=
  let word_lower := strip STRIP_CHARS (lower word) in
  if dict_in word_lower PRESERVED_ABBREVIATIONS then true
  else if contains word_lower PROTECTED_PROPER_NOUNS then true
  else if is_protected_word word variant then true
  else if isdigit (remove_chr "," (remove_chr "." word_lower)) then true
  else if Nat.eqb (String.length word_lower) 1 then true
  else false.

(** find_protected_spans.  The compiled regular expressions and the
    matcher of the [re] module are parameters: [finditer p text] lists
    the (start, end) offsets of the successive matches of [p]. *)

Definition span : Type := (nat * nat)%type.

(* the order of tuples, used by list.sort() *)
Definition span_leb (a b : span) : bool :=
  Nat.ltb (fst a) (fst b) || (Nat.eqb (fst a) (fst b) && Nat.leb (snd a) (snd b)).

Fixpoint sort_insert (x : span) (l : list span) : list span :=
  match l with
  | [] => [x]
  | y :: r => if span_leb x y then x :: l else y :: sort_insert x r
  end.
Definition sort (l : list span) : list span := fold_right sort_insert [] l.

(* one round of the merging loop; merged is never empty there *)
Definition merge_step (merged : list span) (s : span) : list span :=
  let (start, end_) := s in
  let last_ := List.last merged (0, 0) in
  if Nat.leb start (snd last_)
  then removelast merged ++ [(fst last_, Nat.max (snd last_) end_)]
  else merged ++ [(start, end_)].

Section Patterns.

Variable pattern : Type.
Variable PROTECTED_PATTERNS : list pattern.
Variable finditer : pattern -> string -> list span.

Definition collect_spans (text : string) : list span :=
  flat_map (fun p => finditer p text) PROTECTED_PATTERNS.

Definition find_protected_spans (text : string) : list span :=
  let protected_spans := collect_spans text in
  match sort protected_spans with
  | [] => []
  | first :: rest => fold_left merge_step rest [first]
  end.

End Patterns.

Import random.

Definition apply_adjacent_error (char : string) : M string :=
  let char_lower := lower char in
  if dict_in char_lower MOBILE_ADJACENT_KEYS then
    neighbours <- lift (getitem MOBILE_ADJACENT_KEYS char_lower) ;;
    adjacent <- choice neighbours ;;
    ret (if islower char then adjacent else upper adjacent)
  else ret char.

Definition apply_omission (word : string) (pos : nat) : string :=
  if Nat.leb (String.length word) 1 then word
  else take pos word ++ drop (pos + 1) word.

Definition apply_insertion (word : string) (pos : nat) : M string :=
  if Nat.leb (String.length word) pos then ret word
  else
    char <- lift (str_getitem word pos) ;;
    r <- random ;;
    if Qltb r (6 # 10) then ret (take pos word ++ char ++ drop pos word)%string
    else
      adjacent <- apply_adjacent_error char ;;
      ret (take pos word ++ adjacent ++ drop pos word)%string.

Local Open Scope result_scope.

Definition apply_transposition (word : string) (pos : nat) : result string :=
  if Nat.leb (String.length word - 1) pos then Ok word
  else
    let chars_ := chars word in
    a <~ list_getitem chars_ (pos + 1) ;;
    b <~ list_getitem chars_ pos ;;
    chars_ <~ list_setitem chars_ pos a ;;
    chars_ <~ list_setitem chars_ (pos + 1) b ;;
    Ok (join EmptyString chars_).

Definition LETTERS : list string := chars "abcdefghijklmnopqrstuvwxyz".

(* the dispatch on error_type at the end of corrupt_word_mobile *)
Definition apply_error (error_type word : string) (pos : nat) : M string :=
  if error_type =? "adjacent" then
    let chars_ := chars word in
    c <- lift (list_getitem chars_ pos) ;;
    c' <- apply_adjacent_error c ;;
    chars_ <- lift (list_setitem chars_ pos c') ;;
    ret (join EmptyString chars_)
  else if error_type =? "omission" then ret (apply_omission word pos)
  else if error_type =? "insertion" then apply_insertion word pos
  else if error_type =? "transposition" then lift (apply_transposition word pos)
  else if error_type =? "substitution" then
    let chars_ := chars word in
    c <- choice LETTERS ;;
    chars_ <- lift (list_setitem chars_ pos c) ;;
    ret (join EmptyString chars_)
  else if error_type =? "case_error" then
    let chars_ := chars word in
    c <- lift (list_getitem chars_ pos) ;;
    chars_ <- lift (list_setitem chars_ pos (swapcase c)) ;;
    ret (join EmptyString chars_)
  else ret word.

(* word_lower in THUMB_TYPING_ERRORS and random.random() < 0.3;
   the draw is made only when the word is in the table *)
Definition thumb_gate (word_lower : string) : M bool :=
  if dict_in word_lower THUMB_TYPING_ERRORS
  then r <- random ;; ret (Qltb r (3 # 10))
  else ret false.

Definition thumb_typo (word word_lower : string) : M string :=
  typos <- lift (getitem THUMB_TYPING_ERRORS word_lower) ;;
  typo <- choice typos ;;
  first <- lift (str_getitem word 0) ;;
  let typo :=
    if isupper first && Nat.ltb 0 (String.length typo)
    then (upper (take 1 typo) ++ drop 1 typo)%string
    else typo in
  let typo := if isupper word then upper typo else typo in
  ret typo.

Definition corrupt_word_mobile (word : string) : M string :=
  note_call word ;;;
  if Nat.leb (String.length word) 1 then ret word
  else
    let word_lower := lower word in
    hit <- thumb_gate word_lower ;;
    if hit then thumb_typo word word_lower
    else
      error_type <- choices (keys ERROR_WEIGHTS) (values ERROR_WEIGHTS) ;;
      pos <- randint 0 (String.length word - 1) ;;
      apply_error error_type word pos.

(* result_words[-1] = result_words[-1] + s *)
Definition extend_last (result_words : list string) (s : string) : list string :=
  removelast result_words ++ [(List.last result_words EmptyString ++ s)%string].

(* the spacebar branch of the loop body, entered when the 3% draw hits *)
Definition spacebar_error (result_words : list string) (token : string)
    : M (list string) :=
  space_error <- choices (keys SPACEBAR_ERRORS) (values SPACEBAR_ERRORS) ;;
  if space_error =? "no_space" then
    match result_words with
    | [] => ret (result_words ++ [token])
    | _ => ret (extend_last result_words token)
    end
  else if space_error =? "double_space" then
    ret ((result_words ++ [EmptyString]) ++ [token])
  else if contains space_error ["space_to_b"; "space_to_n"; "space_to_v"] then
    match last_chr space_error with
    | Some c => ret ((result_words ++ [chr c]) ++ [token])
    | None => raise IndexError
    end
  else ret (result_words ++ [token]).

(* the body of the loop over enumerate(words) in corrupt_text_mobile *)
Definition corrupt_token (error_rate : Q) (variant : option string)
    (i : nat) (word : string) (result_words : list string) : M (list string) :=
  let '(prefix, core, suffix) := peel word in
  if should_protect_word core variant then
    ret (result_words ++ [(prefix ++ core ++ suffix)%string])
  else
    core <- (if truthy core then
               r <- random ;;
               if Qltb r error_rate then corrupt_word_mobile core else ret core
             else ret core) ;;
    hit <- (if Nat.ltb 0 i then r <- random ;; ret (Qltb r (3 # 100))
            else ret false) ;;
    if hit then spacebar_error result_words (prefix ++ core ++ suffix)%string
    else ret (result_words ++ [(prefix ++ core ++ suffix)%string]).

Fixpoint corrupt_words (error_rate : Q) (variant : option string)
    (i : nat) (words : list string) (result_words : list string)
    : M (list string) :=
  match words with
  | [] => ret result_words
  | word :: rest =>
      result_words <- corrupt_token error_rate variant i word result_words ;;
      corrupt_words error_rate variant (S i) rest result_words
  end.

(* the sentence-level pass after the words are joined *)
Definition postprocess (result : string) : M string :=
  result <- (if truthy result then
               r <- random ;;
               ret (if Qltb r (15 # 100)
                    then (lower (take 1 result) ++ drop 1 result)%string
                    else result)
             else ret result) ;;
  r <- random ;;
  let result := if Qltb r (1 # 10) then remove_chr "," result else result in
  r <- random ;;
  let result := if Qltb r (5 # 100) then remove_chr "." result else result in
  r <- random ;;
  let result := if Qltb r (5 # 100) then remove_chr "'" result else result in
  ret result.

Definition corrupt_text_mobile (text : string) (error_rate : Q)
    (variant : option string) : M string :=
  let words := split text in
  result_words <- corrupt_words error_rate variant 0 words [] ;;
  postprocess (join " " result_words).

Definition SAMPLE_SENTENCES : list string :=
  [
   "Hello, how are you? I am fine, thank you."; "Hey, what's up? How's it going?";
   "Good morning! Hope you have a great day."; "Hi there! Nice to hear from you.";
   "How are you doing today?"; "Today I am going to the office to work on a new project.";
   "I have a meeting at three o'clock this afternoon.";
   "Can you send me the report by end of day?";
   "Let me know when you're free to discuss this.";
   "I'll follow up with you tomorrow morning.";
   "The deadline has been extended to next Friday.";
   "Please review the document and provide feedback."; "I'm working from home today.";
   "Can we reschedule our meeting to next week?"; "I'll be out of office next Monday.";
   "I am typing this message hoping the AI can understand me.";
   "Just wanted to check in and see how you're doing."; "Are you free for lunch tomorrow?";
   "Let me know if you need anything."; "Thanks for your help with this!";
   "Sorry for the late reply, been super busy."; "That sounds great, count me in!";
   "No worries, take your time."; "I'll get back to you as soon as I can.";
   "Can you please call me when you get a chance?";
   "The quick brown fox jumps over the lazy dog."; "Can you please help me with this problem?";
   "I would like to schedule a meeting for tomorrow.";
   "Thank you for your help with this issue."; "I think we should discuss this further.";
   "Let me know if you have any questions."; "I will send you the document later today.";
   "I am looking forward to hearing from you soon."; "What time does the meeting start?";
   "Where should we meet for dinner?"; "Did you get my last message?";
   "When will you be available?"; "Can you explain this to me?";
   "Why did you change the plan?"; "How long will this take?"; "Who is coming to the party?";
   "I forgot my phone at home."; "The weather is beautiful today.";
   "I need to finish this by tonight."; "Everything is going according to plan.";
   "Something came up and I have to cancel."; "I really appreciate your patience.";
   "This is taking longer than expected."; "I completely understand your concern.";
   "Running late, be there in ten minutes."; "On my way now, see you soon.";
   "Just got your message, calling you back."; "Battery is dying, talk later.";
   "Bad signal here, might cut out."; "Can't talk right now, text me.";
   "Send me the address please."; "What's the wifi password?"; "My phone is almost dead.";
   "I'll text you when I arrive.";
   "I wanted to follow up on our conversation from yesterday about the project timeline.";
   "Please let me know if there's anything else you need from me before the meeting.";
   "I apologize for any inconvenience this may have caused you.";
   "Looking forward to seeing everyone at the event this weekend.";
   "Just finished the presentation, ready for tomorrow's meeting." ].

Record sample : Type := mk_sample {
  input : string;
  output : string;
  variant : string;
  typo_type : string
}.

(* while (corrupted == clean or corrupted in generated_variants) and attempts < 5;
   left counts the attempts that remain, attempts + left = 5 *)
Fixpoint retry_loop (left : nat) (clean : string) (rate : Q) (variant_ : string)
    (generated_variants : list string) (corrupted : string) (attempts : nat)
    : M (string * nat) :=
  match left with
  | 0 => ret (corrupted, attempts)
  | S left' =>
      if (corrupted =? clean) || contains corrupted generated_variants then
        corrupted <- corrupt_text_mobile clean (Qplus rate (10 # 100)) (Some variant_) ;;
        retry_loop left' clean rate variant_ generated_variants corrupted (attempts + 1)
      else ret (corrupted, attempts)
  end.

(* the body of the loop over range(variants_per_sample) *)
Definition variant_iteration (error_rates error_weights : list Q)
    (variant_ clean : string) (st : list string * list sample)
    : M (list string * list sample) :=
  let (generated_variants, dataset) := st in
  sample_error_rate <- choices error_rates error_weights ;;
  corrupted <- corrupt_text_mobile clean sample_error_rate (Some variant_) ;;
  ca <- retry_loop 5 clean sample_error_rate variant_ generated_variants corrupted 0 ;;
  let corrupted := fst ca in
  if negb (contains corrupted generated_variants) then
    ret (generated_variants ++ [corrupted],
         dataset ++ [mk_sample corrupted clean variant_
                       (if negb (corrupted =? clean) then "corrupted" else "none")])
  else ret (generated_variants, dataset).

Fixpoint variants_loop (n : nat) (error_rates error_weights : list Q)
    (variant_ clean : string) (st : list string * list sample)
    : M (list string * list sample) :=
  match n with
  | 0 => ret st
  | S n' =>
      st <- variant_iteration error_rates error_weights variant_ clean st ;;
      variants_loop n' error_rates error_weights variant_ clean st
  end.

(* the body of the loop over range(num_samples); the progress line it
   prints every 1000 rounds is not modelled *)
Definition sample_iteration (all_sentences : list string)
    (error_rates error_weights : list Q) (variant_ : string)
    (clean_sample_ratio : Q) (variants_per_sample : Z) (dataset : list sample)
    : M (list sample) :=
  clean <- choice all_sentences ;;
  r <- random ;;
  if Qltb r clean_sample_ratio then
    ret (dataset ++ [mk_sample clean clean variant_ "none"])
  else
    let generated_variants := [] in
    st <- variants_loop (Z.to_nat variants_per_sample) error_rates error_weights
            variant_ clean (generated_variants, dataset) ;;
    ret (snd st).

Fixpoint samples_loop (n : nat) (all_sentences : list string)
    (error_rates error_weights : list Q) (variant_ : string)
    (clean_sample_ratio : Q) (variants_per_sample : Z) (dataset : list sample)
    : M (list sample) :=
  match n with
  | 0 => ret dataset
  | S n' =>
      dataset <- sample_iteration all_sentences error_rates error_weights variant_
                   clean_sample_ratio variants_per_sample dataset ;;
      samples_loop n' all_sentences error_rates error_weights variant_
        clean_sample_ratio variants_per_sample dataset
  end.

(* the sentences generate_dataset draws from, before the loop *)
Definition sentence_pool (variant_ : string) : result (list string) :=
  (variant_sentences <~ get_sample_sentences variant_ true true ;;
   us <~ getitem VARIANT_CONFIG "US" ;;
   let config := get_default VARIANT_CONFIG variant_ us in
   let spelling := spelling config in
   let base_sentences :=
     map (fun s => convert_sentence_spelling s spelling) SAMPLE_SENTENCES in
   Ok (set_of (variant_sentences ++ base_sentences)))%string.

(* error_rates and error_weights, as generate_dataset sets them *)
Definition error_rates_of (variable_error_rate : bool) (error_rate : Q) : list Q :=
  if variable_error_rate
  then [5 # 100; 10 # 100; 15 # 100; 20 # 100; 25 # 100; 30 # 100; 35 # 100]%Q
  else [error_rate].
Definition error_weights_of (variable_error_rate : bool) : list Q :=
  if variable_error_rate
  then [5 # 100; 10 # 100; 20 # 100; 30 # 100; 20 # 100; 10 # 100; 5 # 100]%Q
  else [1 # 1]%Q.

Definition generate_dataset (num_samples : Z) (error_rate : Q) (variant_ : string)
    (clean_sample_ratio : Q) (variable_error_rate : bool) (variants_per_sample : Z)
    : M (list sample) :=
  let dataset := [] in
  all_sentences <- lift (sentence_pool variant_) ;;
  let error_rates := error_rates_of variable_error_rate error_rate in
  let error_weights := error_weights_of variable_error_rate in
  samples_loop (Z.to_nat num_samples) all_sentences error_rates error_weights
    variant_ clean_sample_ratio variants_per_sample dataset.

End generate_typos.

(** * Vocabulary of the properties *)

Import english_variants.
Import random.
Import generate_typos.

(* what one pair of the table must satisfy for the conversion to go both
   ways in every casing; checked on the whole table by evaluation *)
Definition pair_checks (kv : string * string) : bool :=
  let (us, uk) := kv in
  match dict_get SPELLING_UK_TO_US uk, dict_get SPELLING_US_TO_UK us with
  | Some us', Some uk' =>
      (us' =? us) && (uk' =? uk)
      && (lower us =? us) && (lower (upper us) =? us) && (lower (capitalize us) =? us)
      && (lower uk =? uk) && (lower (upper uk) =? uk) && (lower (capitalize uk) =? uk)
  | _, _ => false
  end.

(* [m] started in [w] returns, and the value and final state satisfy [post] *)
Definition runs {A} (m : M A) (w : world) (post : A -> world -> Prop) : Prop :=
  exists a w', m w = Ok (a, w') /\ post a w'.

(* nothing was logged between [w] and [w'] *)
Definition quiet (w w' : world) : Prop := calls w' = calls w.

(* what was logged between [w] and [w'] satisfies [P] *)
Definition logs (P : string -> Prop) (w w' : world) : Prop :=
  exists new, calls w' = new ++ calls w /\ Forall P new.

(* the weights are as many as the population and their total is positive *)
Definition weights_fit (n : nat) (weights : list Q) : bool :=
  Nat.eqb (length (accumulate weights)) n
  && match rev (accumulate weights) with
     | [] => false
     | total :: _ => negb (Qle_bool total (0 # 1))
     end.

Definition nonempty {A} (l : list A) : bool :=
  match l with [] => false | _ => true end.

(* the middle component of [peel] *)
Definition core_of (token : string) : string := snd (fst (peel token)).

(* [t] is a part of [s] *)
Definition occurs_in (t s : string) : Prop :=
  exists a b, s = (a ++ t ++ b)%string.

Fixpoint starts_with (t s : string) : bool :=
  match t, s with
  | EmptyString, _ => true
  | String c t', String d s' => Ascii.eqb c d && starts_with t' s'
  | _, _ => false
  end.

Fixpoint occursb (t s : string) : bool :=
  match s with
  | EmptyString => starts_with t EmptyString
  | String _ s' => starts_with t s || occursb t s'
  end.

(* some word of [result_words] starts with [t] *)
Definition kept (t : string) (result_words : list string) : Prop :=
  exists r rest, In r result_words /\ r = (t ++ rest)%string.

(* the sentence-level pass, with the outcome of its four draws given *)
Definition sentence_pass (shift comma period apostrophe : bool) (s : string) : string :=
  let s := if shift then (lower (take 1 s) ++ drop 1 s)%string else s in
  let s := if comma then remove_chr "," s else s in
  let s := if period then remove_chr "." s else s in
  if apostrophe then remove_chr "'" s else s.

(* [b] starts no earlier than [a] *)
Definition by_start (a b : span) : Prop := fst a <= fst b.
(* [b] starts strictly after the end of [a] *)
Definition apart (a b : span) : Prop := snd a < fst b.
(* offset [pos] lies inside the span *)
Definition inside (pos : nat) (s : span) : Prop := fst s <= pos < snd s.

(* the merging loop, seen from its last span: [cur] is merged[-1] *)
Fixpoint merge_from (cur : span) (rest : list span) : list span :=
  match rest with
  | [] => [cur]
  | (start, end_) :: rest' =>
      if Nat.leb start (snd cur)
      then merge_from (fst cur, Nat.max (snd cur) end_) rest'
      else cur :: merge_from (start, end_) rest'
  end.

(* the sentences of an unknown code: the generic ones in US spelling,
   then the short messages when asked for *)
Definition fallback_sentences (include_short : bool) : list string :=
  let sentences :=
    map (fun s => convert_sentence_spelling s "US") english_variants.SAMPLE_SENTENCES in
  if include_short then sentences ++ SHORT_MESSAGES else sentences.

(* a record of the draw of [clean]: its output, and its label, which
   says whether the input differs *)
Definition labelled (clean variant_ : string) (r : sample) : Prop :=
  output r = clean /\ variant r = variant_ /\
  ((input r = clean /\ typo_type r = "none") \/
   (input r <> clean /\ typo_type r = "corrupted")).

(* the records one round of the loop over range(num_samples) appends:
   either the single clean record, on a draw below clean_sample_ratio,
   or the distinct variants, on a draw not below it *)
Definition draw_group (clean_sample_ratio : Q) (variants_per_sample : Z)
    (all_sentences : list string) (variant_ : string) (g : list sample) : Prop :=
  exists clean r,
    In clean all_sentences /\ Qltb r (1 # 1) = true /\ Qltb r (0 # 1) = false /\
    ((Qltb r clean_sample_ratio = true /\ g = [mk_sample clean clean variant_ "none"]) \/
     (Qltb r clean_sample_ratio = false /\
      length g <= Z.to_nat variants_per_sample /\
      NoDup (map input g) /\
      Forall (labelled clean variant_) g)).

(** ** Vocabulary of the further properties *)

(* an ASCII letter *)
Definition is_letter (c : ascii) : bool := chr_isupper c || chr_islower c.

(* the characters of [s] that satisfy [p], in order *)
Fixpoint str_filter (p : ascii -> bool) (s : string) : string :=
  match s with
  | EmptyString => EmptyString
  | String c r => if p c then String c (str_filter p r) else str_filter p r
  end.

(* a character of a written number: a digit, a period or a comma *)
Definition number_chr (c : ascii) : bool :=
  chr_isdigit c || Ascii.eqb c "." || Ascii.eqb c ",".

(* digits with periods and commas among them, and at least one digit *)
Definition number_like (s : string) : bool :=
  str_all number_chr s && str_any chr_isdigit s.

(* the word with the characters at offsets [pos] and [pos + 1] exchanged,
   the word itself when there are no two such characters *)
Fixpoint swap_at (pos : nat) (s : string) : string :=
  match pos, s with
  | 0, String x (String y r) => String y (String x r)
  | S pos', String x r => String x (swap_at pos' r)
  | _, _ => s
  end.

(* the same on a list *)
Fixpoint swap_list {A} (pos : nat) (l : list A) : list A :=
  match pos, l with
  | 0, x :: y :: r => y :: x :: r
  | S pos', x :: r => x :: swap_list pos' r
  | _, _ => l
  end.

(* a one-character string *)
Definition single (s : string) : Prop := String.length s = 1.

(* the length apply_error gives a word of length [n], by error type *)
Definition length_after (error_type : string) (n : nat) : nat :=
  if error_type =? "omission" then (if Nat.leb n 1 then n else n - 1)
  else if error_type =? "insertion" then n + 1
  else n.

(* what every entry of MOBILE_ADJACENT_KEYS satisfies: the key is one
   lower-case letter, and so is every neighbour, none being the key *)
Definition adjacency_entry_ok (kv : string * list string) : bool :=
  match fst kv with
  | String k EmptyString =>
      chr_islower k &&
      forallb (fun v => match v with
                        | String d EmptyString => chr_islower d && negb (Ascii.eqb d k)
                        | _ => false
                        end) (snd kv)
  | _ => false
  end.

(* [a] comes no later than [b] in the order of tuples *)
Definition in_order (a b : span) : Prop := span_leb a b = true.

(* some word of [result_words] has [t] as a part *)
Definition held (t : string) (result_words : list string) : Prop :=
  exists r, In r result_words /\ occurs_in t r.






(** * Properties *)

(** ** Association lists *)

Section DictFacts.

Context {V : Type}.

Lemma dict_get_In (d : dict V) k v : dict_get d k = Some v -> In (k, v) d.
Proof.
  induction d as [|[k' v'] d IH]; simpl; [discriminate|].
  destruct (String.eqb_spec k k') as [->|_].
  - intros [= ->]. now left.
  - intros H. right. now apply IH.
Qed.

Lemma dict_in_getitem (d : dict V) k :
  dict_in k d = true -> exists v, getitem d k = Ok v /\ In (k, v) d.
Proof.
  unfold dict_in, getitem. destruct (dict_get d k) as [v|] eqn:E; [|discriminate].
  intros _. exists v. split; [reflexivity|]. now apply dict_get_In.
Qed.

Lemma dict_in_keys (d : dict V) k : dict_in k d = contains k (keys d).
Proof.
  unfold dict_in, contains, keys.
  induction d as [|[k' v'] d IH]; simpl; [reflexivity|].
  destruct (String.eqb k k'); [reflexivity|exact IH].
Qed.

Lemma get_default_missing (d : dict V) k default :
  dict_in k d = false -> get_default d k default = default.
Proof.
  unfold dict_in, get_default. now destruct (dict_get d k).
Qed.

End DictFacts.

Lemma contains_In x xs : contains x xs = true <-> In x xs.
Proof.
  unfold contains. rewrite existsb_exists. split.
  - intros (y & Hy & E). apply String.eqb_eq in E. now subst.
  - intros H. exists x. split; [exact H|apply String.eqb_refl].
Qed.

(** ** The spelling tables *)

Lemma table_checks : forallb pair_checks (items SPELLING_US_TO_UK) = true.
Proof. vm_compute. reflexivity. Qed.

Lemma pair_facts us uk :
  In (us, uk) (items SPELLING_US_TO_UK) ->
  dict_get SPELLING_UK_TO_US uk = Some us /\ dict_get SPELLING_US_TO_UK us = Some uk /\
  (lower us = us /\ lower (upper us) = us /\ lower (capitalize us) = us) /\
  (lower uk = uk /\ lower (upper uk) = uk /\ lower (capitalize uk) = uk).
Proof.
  intros H. pose proof table_checks as T. rewrite forallb_forall in T.
  specialize (T _ H). unfold pair_checks in T.
  destruct (dict_get SPELLING_UK_TO_US uk) as [us'|]; [|discriminate].
  destruct (dict_get SPELLING_US_TO_UK us) as [uk'|]; [|discriminate].
  repeat (apply andb_prop in T; destruct T as [T ?]).
  repeat match goal with E : (_ =? _) = true |- _ => apply String.eqb_eq in E end.
  subst us' uk'. repeat split; assumption.
Qed.

Lemma chr_lower_not_upper c : chr_isupper (chr_lower c) = false.
Proof. destruct c as [[] [] [] [] [] [] [] []]; vm_compute; reflexivity. Qed.

Lemma lower_has_no_capital s :
  isupper (lower s) = false /\ starts_upper (lower s) = false.
Proof.
  split.
  - unfold isupper. replace (str_any chr_isupper (lower s)) with false; [reflexivity|].
    induction s as [|c r IH]; simpl; [reflexivity|].
    now rewrite chr_lower_not_upper.
  - destruct s as [|c r]; simpl; [reflexivity|apply chr_lower_not_upper].
Qed.

(* the casing the converter gives back to a result *)
Lemma get_spelling_cases word variant_ found :
  found =
    (if variant_ =? "US" then
       match dict_get SPELLING_UK_TO_US (lower word) with
       | Some w => w | None => lower word end
     else if contains variant_ ["UK"; "AU"] then
       match dict_get SPELLING_US_TO_UK (lower word) with
       | Some w => w | None => lower word end
     else lower word) ->
  get_spelling_for_variant word variant_ =
    if isupper word then upper found
    else if starts_upper word then capitalize found else found.
Proof.
  intros ->. unfold get_spelling_for_variant.
  destruct word as [|c r]; reflexivity.
Qed.

(** C2. For every (us, uk) pair of the table and every casing [word] of
    the British form, converting to "US" gives the American form, upper-cased
    when [word] is upper case, capitalized when only its first letter is a
    capital, as it stands otherwise; the same holds from the American form
    to "UK"; and "Colour" and "COLOUR" become "Color" and "COLOR". *)
Theorem spelling_round_trip :
  forall us uk,
    In (us, uk) (items SPELLING_US_TO_UK) ->
    get_spelling_for_variant uk "US" = us /\
    get_spelling_for_variant us "UK" = uk /\
    (forall word, lower word = uk ->
       lower (get_spelling_for_variant word "US") = us /\
       (isupper word = true -> get_spelling_for_variant word "US" = upper us) /\
       (isupper word = false -> starts_upper word = true ->
          get_spelling_for_variant word "US" = capitalize us)) /\
    (forall word, lower word = us ->
       lower (get_spelling_for_variant word "UK") = uk /\
       (isupper word = true -> get_spelling_for_variant word "UK" = upper uk) /\
       (isupper word = false -> starts_upper word = true ->
          get_spelling_for_variant word "UK" = capitalize uk)) /\
    get_spelling_for_variant "Colour" "US" = "Color" /\
    get_spelling_for_variant "COLOUR" "US" = "COLOR".
Proof.
  intros us uk H.
  destruct (pair_facts us uk H) as (Huk & Hus & (Lus & Uus & Cus) & (Luk & Uuk & Cuk)).
  assert (G1 : forall word, lower word = uk ->
            get_spelling_for_variant word "US" =
              if isupper word then upper us
              else if starts_upper word then capitalize us else us).
  { intros word E. apply get_spelling_cases. rewrite E, Huk. reflexivity. }
  assert (G2 : forall word, lower word = us ->
            get_spelling_for_variant word "UK" =
              if isupper word then upper uk
              else if starts_upper word then capitalize uk else uk).
  { intros word E. apply get_spelling_cases. rewrite E, Hus. reflexivity. }
  assert (Nuk : isupper uk = false /\ starts_upper uk = false).
  { rewrite <- Luk. apply lower_has_no_capital. }
  assert (Nus : isupper us = false /\ starts_upper us = false).
  { rewrite <- Lus. apply lower_has_no_capital. }
  split; [|split; [|split; [|split; [|split]]]].
  - rewrite (G1 uk Luk). destruct Nuk as [-> ->]. reflexivity.
  - rewrite (G2 us Lus). destruct Nus as [-> ->]. reflexivity.
  - intros word E. rewrite (G1 word E). split; [|split].
    + destruct (isupper word); [exact Uus|]. destruct (starts_upper word); assumption.
    + intros ->. reflexivity.
    + intros -> ->. reflexivity.
  - intros word E. rewrite (G2 word E). split; [|split].
    + destruct (isupper word); [exact Uuk|]. destruct (starts_upper word); assumption.
    + intros ->. reflexivity.
    + intros -> ->. reflexivity.
  - vm_compute. reflexivity.
  - vm_compute. reflexivity.
Qed.

Lemma spelling_round_trip_witness :
  In ("color", "colour") (items SPELLING_US_TO_UK) /\
  get_spelling_for_variant "colour" "US" = "color" /\
  get_spelling_for_variant "color" "UK" = "colour".
Proof.
  assert (H : In ("color", "colour") (items SPELLING_US_TO_UK)).
  { vm_compute. left. reflexivity. }
  split; [exact H|].
  destruct (spelling_round_trip "color" "colour" H) as (A & B & _).
  split; [exact A|exact B].
Defined.

(** C3, as stated, fails: "fulfilled" is a key of the forward table (it
    is spelled alike on both sides) and so a key of the reverse table. *)
Lemma spelling_tables_share_a_key :
  ~ (forall w, dict_in w SPELLING_US_TO_UK = true -> dict_in w SPELLING_UK_TO_US = false).
Proof.
  intros H. specialize (H "fulfilled" eq_refl). vm_compute in H. discriminate.
Qed.

Lemma shared_keys_checked :
  forallb (fun kv => negb (dict_in (fst kv) SPELLING_UK_TO_US) || (fst kv =? "fulfilled"))
    (items SPELLING_US_TO_UK) = true.
Proof. vm_compute. reflexivity. Qed.

Lemma reverse_checked :
  forallb (fun kv => existsb (fun vk => (fst vk =? snd kv) && (snd vk =? fst kv))
                       (items SPELLING_UK_TO_US))
    (items SPELLING_US_TO_UK) = true.
Proof. vm_compute. reflexivity. Qed.

(** C3, amended. For every (a, b) of the forward table, (b, a) is in the
    reverse table; the one word that is a key of both tables is
    "fulfilled", which each of them maps to itself. *)
Theorem spelling_tables_symmetric :
  (forall a b, In (a, b) (items SPELLING_US_TO_UK) -> In (b, a) (items SPELLING_UK_TO_US)) /\
  (forall w, dict_in w SPELLING_US_TO_UK = true -> dict_in w SPELLING_UK_TO_US = true ->
             w = "fulfilled") /\
  dict_get SPELLING_US_TO_UK "fulfilled" = Some "fulfilled" /\
  dict_get SPELLING_UK_TO_US "fulfilled" = Some "fulfilled".
Proof.
  split; [|split; [|split]].
  - intros a b H. pose proof reverse_checked as T. rewrite forallb_forall in T.
    specialize (T _ H). apply existsb_exists in T. destruct T as ([b' a'] & Hin & E).
    cbn [fst snd] in E. apply andb_prop in E. destruct E as [E1 E2].
    apply String.eqb_eq in E1, E2. subst b' a'. exact Hin.
  - intros w Hf Hr. apply dict_in_getitem in Hf. destruct Hf as (v & _ & Hin).
    pose proof shared_keys_checked as T. rewrite forallb_forall in T.
    specialize (T _ Hin). cbn [fst snd] in T. rewrite Hr in T.
    cbn [negb orb] in T. apply String.eqb_eq in T. exact T.
  - vm_compute. reflexivity.
  - vm_compute. reflexivity.
Qed.

Lemma spelling_tables_symmetric_witness :
  In ("gray", "grey") (items SPELLING_US_TO_UK) /\
  In ("grey", "gray") (items SPELLING_UK_TO_US).
Proof.
  assert (H : In ("gray", "grey") (items SPELLING_US_TO_UK)).
  { apply dict_get_In. vm_compute. reflexivity. }
  split; [exact H|].
  exact (proj1 spelling_tables_symmetric "gray" "grey" H).
Defined.

(** C4, as stated, fails: the converted sentence does not start with a
    small "i". *)
Lemma scenario_sentence_not_lowercased :
  convert_sentence_spelling "I realized my favorite color is gray." "UK"
  <> "i realised my favourite colour is grey.".
Proof. vm_compute. discriminate. Qed.

(** C4, amended. [convert_sentence_spelling] applied to
    "I realized my favorite color is gray." with "UK" returns
    "I realised my favourite colour is grey.": each word is converted and
    gets its capitals back, so the upper-case "I" stays "I". *)
Theorem scenario_sentence_uk :
  convert_sentence_spelling "I realized my favorite color is gray." "UK"
  = "I realised my favourite colour is grey.".
Proof. vm_compute. reflexivity. Qed.

(** ** Running effectful code *)

Lemma quiet_refl w : quiet w w.
Proof. reflexivity. Qed.

Lemma quiet_trans w1 w2 w3 : quiet w1 w2 -> quiet w2 w3 -> quiet w1 w3.
Proof. unfold quiet. congruence. Qed.

Lemma logs_quiet P w w' : quiet w w' -> logs P w w'.
Proof. intros H. exists []. split; [exact H|constructor]. Qed.

Lemma logs_trans P w1 w2 w3 : logs P w1 w2 -> logs P w2 w3 -> logs P w1 w3.
Proof.
  intros (n1 & E1 & F1) (n2 & E2 & F2). exists (n2 ++ n1). split.
  - rewrite E2, E1. apply app_assoc.
  - apply Forall_app. split; assumption.
Qed.

Lemma runs_ret {A} (a : A) w (post : A -> world -> Prop) :
  post a w -> runs (ret a) w post.
Proof. intros H. exists a, w. split; [reflexivity|exact H]. Qed.

Lemma runs_bind {A B} (m : M A) (k : A -> M B) w mid post :
  runs m w mid ->
  (forall a w1, mid a w1 -> runs (k a) w1 post) ->
  runs (bind m k) w post.
Proof.
  intros (a & w1 & E & Hmid) Hk.
  destruct (Hk a w1 Hmid) as (b & w2 & E2 & Hpost).
  exists b, w2. split; [|exact Hpost].
  unfold bind. rewrite E. exact E2.
Qed.

Lemma runs_weaken {A} (m : M A) w (post post' : A -> world -> Prop) :
  runs m w post -> (forall a w', post a w' -> post' a w') -> runs m w post'.
Proof. intros (a & w' & E & H) Himp. exists a, w'. split; [exact E|auto]. Qed.

Lemma runs_lift {A} (r : result A) (a : A) w (post : A -> world -> Prop) :
  r = Ok a -> post a w -> runs (lift r) w post.
Proof. intros -> H. exists a, w. split; [reflexivity|exact H]. Qed.

Lemma runs_lift_quiet {A} (r : result A) (a : A) w :
  r = Ok a -> runs (lift r) w (fun x w' => x = a /\ quiet w w').
Proof. intros ->. exists a, w. repeat split. Qed.

Lemma bind_eq {A B} (m : M A) (k : A -> M B) w a w1 :
  m w = Ok (a, w1) -> bind m k w = k a w1.
Proof. intros E. unfold bind. now rewrite E. Qed.

(** *** The random module *)

Lemma runs_draw w : runs draw w (fun _ w' => quiet w w').
Proof. eexists _, _. split; reflexivity. Qed.

(* a draw of random() is below 1.0 and not below 0.0 *)
Lemma runs_random w :
  runs random.random w
    (fun r w' => quiet w w' /\ Qltb r (1 # 1) = true /\ Qltb r (0 # 1) = false).
Proof.
  unfold random.random. eapply runs_bind; [apply runs_draw|].
  intros n w1 Hq. apply runs_ret. split; [exact Hq|].
  assert (B : (0 <= Z.of_N (n mod 9007199254740992) < 9007199254740992)%Z).
  { assert (H : (n mod 9007199254740992 < 9007199254740992)%N) by (apply N.mod_lt; discriminate).
    revert H. generalize (n mod 9007199254740992)%N. intros m H. lia. }
  unfold Qltb. split.
  - destruct (Qle_bool _ _) eqn:E; [|reflexivity].
    apply Qle_bool_iff in E. unfold Qle in E. cbn [Qnum Qden] in E. lia.
  - apply (f_equal negb (y := true)). apply Qle_bool_iff. unfold Qle. cbn [Qnum Qden]. lia.
Qed.

Lemma runs_randbelow n w :
  n <> 0 -> runs (randbelow n) w (fun k w' => quiet w w' /\ k < n).
Proof.
  intros Hn. unfold randbelow.
  destruct (Nat.eqb_spec n 0) as [|_]; [contradiction|].
  eapply runs_bind; [apply runs_draw|].
  intros k w1 Hq. apply runs_ret. split; [exact Hq|].
  assert (H : (k mod N.of_nat n < N.of_nat n)%N) by (apply N.mod_lt; lia).
  revert H. generalize (k mod N.of_nat n)%N. intros m H. lia.
Qed.

Lemma runs_randint a b w :
  a <= b -> runs (randint a b) w (fun k w' => quiet w w' /\ a <= k <= b).
Proof.
  intros Hab. unfold randint.
  destruct (Nat.ltb_spec b a) as [|_]; [lia|].
  eapply runs_bind; [apply runs_randbelow; lia|].
  intros k w1 (Hq & Hk). apply runs_ret. split; [exact Hq|lia].
Qed.

Lemma list_getitem_ok {A} (xs : list A) i :
  i < length xs -> exists x, list_getitem xs i = Ok x /\ In x xs.
Proof.
  intros H. unfold list_getitem.
  destruct (nth_error xs i) as [x|] eqn:E.
  - exists x. split; [reflexivity|]. eapply nth_error_In, E.
  - apply nth_error_None in E. lia.
Qed.

Lemma list_setitem_ok {A} (xs : list A) i v :
  i < length xs -> exists ys, list_setitem xs i v = Ok ys /\ length ys = length xs.
Proof.
  revert i. induction xs as [|x r IH]; intros i H; simpl in H; [lia|].
  destruct i as [|i]; simpl.
  - eexists. split; reflexivity.
  - destruct (IH i) as (ys & E & L); [lia|]. rewrite E. simpl.
    eexists. split; [reflexivity|]. simpl. now rewrite L.
Qed.

Lemma runs_choice {A} (seq : list A) w :
  seq <> [] -> runs (choice seq) w (fun x w' => quiet w w' /\ In x seq).
Proof.
  intros Hne. unfold choice. destruct seq as [|x0 r]; [contradiction|].
  eapply runs_bind; [apply runs_randbelow; discriminate|].
  intros i w1 (Hq & Hi).
  destruct (list_getitem_ok (x0 :: r) i Hi) as (x & E & Hin).
  eapply runs_lift; [exact E|]. split; assumption.
Qed.

Lemma bisect_le a x hi : bisect a x hi <= hi.
Proof.
  revert hi. induction a as [|y r IH]; intros [|hi]; simpl; try lia.
  destruct (Qle_bool y x); [|lia]. specialize (IH hi). lia.
Qed.

Lemma runs_choices {A} (population : list A) weights w :
  weights_fit (length population) weights = true ->
  runs (choices population weights) w (fun x w' => quiet w w' /\ In x population).
Proof.
  unfold weights_fit, choices. intros H. apply andb_prop in H. destruct H as [HL HT].
  rewrite HL. cbn [negb].
  destruct (rev (accumulate weights)) as [|total rest] eqn:R; [discriminate|].
  destruct (Qle_bool total (0 # 1)); [discriminate|].
  eapply runs_bind; [apply runs_random|].
  intros r w1 (Hq & _).
  assert (Hpos : 0 < length population).
  { apply Nat.eqb_eq in HL. rewrite <- HL, <- length_rev, R. simpl. lia. }
  pose proof (bisect_le (accumulate weights) (Qmult r total) (length population - 1)).
  destruct (list_getitem_ok population
              (bisect (accumulate weights) (Qmult r total) (length population - 1)))
    as (x & E & Hin); [lia|].
  eapply runs_lift; [exact E|]. split; assumption.
Qed.

(** *** corrupt_word_mobile always returns *)

Lemma chars_length s : length (chars s) = String.length s.
Proof. induction s as [|c r IH]; simpl; [reflexivity|now rewrite IH]. Qed.

Lemma str_getitem_ok s i :
  i < String.length s -> exists c, str_getitem s i = Ok c.
Proof.
  unfold str_getitem. revert i. induction s as [|c r IH]; intros i H; simpl in H; [lia|].
  destruct i as [|i]; simpl; [eexists; reflexivity|]. apply IH. lia.
Qed.

Lemma adjacency_lists_nonempty :
  forallb (fun kv => nonempty (snd kv)) MOBILE_ADJACENT_KEYS = true.
Proof. vm_compute. reflexivity. Qed.

Lemma thumb_lists_nonempty :
  forallb (fun kv => nonempty (snd kv)) THUMB_TYPING_ERRORS = true.
Proof. vm_compute. reflexivity. Qed.

Lemma table_entry_nonempty (d : dict (list string)) k :
  forallb (fun kv => nonempty (snd kv)) d = true ->
  dict_in k d = true ->
  exists l, getitem d k = Ok l /\ l <> [].
Proof.
  intros T H. destruct (dict_in_getitem d k H) as (l & E & Hin).
  exists l. split; [exact E|].
  rewrite forallb_forall in T. specialize (T _ Hin). cbn [snd] in T.
  intros ->. discriminate.
Qed.

Lemma error_weights_fit :
  weights_fit (length (keys ERROR_WEIGHTS)) (values ERROR_WEIGHTS) = true.
Proof. vm_compute. reflexivity. Qed.

Lemma spacebar_weights_fit :
  weights_fit (length (keys SPACEBAR_ERRORS)) (values SPACEBAR_ERRORS) = true.
Proof. vm_compute. reflexivity. Qed.

Ltac run_with lem :=
  eapply runs_bind; [eapply lem|]; cbv beta.

Lemma runs_apply_adjacent_error char w :
  runs (apply_adjacent_error char) w (fun _ w' => quiet w w').
Proof.
  unfold apply_adjacent_error.
  destruct (dict_in (lower char) MOBILE_ADJACENT_KEYS) eqn:E.
  - destruct (table_entry_nonempty _ _ adjacency_lists_nonempty E) as (l & G & Hne).
    eapply runs_bind; [apply runs_lift_quiet; exact G|].
    intros l' w1 (-> & Hq1). cbv beta.
    eapply runs_bind; [apply runs_choice; exact Hne|].
    intros adjacent w2 (Hq2 & _). apply runs_ret.
    eapply quiet_trans; eassumption.
  - apply runs_ret. apply quiet_refl.
Qed.

Lemma runs_apply_insertion word pos w :
  runs (apply_insertion word pos) w (fun _ w' => quiet w w').
Proof.
  unfold apply_insertion.
  destruct (Nat.leb_spec (String.length word) pos) as [|Hlt].
  - apply runs_ret. apply quiet_refl.
  - destruct (str_getitem_ok word pos Hlt) as (c & E).
    eapply runs_bind; [apply runs_lift_quiet; exact E|].
    intros c' w1 (-> & Hq1). cbv beta.
    run_with runs_random. intros r w2 (Hq2 & _).
    destruct (Qltb r (6 # 10)).
    + apply runs_ret. eapply quiet_trans; eassumption.
    + run_with runs_apply_adjacent_error. intros a w3 Hq3.
      apply runs_ret. unfold quiet in *. congruence.
Qed.

Lemma apply_transposition_ok word pos :
  exists s, apply_transposition word pos = Ok s.
Proof.
  unfold apply_transposition.
  destruct (Nat.leb_spec (String.length word - 1) pos) as [|Hlt]; [eexists; reflexivity|].
  pose proof (chars_length word) as L.
  destruct (list_getitem_ok (chars word) (pos + 1)) as (a & -> & _); [lia|].
  destruct (list_getitem_ok (chars word) pos) as (b & -> & _); [lia|].
  cbn [rbind].
  destruct (list_setitem_ok (chars word) pos a) as (l1 & -> & L1); [lia|].
  cbn [rbind].
  destruct (list_setitem_ok l1 (pos + 1) b) as (l2 & -> & L2); [lia|].
  cbn [rbind]. eexists; reflexivity.
Qed.

Lemma runs_apply_error error_type word pos w :
  pos < String.length word ->
  runs (apply_error error_type word pos) w (fun _ w' => quiet w w').
Proof.
  intros Hpos. unfold apply_error.
  pose proof (chars_length word) as L.
  destruct (error_type =? "adjacent").
  { destruct (list_getitem_ok (chars word) pos) as (c & E & _); [lia|].
    eapply runs_bind; [apply runs_lift_quiet; exact E|].
    intros c0 w1 (-> & Hq1). cbv beta.
    run_with runs_apply_adjacent_error. intros c' w2 Hq2.
    destruct (list_setitem_ok (chars word) pos c') as (l & E' & _); [lia|].
    eapply runs_bind; [apply runs_lift_quiet; exact E'|].
    intros l' w3 (-> & Hq3). apply runs_ret. unfold quiet in *. congruence. }
  destruct (error_type =? "omission").
  { apply runs_ret. apply quiet_refl. }
  destruct (error_type =? "insertion").
  { apply runs_apply_insertion. }
  destruct (error_type =? "transposition").
  { destruct (apply_transposition_ok word pos) as (s & E).
    eapply runs_weaken; [apply runs_lift_quiet; exact E|]. intros ? ? (_ & Hq). exact Hq. }
  destruct (error_type =? "substitution").
  { eapply runs_bind; [apply runs_choice; discriminate|].
    intros c w1 (Hq1 & _). cbv beta.
    destruct (list_setitem_ok (chars word) pos c) as (l & E' & _); [lia|].
    eapply runs_bind; [apply runs_lift_quiet; exact E'|].
    intros l' w2 (-> & Hq2). apply runs_ret. unfold quiet in *. congruence. }
  destruct (error_type =? "case_error").
  { destruct (list_getitem_ok (chars word) pos) as (c & E & _); [lia|].
    eapply runs_bind; [apply runs_lift_quiet; exact E|].
    intros c0 w1 (-> & Hq1). cbv beta.
    destruct (list_setitem_ok (chars word) pos (swapcase c)) as (l & E' & _); [lia|].
    eapply runs_bind; [apply runs_lift_quiet; exact E'|].
    intros l' w2 (-> & Hq2). apply runs_ret. unfold quiet in *. congruence. }
  apply runs_ret. apply quiet_refl.
Qed.

Lemma runs_thumb_gate word_lower w :
  runs (thumb_gate word_lower) w
    (fun hit w' => quiet w w' /\
                   (hit = true -> dict_in word_lower THUMB_TYPING_ERRORS = true)).
Proof.
  unfold thumb_gate. destruct (dict_in word_lower THUMB_TYPING_ERRORS).
  - run_with runs_random. intros r w1 (Hq & _). apply runs_ret. split; [exact Hq|reflexivity].
  - apply runs_ret. split; [apply quiet_refl|discriminate].
Qed.

Lemma runs_thumb_typo word word_lower w :
  0 < String.length word ->
  dict_in word_lower THUMB_TYPING_ERRORS = true ->
  runs (thumb_typo word word_lower) w (fun _ w' => quiet w w').
Proof.
  intros Hlen Hin. unfold thumb_typo.
  destruct (table_entry_nonempty _ _ thumb_lists_nonempty Hin) as (l & G & Hne).
  eapply runs_bind; [apply runs_lift_quiet; exact G|].
  intros l' w1 (-> & Hq1). cbv beta.
  eapply runs_bind; [apply runs_choice; exact Hne|].
  intros typo w2 (Hq2 & _). cbv beta.
  destruct (str_getitem_ok word 0 Hlen) as (c & E).
  eapply runs_bind; [apply runs_lift_quiet; exact E|].
  intros c' w3 (-> & Hq3). apply runs_ret. unfold quiet in *. congruence.
Qed.

(* every call returns, and logs exactly its own argument *)
Lemma runs_corrupt_word_mobile word w :
  runs (corrupt_word_mobile word) w (fun _ w' => calls w' = word :: calls w).
Proof.
  unfold corrupt_word_mobile.
  eapply runs_bind with (mid := fun _ w1 => calls w1 = word :: calls w).
  { eexists _, _. split; reflexivity. }
  intros ? w1 Hc.
  destruct (Nat.leb_spec (String.length word) 1) as [|Hlen].
  { apply runs_ret. exact Hc. }
  run_with runs_thumb_gate. intros hit w2 (Hq2 & Hhit).
  destruct hit.
  - eapply runs_weaken; [apply runs_thumb_typo; [lia|auto]|].
    intros ? w3 Hq3. unfold quiet in *. congruence.
  - eapply runs_bind; [apply runs_choices, error_weights_fit|].
    intros error_type w3 (Hq3 & _). cbv beta.
    eapply runs_bind; [apply runs_randint; lia|].
    intros pos w4 (Hq4 & Hpos). cbv beta.
    eapply runs_weaken; [apply runs_apply_error; lia|].
    intros ? w5 Hq5. unfold quiet in *. congruence.
Qed.

(** ** The word-level space_error draw *)

Lemma apply_error_space_error word pos :
  apply_error "space_error" word pos = ret word.
Proof. reflexivity. Qed.

(** C9. A word of length at least 2 that does not take the thumb-typo
    path (the gate [word_lower in THUMB_TYPING_ERRORS and random() < 0.3]
    is false) and for which the weighted draw over ERROR_WEIGHTS selects
    "space_error" is returned unchanged by [corrupt_word_mobile]. *)
Theorem space_error_returns_word :
  forall word w w1 w2,
    2 <= String.length word ->
    (note_call word ;;; thumb_gate (lower word))%eff w = Ok (false, w1) ->
    choices (keys ERROR_WEIGHTS) (values ERROR_WEIGHTS) w1 = Ok ("space_error", w2) ->
    exists w3, corrupt_word_mobile word w = Ok (word, w3).
Proof.
  intros word w w1 w2 Hlen Hgate Hdraw.
  destruct (runs_randint 0 (String.length word - 1) w2) as (pos & w3 & Epos & _); [lia|].
  exists w3. unfold corrupt_word_mobile.
  unfold bind at 1. unfold bind at 1 in Hgate.
  destruct (note_call word w) as [[[] w0]|e]; [|discriminate].
  destruct (Nat.leb_spec (String.length word) 1) as [|_]; [lia|].
  rewrite (bind_eq _ _ _ _ _ Hgate). cbv iota.
  rewrite (bind_eq _ _ _ _ _ Hdraw).
  rewrite (bind_eq _ _ _ _ _ Epos).
  rewrite apply_error_space_error. reflexivity.
Qed.

Lemma space_error_returns_word_witness :
  exists w3,
    corrupt_word_mobile "queue" (start [8286623314361713; 3]%N) = Ok ("queue", w3).
Proof.
  apply (space_error_returns_word "queue" (start [8286623314361713; 3]%N)
           {| tape := tape (start [8286623314361713; 3]%N); cursor := 0;
              calls := ["queue"] |}
           {| tape := tape (start [8286623314361713; 3]%N); cursor := 1;
              calls := ["queue"] |}).
  - simpl. lia.
  - vm_compute. reflexivity.
  - vm_compute. reflexivity.
Defined.

(** ** Strings and tokens *)

Lemma append_assoc (a b c : string) : ((a ++ b) ++ c = a ++ (b ++ c))%string.
Proof. induction a as [|x a IH]; simpl; [reflexivity|now rewrite IH]. Qed.

Lemma append_nil_r (a : string) : (a ++ EmptyString)%string = a.
Proof. induction a as [|x a IH]; simpl; [reflexivity|now rewrite IH]. Qed.

Lemma init_last s c : last_chr s = Some c -> (init s ++ chr c)%string = s.
Proof.
  induction s as [|x r IH]; simpl; [discriminate|].
  destruct r as [|y r'].
  - intros [= ->]. reflexivity.
  - intros H. simpl. f_equal. apply IH. exact H.
Qed.


Lemma peel_prefix_joins s : forall acc p c,
  peel_prefix acc s = (p, c) -> (p ++ c)%string = (acc ++ s)%string.
Proof.
  induction s as [|x r IH]; intros acc p c; simpl.
  - intros [= <- <-]. reflexivity.
  - destruct (negb (chr_isalnum x)).
    + intros H. rewrite (IH _ _ _ H). apply append_assoc.
    + intros [= <- <-]. reflexivity.
Qed.

Lemma peel_suffix_loop_joins n : forall core suffix c s,
  peel_suffix_loop n core suffix = (c, s) -> (c ++ s)%string = (core ++ suffix)%string.
Proof.
  induction n as [|n IH]; intros core suffix c s; simpl.
  - intros [= <- <-]. reflexivity.
  - destruct (last_chr core) as [x|] eqn:L.
    + destruct (negb (chr_isalnum x)).
      * intros H. rewrite (IH _ _ _ _ H).
        rewrite <- (init_last core x L) at 2. now rewrite append_assoc.
      * intros [= <- <-]. reflexivity.
    + intros [= <- <-]. reflexivity.
Qed.


(* a token is reassembled from its three parts *)
Lemma peel_joins token prefix core suffix :
  peel token = (prefix, core, suffix) -> (prefix ++ core ++ suffix)%string = token.
Proof.
  unfold peel. destruct (peel_prefix EmptyString token) as [p c] eqn:P.
  destruct (peel_suffix c) as [c' s] eqn:S. intros [= <- <- <-].
  unfold peel_suffix in S. apply peel_suffix_loop_joins in S.
  apply peel_prefix_joins in P. rewrite S, append_nil_r. exact P.
Qed.

Lemma starts_with_append t b : starts_with t (t ++ b) = true.
Proof.
  induction t as [|c t IH]; simpl; [reflexivity|].
  now rewrite Ascii.eqb_refl, IH.
Qed.

Lemma occurs_in_occursb t s : occurs_in t s -> occursb t s = true.
Proof.
  intros (a & b & ->). induction a as [|c a IH].
  - simpl. pose proof (starts_with_append t b) as H.
    destruct (t ++ b)%string; simpl; [exact H|]. simpl in H. now rewrite H.
  - simpl. rewrite IH. apply orb_true_r.
Qed.

Lemma kept_app_l t rw extra : kept t rw -> kept t (rw ++ extra).
Proof. intros (r & rest & Hin & E). exists r, rest. split; [apply in_or_app; now left|exact E]. Qed.

Lemma kept_last t rw : kept t (rw ++ [t]).
Proof.
  exists t, EmptyString. split; [apply in_or_app; right; now left|].
  symmetry. apply append_nil_r.
Qed.

Lemma kept_extend_last t rw s : kept t rw -> kept t (extend_last rw s).
Proof.
  intros (r & rest & Hin & E). unfold extend_last.
  destruct rw as [|x0 rw0]; [contradiction|].
  destruct (@exists_last _ (x0 :: rw0)) as (front & l & EQ); [discriminate|].
  rewrite EQ in *. rewrite removelast_last, last_last.
  apply in_app_or in Hin. destruct Hin as [Hin|[Hl|[]]]; [|subst l].
  - exists r, rest. split; [apply in_or_app; now left|exact E].
  - exists (r ++ s)%string, (rest ++ s)%string.
    split; [apply in_or_app; right; now left|].
    rewrite E. apply append_assoc.
Qed.

Lemma in_join_occurs sep r rw : In r rw -> occurs_in r (join sep rw).
Proof.
  unfold join. induction rw as [|x xs IH]; [contradiction|].
  intros [->|Hin].
  - destruct xs as [|y ys].
    + exists EmptyString, EmptyString. simpl. symmetry. apply append_nil_r.
    + exists EmptyString, (sep ++ String.concat sep (y :: ys))%string. reflexivity.
  - destruct (IH Hin) as (a & b & E).
    destruct xs as [|y ys]; [contradiction|].
    exists (x ++ sep ++ a)%string, b.
    change (String.concat sep (x :: y :: ys))
      with (x ++ sep ++ String.concat sep (y :: ys))%string.
    rewrite E. now rewrite !append_assoc.
Qed.

Lemma kept_occurs sep t rw : kept t rw -> occurs_in t (join sep rw).
Proof.
  intros (r & rest & Hin & ->).
  destruct (in_join_occurs sep _ _ Hin) as (a & b & E).
  exists a, (rest ++ b)%string. rewrite E. now rewrite !append_assoc.
Qed.

(** ** The sentence pipeline *)

Lemma protected_word_is_kept_out core variant_ :
  is_protected_word core variant_ = true -> should_protect_word core variant_ = true.
Proof.
  intros H. unfold should_protect_word. rewrite H.
  destruct (dict_in _ PRESERVED_ABBREVIATIONS); [reflexivity|].
  destruct (contains _ PROTECTED_PROPER_NOUNS); reflexivity.
Qed.

Lemma runs_spacebar_error result_words token w :
  runs (spacebar_error result_words token) w
    (fun rw' w' => quiet w w' /\ forall t, kept t result_words -> kept t rw').
Proof.
  unfold spacebar_error.
  eapply runs_bind; [apply runs_choices, spacebar_weights_fit|].
  intros space_error w1 (Hq & _). cbv beta.
  destruct (space_error =? "no_space").
  { destruct result_words as [|x0 rw0]; apply runs_ret; (split; [exact Hq|]); intros t Ht.
    - now apply kept_app_l.
    - now apply kept_extend_last. }
  destruct (space_error =? "double_space").
  { apply runs_ret. split; [exact Hq|]. intros t Ht. now apply kept_app_l, kept_app_l. }
  destruct (contains space_error ["space_to_b"; "space_to_n"; "space_to_v"]) eqn:C.
  { apply contains_In in C.
    assert (L : exists c, last_chr space_error = Some c).
    { destruct C as [<-|[<-|[<-|[]]]]; eexists; reflexivity. }
    destruct L as (c & ->). apply runs_ret. split; [exact Hq|].
    intros t Ht. now apply kept_app_l, kept_app_l. }
  apply runs_ret. split; [exact Hq|]. intros t Ht. now apply kept_app_l.
Qed.

(* one round of the loop: what it logs is unprotected, what was kept
   stays kept, and a protected token is kept as it stands *)
Lemma runs_corrupt_token error_rate variant_ i word result_words w :
  runs (corrupt_token error_rate variant_ i word result_words) w
    (fun rw' w' =>
       logs (fun arg => should_protect_word arg variant_ = false) w w' /\
       (forall t, kept t result_words -> kept t rw') /\
       (should_protect_word (core_of word) variant_ = true -> kept word rw')).
Proof.
  unfold corrupt_token, core_of.
  destruct (peel word) as [[prefix core] suffix] eqn:P. cbn [fst snd].
  destruct (should_protect_word core variant_) eqn:S.
  - apply runs_ret. split; [apply logs_quiet, quiet_refl|]. split.
    + intros t Ht. now apply kept_app_l.
    + intros _. rewrite (peel_joins _ _ _ _ P). apply kept_last.
  - eapply runs_bind with
      (mid := fun _ w1 => logs (fun arg => should_protect_word arg variant_ = false) w w1).
    { destruct (truthy core); [|apply runs_ret, logs_quiet, quiet_refl].
      run_with runs_random. intros r w1 (Hq1 & _).
      destruct (Qltb r error_rate).
      - eapply runs_weaken; [apply runs_corrupt_word_mobile|].
        intros ? w2 Hc. exists [core]. split.
        + rewrite Hc, Hq1. reflexivity.
        + constructor; [exact S|constructor].
      - apply runs_ret, logs_quiet, Hq1. }
    intros core' w1 Hl1. cbv beta.
    eapply runs_bind with (mid := fun _ w2 => quiet w1 w2).
    { destruct (Nat.ltb 0 i); [|apply runs_ret, quiet_refl].
      run_with runs_random. intros r w2 (Hq2 & _). apply runs_ret. exact Hq2. }
    intros hit w2 Hq2. cbv beta.
    assert (Hl2 : logs (fun arg => should_protect_word arg variant_ = false) w w2).
    { eapply logs_trans; [exact Hl1|apply logs_quiet, Hq2]. }
    destruct hit.
    + eapply runs_weaken; [apply runs_spacebar_error|].
      intros rw' w3 (Hq3 & Hk). split; [|split].
      * eapply logs_trans; [exact Hl2|apply logs_quiet, Hq3].
      * exact Hk.
      * discriminate.
    + apply runs_ret. split; [exact Hl2|]. split.
      * intros t Ht. now apply kept_app_l.
      * discriminate.
Qed.

Lemma runs_corrupt_words error_rate variant_ words : forall i result_words w,
  runs (corrupt_words error_rate variant_ i words result_words) w
    (fun rw' w' =>
       logs (fun arg => should_protect_word arg variant_ = false) w w' /\
       (forall t, kept t result_words -> kept t rw') /\
       (forall t, In t words -> should_protect_word (core_of t) variant_ = true ->
                  kept t rw')).
Proof.
  induction words as [|word rest IH]; intros i result_words w; simpl.
  - apply runs_ret. split; [apply logs_quiet, quiet_refl|]. split; [auto|contradiction].
  - run_with runs_corrupt_token. intros rw1 w1 (Hl1 & Hk1 & Hp1).
    eapply runs_weaken; [apply IH|]. cbv beta.
    intros rw2 w2 (Hl2 & Hk2 & Hp2). split; [|split].
    + eapply logs_trans; eassumption.
    + auto.
    + intros t [<-|Hin] Hprot; auto.
Qed.

Lemma runs_postprocess result w :
  runs (postprocess result) w
    (fun out w' => quiet w w' /\
                   exists b0 b1 b2 b3, out = sentence_pass b0 b1 b2 b3 result).
Proof.
  unfold postprocess.
  eapply runs_bind with
    (mid := fun s w1 => quiet w w1 /\
                        exists b0, s = sentence_pass b0 false false false result).
  { destruct (truthy result).
    - run_with runs_random. intros r w1 (Hq1 & _). apply runs_ret.
      split; [exact Hq1|]. exists (Qltb r (15 # 100)). now destruct (Qltb r (15 # 100)).
    - apply runs_ret. split; [apply quiet_refl|]. now exists false. }
  intros s w1 (Hq1 & b0 & ->). cbv beta.
  run_with runs_random. intros r1 w2 (Hq2 & _).
  run_with runs_random. intros r2 w3 (Hq3 & _).
  run_with runs_random. intros r3 w4 (Hq4 & _).
  apply runs_ret. split; [unfold quiet in *; congruence|].
  exists b0, (Qltb r1 (1 # 10)), (Qltb r2 (5 # 100)), (Qltb r3 (5 # 100)).
  destruct b0; reflexivity.
Qed.

(* corrupt_text_mobile always returns, and every call of
   corrupt_word_mobile it makes is on an unprotected word *)
Lemma runs_corrupt_text_mobile text error_rate variant_ w :
  runs (corrupt_text_mobile text error_rate variant_) w
    (fun _ w' => logs (fun arg => should_protect_word arg variant_ = false) w w').
Proof.
  unfold corrupt_text_mobile.
  run_with runs_corrupt_words. intros rw w1 (Hl & _).
  eapply runs_weaken; [apply runs_postprocess|].
  intros ? w2 (Hq & _). eapply logs_trans; [exact Hl|apply logs_quiet, Hq].
Qed.

(** C1, as stated, fails: with "SG" active the protected token "Wah" is
    passed through the word loop, and then the first letter of the
    sentence is lower-cased. *)
Lemma protected_token_altered :
  In "Wah" (split "Wah") /\
  is_protected_word (core_of "Wah") (Some "SG") = true /\
  exists w',
    corrupt_text_mobile "Wah" (1 # 1) (Some "SG") (start []) = Ok ("wah", w') /\
    ~ occurs_in "Wah" "wah".
Proof.
  split; [now left|]. split; [vm_compute; reflexivity|].
  eexists. split; [vm_compute; reflexivity|].
  intros H. apply occurs_in_occursb in H. vm_compute in H. discriminate.
Qed.

(** C1, amended. For every sentence, every variant and every outcome of
    the draws, [corrupt_text_mobile] at error rate 1.0 returns; no call
    of [corrupt_word_mobile] it makes is on a word whose stripped
    lower-case form is in the variant's protected set; and every token
    with such a core stands byte-identical in the sentence joined from
    the word loop.  The output is that sentence after the sentence-level
    pass ([sentence_pass]: first letter lower-cased, commas, periods and
    apostrophes deleted, each according to its own draw). *)
Theorem protected_tokens_pass_through :
  forall text variant_ w,
  exists result_words w1 out w2,
    corrupt_words (1 # 1) variant_ 0 (split text) [] w = Ok (result_words, w1) /\
    postprocess (join " " result_words) w1 = Ok (out, w2) /\
    corrupt_text_mobile text (1 # 1) variant_ w = Ok (out, w2) /\
    (exists b0 b1 b2 b3, out = sentence_pass b0 b1 b2 b3 (join " " result_words)) /\
    (exists new, calls w2 = new ++ calls w /\
                 Forall (fun arg => is_protected_word arg variant_ = false) new) /\
    (forall token, In token (split text) ->
                   is_protected_word (core_of token) variant_ = true ->
                   occurs_in token (join " " result_words)).
Proof.
  intros text variant_ w.
  destruct (runs_corrupt_words (1 # 1) variant_ (split text) 0 [] w)
    as (rw & w1 & E1 & Hl & _ & Hp).
  destruct (runs_postprocess (join " " rw) w1) as (out & w2 & E2 & Hq & Hpass).
  exists rw, w1, out, w2. split; [exact E1|]. split; [exact E2|].
  split; [|split; [exact Hpass|split]].
  - unfold corrupt_text_mobile. rewrite (bind_eq _ _ _ _ _ E1). exact E2.
  - destruct Hl as (new & Ec & F). exists new. split; [now rewrite Hq|].
    eapply Forall_impl; [|exact F]. cbv beta. intros arg Harg.
    destruct (is_protected_word arg variant_) eqn:I; [|reflexivity].
    apply protected_word_is_kept_out in I. congruence.
  - intros token Hin Hprot. apply kept_occurs, Hp; [exact Hin|].
    now apply protected_word_is_kept_out.
Qed.

Lemma protected_tokens_pass_through_witness :
  In "lah!" (split "ok lah!") /\
  is_protected_word (core_of "lah!") (Some "SG") = true /\
  exists result_words w1,
    corrupt_words (1 # 1) (Some "SG") 0 (split "ok lah!") [] (start []) = Ok (result_words, w1) /\
    occurs_in "lah!" (join " " result_words).
Proof.
  assert (H1 : In "lah!" (split "ok lah!")) by (vm_compute; auto).
  assert (H2 : is_protected_word (core_of "lah!") (Some "SG") = true)
    by (vm_compute; reflexivity).
  split; [exact H1|]. split; [exact H2|].
  destruct (protected_tokens_pass_through "ok lah!" (Some "SG") (start []))
    as (rw & w1 & out & w2 & E1 & _ & _ & _ & _ & Hocc).
  exists rw, w1. split; [exact E1|]. apply Hocc; assumption.
Defined.

(** ** Protected spans *)

Lemma fold_merge_step rest : forall front cur,
  fold_left merge_step rest (front ++ [cur]) = front ++ merge_from cur rest.
Proof.
  induction rest as [|[start end_] rest IH]; intros front cur; [reflexivity|].
  cbn [fold_left merge_from]. unfold merge_step at 2.
  rewrite last_last, removelast_last.
  destruct (Nat.leb start (snd cur)).
  - apply IH.
  - rewrite <- app_assoc. change ([cur] ++ [(start, end_)]) with ([cur; (start, end_)]).
    change (front ++ [cur; (start, end_)]) with (front ++ [cur] ++ [(start, end_)]).
    rewrite app_assoc, IH, <- app_assoc. reflexivity.
Qed.

Lemma sort_insert_In x y l : In y (sort_insert x l) <-> y = x \/ In y l.
Proof.
  induction l as [|z l IH]; simpl; [intuition auto|].
  destruct (span_leb x z); simpl; [intuition auto|]. rewrite IH. intuition auto.
Qed.

Lemma sort_In y l : In y (sort l) <-> In y l.
Proof.
  induction l as [|x l IH]; simpl; [reflexivity|].
  rewrite sort_insert_In, IH. intuition auto.
Qed.

Lemma span_leb_true a b : span_leb a b = true -> by_start a b.
Proof.
  unfold span_leb, by_start. intros H. apply orb_prop in H. destruct H as [H|H].
  - apply Nat.ltb_lt in H. lia.
  - apply andb_prop in H. destruct H as [H _]. apply Nat.eqb_eq in H. lia.
Qed.

Lemma span_leb_false a b : span_leb a b = false -> by_start b a.
Proof.
  unfold span_leb, by_start. intros H. apply orb_false_elim in H. destruct H as [H _].
  apply Nat.ltb_ge in H. exact H.
Qed.

Lemma sort_insert_sorted x l :
  StronglySorted by_start l -> StronglySorted by_start (sort_insert x l).
Proof.
  induction 1 as [|y l Hs IH Hy]; simpl.
  - constructor; constructor.
  - destruct (span_leb x y) eqn:E.
    + constructor; [now constructor|].
      apply span_leb_true in E. constructor; [exact E|].
      eapply Forall_impl; [|exact Hy]. unfold by_start in *. intros; lia.
    + constructor; [exact IH|].
      apply Forall_forall. intros z Hz. apply sort_insert_In in Hz.
      destruct Hz as [->|Hz]; [now apply span_leb_false|].
      rewrite Forall_forall in Hy. now apply Hy.
Qed.

Lemma sort_sorted l : StronglySorted by_start (sort l).
Proof.
  induction l as [|x l IH]; simpl; [constructor|now apply sort_insert_sorted].
Qed.

Lemma merge_from_starts lo rest : forall cur,
  lo <= fst cur -> Forall (fun s => lo <= fst s) rest ->
  Forall (fun s => lo <= fst s) (merge_from cur rest).
Proof.
  induction rest as [|[start end_] rest IH]; intros cur Hc Hr; simpl.
  - now constructor.
  - inversion Hr as [|? ? H1 H2]; subst. destruct (Nat.leb start (snd cur)).
    + apply IH; [exact Hc|exact H2].
    + constructor; [exact Hc|]. apply IH; [exact H1|exact H2].
Qed.

Lemma merge_from_by_start rest : forall cur,
  Forall (by_start cur) rest -> StronglySorted by_start rest ->
  StronglySorted by_start (merge_from cur rest).
Proof.
  induction rest as [|[start end_] rest IH]; intros cur Hc Hs; simpl.
  - constructor; constructor.
  - inversion Hc as [|? ? C1 C2]; subst. inversion Hs as [|? ? S1 S2]; subst.
    destruct (Nat.leb start (snd cur)).
    + apply IH; [exact C2|exact S1].
    + constructor; [apply IH; assumption|].
      apply (merge_from_starts (fst cur)); [exact C1|exact C2].
Qed.

Lemma merge_from_apart rest : forall cur,
  Forall (by_start cur) rest -> StronglySorted by_start rest ->
  StronglySorted apart (merge_from cur rest).
Proof.
  induction rest as [|[start end_] rest IH]; intros cur Hc Hs; simpl.
  - constructor; constructor.
  - inversion Hc as [|? ? C1 C2]; subst. inversion Hs as [|? ? S1 S2]; subst.
    destruct (Nat.leb_spec start (snd cur)) as [Hle|Hgt].
    + apply IH; [exact C2|exact S1].
    + constructor; [apply IH; assumption|].
      apply (merge_from_starts (S (snd cur))); [exact Hgt|].
      eapply Forall_impl; [|exact S2]. unfold by_start. cbn [fst]. intros; lia.
Qed.

Lemma merge_from_covers pos rest : forall cur,
  Forall (by_start cur) rest -> StronglySorted by_start rest ->
  Exists (inside pos) (cur :: rest) ->
  Exists (inside pos) (merge_from cur rest).
Proof.
  induction rest as [|[start end_] rest IH]; intros cur Hc Hs Hex; simpl; [exact Hex|].
  inversion Hc as [|? ? C1 C2]; subst. inversion Hs as [|? ? S1 S2]; subst.
  unfold by_start in C1. cbn [fst] in C1.
  destruct (Nat.leb_spec start (snd cur)) as [Hle|Hgt].
  - apply IH; [exact C2|exact S1|].
    inversion Hex as [? ? H|? ? H]; subst.
    + left. unfold inside in *. cbn [fst snd]. lia.
    + inversion H as [? ? H'|? ? H']; subst.
      * left. unfold inside in *. cbn [fst snd] in *. lia.
      * now right.
  - inversion Hex as [? ? H|? ? H]; subst; [now left|].
    right. apply IH; [exact S2|exact S1|exact H].
Qed.

Section PatternFacts.

Variable pattern : Type.
Variable PROTECTED_PATTERNS : list pattern.
Variable finditer : pattern -> string -> list span.

Local Abbreviation spans_of := (find_protected_spans pattern PROTECTED_PATTERNS finditer).

Lemma find_protected_spans_merge text :
  spans_of text =
    match sort (collect_spans pattern PROTECTED_PATTERNS finditer text) with
    | [] => []
    | first :: rest => merge_from first rest
    end.
Proof.
  unfold find_protected_spans.
  destruct (sort _) as [|first rest]; [reflexivity|].
  apply (fold_merge_step rest [] first).
Qed.

Lemma protected_spans_shape text :
  StronglySorted by_start (spans_of text) /\
  StronglySorted apart (spans_of text) /\
  (forall p s pos, In p PROTECTED_PATTERNS -> In s (finditer p text) ->
                   inside pos s -> Exists (inside pos) (spans_of text)).
Proof.
  rewrite find_protected_spans_merge.
  pose proof (sort_sorted (collect_spans pattern PROTECTED_PATTERNS finditer text)) as Hs.
  assert (Hin : forall s, In s (collect_spans pattern PROTECTED_PATTERNS finditer text) ->
                          In s (sort (collect_spans pattern PROTECTED_PATTERNS finditer text))).
  { intros s. apply sort_In. }
  destruct (sort _) as [|first rest].
  - split; [constructor|]. split; [constructor|].
    intros p s pos Hp Hm _. exfalso. apply (Hin s).
    unfold collect_spans. apply in_flat_map. now exists p.
  - inversion Hs as [|? ? S1 S2]; subst.
    split; [now apply merge_from_by_start|].
    split; [now apply merge_from_apart|].
    intros p s pos Hp Hm Hpos. apply merge_from_covers; [exact S2|exact S1|].
    apply Exists_exists. exists s. split; [|exact Hpos].
    apply Hin. unfold collect_spans. apply in_flat_map. now exists p.
Qed.

(** C5. For every text, [find_protected_spans] returns spans in the
    order of their start offsets, each starting strictly after the end
    of every earlier one (so disjoint and not adjacent); every offset
    inside a match of a protection pattern is inside a returned span;
    and the list depends on the text alone. *)
Theorem protected_spans_merged :
  forall text,
    StronglySorted by_start (spans_of text) /\
    StronglySorted apart (spans_of text) /\
    (forall p s pos, In p PROTECTED_PATTERNS -> In s (finditer p text) ->
                     inside pos s -> Exists (inside pos) (spans_of text)) /\
    (forall text', text' = text -> spans_of text' = spans_of text).
Proof.
  intros text. destruct (protected_spans_shape text) as (H1 & H2 & H3).
  split; [exact H1|]. split; [exact H2|]. split; [exact H3|].
  intros text' ->. reflexivity.
Qed.

End PatternFacts.

Lemma protected_spans_merged_witness :
  Exists (inside 4)
    (find_protected_spans nat [0; 1]
       (fun p _ => if Nat.eqb p 0 then [(3, 5); (9, 12)] else [(0, 2); (4, 9); (20, 21)])
       "x").
Proof.
  apply (proj1 (proj2 (proj2 (protected_spans_merged nat [0; 1] _ "x"))) 1 (4, 9) 4).
  - simpl. auto.
  - simpl. auto.
  - unfold inside. simpl. lia.
Defined.

(** ** The variant registry *)

Lemma us_config :
  exists us, getitem VARIANT_CONFIG "US" = Ok us /\
             get_default VARIANT_CONFIG "US" us = us /\
             spelling us = "US" /\ protected us = [].
Proof. eexists. repeat split; vm_compute; reflexivity. Qed.

Lemma regional_keys_are_variants :
  forallb (fun k => dict_in k VARIANT_CONFIG) (keys REGIONAL_SENTENCES) = true.
Proof. vm_compute. reflexivity. Qed.

Lemma unknown_variant_has_no_regional code :
  dict_in code VARIANT_CONFIG = false -> dict_in code REGIONAL_SENTENCES = false.
Proof.
  intros H. destruct (dict_in code REGIONAL_SENTENCES) eqn:E; [|reflexivity].
  rewrite dict_in_keys in E. apply contains_In in E.
  pose proof regional_keys_are_variants as T. rewrite forallb_forall in T.
  specialize (T _ E). congruence.
Qed.

Lemma get_sample_sentences_unknown code include_regional include_short :
  dict_in code VARIANT_CONFIG = false ->
  get_sample_sentences code include_regional include_short
  = Ok (fallback_sentences include_short).
Proof.
  intros H. destruct us_config as (us & E & _ & Es & _).
  unfold get_sample_sentences. rewrite E. cbn [rbind].
  rewrite (get_default_missing _ _ _ H), Es.
  rewrite (unknown_variant_has_no_regional _ H), andb_false_r.
  reflexivity.
Qed.

Lemma get_sample_sentences_us_plain include_short :
  get_sample_sentences "US" false include_short = Ok (fallback_sentences include_short).
Proof.
  destruct us_config as (us & E & Ed & Es & _).
  unfold get_sample_sentences. rewrite E. cbn [rbind]. rewrite Ed, Es. reflexivity.
Qed.

Lemma get_sample_sentences_ok variant_ include_regional include_short :
  exists l, get_sample_sentences variant_ include_regional include_short = Ok l.
Proof.
  destruct us_config as (us & E & _).
  unfold get_sample_sentences. rewrite E. cbn [rbind].
  destruct (include_regional && dict_in variant_ REGIONAL_SENTENCES) eqn:C.
  - apply andb_prop in C. destruct C as [_ C].
    destruct (dict_in_getitem _ _ C) as (r & -> & _). cbn [rbind]. eexists; reflexivity.
  - cbn [rbind]. eexists; reflexivity.
Qed.

Lemma set_of_nonempty l : l <> [] -> set_of l <> [].
Proof. destruct l; [contradiction|discriminate]. Qed.

(* the pool generate_dataset draws from exists and is not empty *)
Lemma sentence_pool_ok variant_ :
  exists pool, sentence_pool variant_ = Ok pool /\ pool <> [].
Proof.
  destruct us_config as (us & E & _).
  destruct (get_sample_sentences_ok variant_ true true) as (l & El).
  unfold sentence_pool. rewrite El. cbn [rbind]. rewrite E. cbn [rbind].
  eexists. split; [reflexivity|].
  apply set_of_nonempty. intros H. apply app_eq_nil in H. destruct H as [_ H].
  apply map_eq_nil in H. discriminate.
Qed.

(** ** The dataset builder *)

Lemma rates_fit variable_error_rate error_rate :
  weights_fit (length (error_rates_of variable_error_rate error_rate))
    (error_weights_of variable_error_rate) = true.
Proof. destruct variable_error_rate; reflexivity. Qed.

(* the retry loop returns; it stops early only on a fresh string that
   differs from the clean sentence *)
Lemma runs_retry_loop left clean rate variant_ generated : forall corrupted attempts w,
  runs (retry_loop left clean rate variant_ generated corrupted attempts) w
    (fun ca _ =>
       attempts <= snd ca <= attempts + left /\
       (fst ca = clean \/ In (fst ca) generated -> snd ca = attempts + left)).
Proof.
  induction left as [|left IH]; intros corrupted attempts w; simpl.
  - apply runs_ret. cbn [fst snd]. split; [lia|]. intros _. lia.
  - destruct ((corrupted =? clean) || contains corrupted generated) eqn:C.
    + run_with runs_corrupt_text_mobile. intros c' w1 _.
      eapply runs_weaken; [apply IH|]. cbv beta. intros ca _ (Hb & Hc).
      split; [lia|]. intros H. specialize (Hc H). lia.
    + apply runs_ret. cbn [fst snd]. split; [lia|].
      apply orb_false_elim in C. destruct C as [C1 C2].
      apply String.eqb_neq in C1. intros [H|H]; [contradiction|].
      apply contains_In in H. congruence.
Qed.

Lemma runs_variant_iteration variable_error_rate error_rate variant_ clean
    generated dataset w :
  runs (variant_iteration (error_rates_of variable_error_rate error_rate)
          (error_weights_of variable_error_rate) variant_ clean (generated, dataset)) w
    (fun st _ =>
       exists c k,
         k <= 5 /\ (c = clean \/ In c generated -> k = 5) /\
         st = if contains c generated then (generated, dataset)
              else (generated ++ [c],
                    dataset ++ [mk_sample c clean variant_
                                  (if negb (c =? clean) then "corrupted" else "none")])).
Proof.
  unfold variant_iteration.
  eapply runs_bind; [apply runs_choices, rates_fit|].
  intros rate w1 _. cbv beta.
  run_with runs_corrupt_text_mobile. intros c0 w2 _.
  run_with runs_retry_loop. intros [c k] w3 (Hb & Hc). cbn [fst snd] in *.
  destruct (contains c generated) eqn:C; cbn [negb]; apply runs_ret;
    exists c, k; (split; [lia|]); (split; [intros H; specialize (Hc H); lia|]);
    rewrite C; reflexivity.
Qed.

Lemma runs_variants_loop variable_error_rate error_rate variant_ clean dataset n :
  forall emitted w,
    NoDup (map input emitted) ->
    Forall (labelled clean variant_) emitted ->
    runs (variants_loop n (error_rates_of variable_error_rate error_rate)
            (error_weights_of variable_error_rate) variant_ clean
            (map input emitted, dataset ++ emitted)) w
      (fun st _ =>
         exists emitted',
           snd st = dataset ++ emitted' /\
           length emitted' <= length emitted + n /\
           NoDup (map input emitted') /\
           Forall (labelled clean variant_) emitted').
Proof.
  induction n as [|n IH]; intros emitted w Hnd Hl; simpl.
  - apply runs_ret. exists emitted. cbn [snd]. repeat split; [lia|assumption|assumption].
  - run_with runs_variant_iteration. intros st w1 (c & k & _ & _ & ->).
    destruct (contains c (map input emitted)) eqn:C.
    + eapply runs_weaken; [apply IH; assumption|]. cbv beta.
      intros st _ (e' & E & L & N & F). exists e'. repeat split; [exact E|lia|exact N|exact F].
    + set (rec := mk_sample c clean variant_
                    (if negb (c =? clean) then "corrupted" else "none")).
      replace (map input emitted ++ [c]) with (map input (emitted ++ [rec]))
        by (rewrite map_app; reflexivity).
      rewrite <- app_assoc.
      eapply runs_weaken; [apply IH|].
      * rewrite map_app. cbn [map input rec].
        apply NoDup_app; [exact Hnd|repeat constructor; intros []|].
        intros x Hx [<-|[]]. apply contains_In in Hx. congruence.
      * apply Forall_app. split; [exact Hl|]. constructor; [|constructor].
        unfold labelled, rec. cbn [input output variant typo_type].
        split; [reflexivity|]. split; [reflexivity|].
        destruct (String.eqb_spec c clean) as [->|Hne]; cbn [negb]; [left|right]; now split.
      * cbv beta. intros st ? (e' & E & L & N & F). exists e'.
        rewrite length_app in L. simpl in L. repeat split; [exact E|lia|exact N|exact F].
Qed.

Lemma runs_sample_iteration variable_error_rate error_rate variant_ all_sentences
    clean_sample_ratio variants_per_sample dataset w :
  all_sentences <> [] ->
  runs (sample_iteration all_sentences (error_rates_of variable_error_rate error_rate)
          (error_weights_of variable_error_rate) variant_ clean_sample_ratio
          variants_per_sample dataset) w
    (fun dataset' _ =>
       exists g, dataset' = dataset ++ g /\
                 draw_group clean_sample_ratio variants_per_sample all_sentences variant_ g).
Proof.
  intros Hne. unfold sample_iteration.
  eapply runs_bind; [apply runs_choice; exact Hne|].
  intros clean w1 (_ & Hin). cbv beta.
  run_with runs_random. intros r w2 (_ & H1 & H0).
  destruct (Qltb r clean_sample_ratio) eqn:C.
  - apply runs_ret. eexists. split; [reflexivity|].
    exists clean, r. repeat split; try assumption. left. now split.
  - pose proof (runs_variants_loop variable_error_rate error_rate variant_ clean dataset
                  (Z.to_nat variants_per_sample) [] w2 (NoDup_nil _) (Forall_nil _)) as R.
    cbn [map] in R. rewrite app_nil_r in R.
    eapply runs_bind; [exact R|].
    cbv beta. intros st w3 (g & E & L & N & F). apply runs_ret.
    exists g. split; [exact E|]. exists clean, r. repeat split; try assumption.
    right. simpl in L. repeat split; assumption.
Qed.

Lemma runs_samples_loop variable_error_rate error_rate variant_ all_sentences
    clean_sample_ratio variants_per_sample n :
  all_sentences <> [] ->
  forall dataset w,
    runs (samples_loop n all_sentences (error_rates_of variable_error_rate error_rate)
            (error_weights_of variable_error_rate) variant_ clean_sample_ratio
            variants_per_sample dataset) w
      (fun dataset' _ =>
         exists groups,
           dataset' = dataset ++ concat groups /\ length groups = n /\
           Forall (draw_group clean_sample_ratio variants_per_sample
                     all_sentences variant_) groups).
Proof.
  intros Hne. induction n as [|n IH]; intros dataset w; simpl.
  - apply runs_ret. exists []. simpl. rewrite app_nil_r. repeat split. constructor.
  - eapply runs_bind; [apply runs_sample_iteration; exact Hne|].
    cbv beta. intros ds1 w1 (g & -> & Hg).
    eapply runs_weaken; [apply IH|]. cbv beta.
    intros ds2 _ (groups & -> & L & F). exists (g :: groups).
    simpl. rewrite app_assoc. repeat split; [now rewrite L|]. now constructor.
Qed.

(* generate_dataset always returns; its records come in one group per
   round of the loop over range(num_samples) *)
Lemma runs_generate_dataset num_samples error_rate variant_ clean_sample_ratio
    variable_error_rate variants_per_sample w :
  runs (generate_dataset num_samples error_rate variant_ clean_sample_ratio
          variable_error_rate variants_per_sample) w
    (fun dataset _ =>
       exists all_sentences groups,
         sentence_pool variant_ = Ok all_sentences /\
         dataset = concat groups /\ length groups = Z.to_nat num_samples /\
         Forall (draw_group clean_sample_ratio variants_per_sample
                   all_sentences variant_) groups).
Proof.
  unfold generate_dataset.
  destruct (sentence_pool_ok variant_) as (pool & E & Hne).
  eapply runs_bind; [apply runs_lift_quiet; exact E|].
  intros pool' w1 (-> & _). cbv beta.
  eapply runs_weaken; [apply runs_samples_loop; exact Hne|]. cbv beta.
  intros ds _ (groups & -> & L & F). exists pool, groups. repeat split; assumption.
Qed.

(* one round of the loop over range(variants_per_sample), step by step:
   [k] is the value of [attempts] when the retry loop is left *)
Lemma variant_iteration_steps variable_error_rate error_rate variant_ clean
    generated dataset w :
  exists rate w0 c0 w1 c k w',
    choices (error_rates_of variable_error_rate error_rate)
      (error_weights_of variable_error_rate) w = Ok (rate, w0) /\
    corrupt_text_mobile clean rate (Some variant_) w0 = Ok (c0, w1) /\
    retry_loop 5 clean rate variant_ generated c0 0 w1 = Ok ((c, k), w') /\
    k <= 5 /\
    (c = clean \/ In c generated -> k = 5) /\
    variant_iteration (error_rates_of variable_error_rate error_rate)
      (error_weights_of variable_error_rate) variant_ clean (generated, dataset) w
    = Ok (if contains c generated then (generated, dataset)
          else (generated ++ [c],
                dataset ++ [mk_sample c clean variant_
                              (if negb (c =? clean) then "corrupted" else "none")]),
          w').
Proof.
  destruct (runs_choices (error_rates_of variable_error_rate error_rate)
              (error_weights_of variable_error_rate) w (rates_fit _ _))
    as (rate & w0 & E0 & _).
  destruct (runs_corrupt_text_mobile clean rate (Some variant_) w0) as (c0 & w1 & E1 & _).
  destruct (runs_retry_loop 5 clean rate variant_ generated c0 0 w1)
    as ([c k] & w' & E2 & Hb & Hc).
  cbn [fst snd] in *.
  exists rate, w0, c0, w1, c, k, w'.
  split; [exact E0|]. split; [exact E1|]. split; [exact E2|].
  split; [lia|]. split; [intros H; specialize (Hc H); lia|].
  unfold variant_iteration.
  rewrite (bind_eq _ _ _ _ _ E0), (bind_eq _ _ _ _ _ E1), (bind_eq _ _ _ _ _ E2).
  cbn [fst]. destruct (contains c generated); reflexivity.
Qed.

(** C6. With clean_sample_ratio 0.0 and variants_per_sample 3, every
    round of the loop over range(num_samples) appends at most 3 records;
    their inputs are pairwise distinct, their output is the clean
    sentence drawn, and one whose input is the clean sentence is labelled
    "none".  [generate_dataset] returns the records of its rounds, one
    group per round.  In every round of the loop over the variants the
    retry loop is left with a string that is new and differs from the
    clean sentence, unless its counter has reached the cap of 5; that
    string is the input of the record the round emits. *)
Theorem three_variants_per_draw :
  forall num_samples error_rate variant_ variable_error_rate,
  exists all_sentences,
    sentence_pool variant_ = Ok all_sentences /\
    (forall dataset w,
     exists g w' clean,
       sample_iteration all_sentences (error_rates_of variable_error_rate error_rate)
         (error_weights_of variable_error_rate) variant_ (0 # 1) 3 dataset w
       = Ok (dataset ++ g, w') /\
       In clean all_sentences /\
       length g <= 3 /\ NoDup (map input g) /\
       Forall (fun r => output r = clean /\
                        (input r = clean -> typo_type r = "none")) g) /\
    (forall w,
     exists groups w',
       generate_dataset num_samples error_rate variant_ (0 # 1)
         variable_error_rate 3 w = Ok (concat groups, w') /\
       length groups = Z.to_nat num_samples /\
       Forall (fun g =>
                 length g <= 3 /\ NoDup (map input g) /\
                 exists clean,
                   Forall (fun r => output r = clean /\
                                    (input r = clean -> typo_type r = "none")) g)
         groups) /\
    (forall clean generated dataset w,
     exists rate w0 c0 w1 c k w',
       choices (error_rates_of variable_error_rate error_rate)
         (error_weights_of variable_error_rate) w = Ok (rate, w0) /\
       corrupt_text_mobile clean rate (Some variant_) w0 = Ok (c0, w1) /\
       retry_loop 5 clean rate variant_ generated c0 0 w1 = Ok ((c, k), w') /\
       k <= 5 /\
       (c = clean \/ In c generated -> k = 5) /\
       variant_iteration (error_rates_of variable_error_rate error_rate)
         (error_weights_of variable_error_rate) variant_ clean (generated, dataset) w
       = Ok (if contains c generated then (generated, dataset)
             else (generated ++ [c],
                   dataset ++ [mk_sample c clean variant_
                                 (if negb (c =? clean) then "corrupted" else "none")]),
             w')).
Proof.
  intros num_samples error_rate variant_ variable_error_rate.
  destruct (sentence_pool_ok variant_) as (pool & Epool & Hne).
  assert (G : forall g,
            draw_group (0 # 1) 3 pool variant_ g ->
            exists clean,
              In clean pool /\ length g <= 3 /\ NoDup (map input g) /\
              Forall (fun r => output r = clean /\
                               (input r = clean -> typo_type r = "none")) g).
  { intros g (clean & r & Hin & _ & H0 & [[C _]|(_ & Hlen & Hnd & Hl)]); [congruence|].
    exists clean. split; [exact Hin|]. split; [exact Hlen|]. split; [exact Hnd|].
    eapply Forall_impl; [|exact Hl]. cbv beta.
    intros x (Ho & _ & [[_ Ht]|[Hdiff _]]); split; auto; intros; contradiction. }
  exists pool. split; [exact Epool|]. split; [|split].
  - intros dataset w.
    destruct (runs_sample_iteration variable_error_rate error_rate variant_ pool
                (0 # 1) 3 dataset w Hne) as (ds & w' & E & g & -> & Hg).
    destruct (G g Hg) as (clean & Hin & Hlen & Hnd & Hl).
    exists g, w', clean. repeat split; assumption.
  - intros w.
    destruct (runs_generate_dataset num_samples error_rate variant_ (0 # 1)
                variable_error_rate 3 w)
      as (ds & w' & E & pool' & groups & Epool' & -> & L & F).
    assert (pool' = pool) by congruence. subst pool'.
    exists groups, w'. split; [exact E|]. split; [exact L|].
    eapply Forall_impl; [|exact F]. cbv beta. intros g Hg.
    destruct (G g Hg) as (clean & _ & Hlen & Hnd & Hl).
    split; [exact Hlen|]. split; [exact Hnd|]. now exists clean.
  - intros clean generated dataset w. apply variant_iteration_steps.
Qed.

(** C8. With clean_sample_ratio 1.0, whatever the draws, every round of
    the loop over range(num_samples) appends exactly one record, with
    input and output the clean sentence drawn and typo_type "none";
    [generate_dataset] returns one record per round, and every record has
    its input equal to its output and typo_type "none". *)
Theorem clean_ratio_one_all_clean :
  forall num_samples error_rate variant_ variable_error_rate variants_per_sample,
  exists all_sentences,
    sentence_pool variant_ = Ok all_sentences /\
    (forall dataset w,
     exists clean w',
       In clean all_sentences /\
       sample_iteration all_sentences (error_rates_of variable_error_rate error_rate)
         (error_weights_of variable_error_rate) variant_ (1 # 1)
         variants_per_sample dataset w
       = Ok (dataset ++ [mk_sample clean clean variant_ "none"], w')) /\
    (forall w,
     exists dataset w',
       generate_dataset num_samples error_rate variant_ (1 # 1)
         variable_error_rate variants_per_sample w = Ok (dataset, w') /\
       length dataset = Z.to_nat num_samples /\
       Forall (fun r => input r = output r /\ typo_type r = "none") dataset).
Proof.
  intros num_samples error_rate variant_ variable_error_rate variants_per_sample.
  destruct (sentence_pool_ok variant_) as (pool & Epool & Hne).
  assert (G : forall g,
            draw_group (1 # 1) variants_per_sample pool variant_ g ->
            exists clean, In clean pool /\ g = [mk_sample clean clean variant_ "none"]).
  { intros g (clean & r & Hin & H1 & _ & [[_ ->]|[C _]]); [now exists clean|congruence]. }
  exists pool. split; [exact Epool|]. split.
  - intros dataset w.
    destruct (runs_sample_iteration variable_error_rate error_rate variant_ pool
                (1 # 1) variants_per_sample dataset w Hne) as (ds & w' & E & g & -> & Hg).
    destruct (G g Hg) as (clean & Hin & ->).
    exists clean, w'. split; [exact Hin|exact E].
  - intros w.
    destruct (runs_generate_dataset num_samples error_rate variant_ (1 # 1)
                variable_error_rate variants_per_sample w)
      as (ds & w' & E & pool' & groups & Epool' & -> & L & F).
    assert (pool' = pool) by congruence. subst pool'.
    exists (concat groups), w'. split; [exact E|].
    rewrite <- L. clear E L.
    induction F as [|g groups Hg _ [IH1 IH2]]; simpl; [split; [reflexivity|constructor]|].
    destruct (G g Hg) as (clean & _ & ->). simpl. split; [now rewrite IH1|].
    constructor; [split; reflexivity|exact IH2].
Qed.

(** C10. For any parameters and any draws, [generate_dataset] returns,
    and every record it returns has typo_type "none" exactly when its
    input equals its output, and typo_type "corrupted" exactly when they
    differ; this covers the record emitted after the retries are used up
    with a corruption equal to the clean sentence. *)
Theorem typo_type_tells_difference :
  forall num_samples error_rate variant_ clean_sample_ratio variable_error_rate
         variants_per_sample w,
  exists dataset w',
    generate_dataset num_samples error_rate variant_ clean_sample_ratio
      variable_error_rate variants_per_sample w = Ok (dataset, w') /\
    Forall (fun r => (typo_type r = "none" <-> input r = output r) /\
                     (typo_type r = "corrupted" <-> input r <> output r)) dataset.
Proof.
  intros num_samples error_rate variant_ clean_sample_ratio variable_error_rate
         variants_per_sample w.
  destruct (runs_generate_dataset num_samples error_rate variant_ clean_sample_ratio
              variable_error_rate variants_per_sample w)
    as (ds & w' & E & pool & groups & _ & -> & _ & F).
  exists (concat groups), w'. split; [exact E|].
  clear E. induction F as [|g groups Hg _ IH]; simpl; [constructor|].
  apply Forall_app. split; [|exact IH].
  destruct Hg as (clean & r & _ & _ & _ & [[_ ->]|(_ & _ & _ & Hl)]).
  - constructor; [|constructor]. cbn [input output typo_type].
    split; split; try reflexivity; try discriminate. intros H. now elim H.
  - eapply Forall_impl; [|exact Hl]. cbv beta.
    intros x (Ho & _ & [[Hi Ht]|[Hi Ht]]); rewrite Ho, Ht.
    + split; split; try discriminate; auto. intros H. contradiction.
    + split; split; try discriminate; auto. intros H. contradiction.
Qed.

(** *** The retry cap is reached: a sentence made of protected words *)

Lemma lol_is_protected variant_ : should_protect_word "lol" variant_ = true.
Proof. reflexivity. Qed.

Lemma runs_corrupt_text_lol rate variant_ w :
  runs (corrupt_text_mobile "lol" rate variant_) w (fun out _ => out = "lol").
Proof.
  unfold corrupt_text_mobile. change (split "lol") with ["lol"].
  cbn [corrupt_words]. unfold corrupt_token.
  change (peel "lol") with (EmptyString, "lol", EmptyString).
  cbv iota beta. rewrite lol_is_protected.
  apply runs_bind with (mid := fun rw _ => rw = ["lol"]).
  - apply runs_bind with (mid := fun rw _ => rw = ["lol"]).
    + apply runs_ret. reflexivity.
    + intros rw w1 ->. apply runs_ret. reflexivity.
  - intros rw w1 ->.
    eapply runs_weaken; [apply runs_postprocess|]. cbv beta.
    intros out w2 (_ & b0 & b1 & b2 & b3 & ->).
    destruct b0, b1, b2, b3; reflexivity.
Qed.

Lemma runs_retry_loop_lol left rate variant_ generated : forall attempts w,
  runs (retry_loop left "lol" rate variant_ generated "lol" attempts) w
    (fun ca _ => fst ca = "lol").
Proof.
  induction left as [|left IH]; intros attempts w; simpl.
  - now apply runs_ret.
  - run_with runs_corrupt_text_lol. intros c w1 ->. apply IH.
Qed.

(* for the clean sentence "lol" every corruption comes back unchanged, the
   retries are used up, and the record is emitted with the label "none" *)
Example unchanged_sentence_is_emitted_as_none
    variable_error_rate error_rate variant_ dataset w :
  exists w',
    variant_iteration (error_rates_of variable_error_rate error_rate)
      (error_weights_of variable_error_rate) variant_ "lol" ([], dataset) w
    = Ok ((["lol"], dataset ++ [mk_sample "lol" "lol" variant_ "none"]), w').
Proof.
  destruct (variant_iteration_steps variable_error_rate error_rate variant_ "lol"
              [] dataset w)
    as (rate & w0 & c0 & w1 & c & k & w' & E0 & E1 & E2 & _ & _ & E).
  destruct (runs_corrupt_text_lol rate (Some variant_) w0) as (c0' & w1' & E1' & Hc0).
  rewrite E1 in E1'. injection E1' as H1 H2. subst c0' w1' c0.
  destruct (runs_retry_loop_lol 5 rate variant_ [] 0 w1) as ([c' k'] & w2 & E2' & Hc).
  rewrite E2 in E2'. injection E2' as H1 H2 H3. subst c' k' w2.
  cbn [fst] in Hc. subst c.
  exists w'. exact E.
Qed.

(** ** Unknown variant codes *)

(** C7, as stated, fails: with regional sentences asked for, an unknown
    code gets none, while "US" gets its own twenty. *)
Lemma unknown_code_differs_from_us :
  dict_in "XX" VARIANT_CONFIG = false /\
  get_sample_sentences "XX" true true <> get_sample_sentences "US" true true.
Proof.
  split; [vm_compute; reflexivity|].
  intros H.
  assert (L : forall a b : result (list string), a = b ->
              match a with Ok l => length l | Raise _ => 0 end
              = match b with Ok l => length l | Raise _ => 0 end) by (intros; now subst).
  apply L in H. vm_compute in H. discriminate.
Qed.

(** C7, amended. For a code absent from VARIANT_CONFIG no lookup raises
    and the spelling configuration of "US" is used:
    [get_sample_sentences] returns what it returns for "US" without the
    regional sentences (an unknown code has none, by the test
    [variant in REGIONAL_SENTENCES]); [get_protected_words] and
    [is_protected_word] are as for "US"; and [generate_dataset] draws
    from the US-spelled generic, short and base sentences and returns. *)
Theorem unknown_variant_falls_back :
  forall code,
    dict_in code VARIANT_CONFIG = false ->
    (forall include_regional include_short,
       get_sample_sentences code include_regional include_short
       = get_sample_sentences "US" false include_short /\
       exists l, get_sample_sentences code include_regional include_short = Ok l) /\
    get_protected_words (Some code) = get_protected_words (Some "US") /\
    (forall word, is_protected_word word (Some code) = is_protected_word word (Some "US")) /\
    sentence_pool code
    = Ok (set_of (fallback_sentences true ++
                  map (fun s => convert_sentence_spelling s "US")
                    generate_typos.SAMPLE_SENTENCES)) /\
    (forall num_samples error_rate clean_sample_ratio variable_error_rate
            variants_per_sample w,
     exists dataset w',
       generate_dataset num_samples error_rate code clean_sample_ratio
         variable_error_rate variants_per_sample w = Ok (dataset, w')).
Proof.
  intros code H.
  assert (P : get_protected_words (Some code) = get_protected_words (Some "US")).
  { unfold get_protected_words at 1.
    unfold dict_in in H. destruct (dict_get VARIANT_CONFIG code); [discriminate|].
    vm_compute. reflexivity. }
  split; [|split; [exact P|split; [|split]]].
  - intros include_regional include_short.
    rewrite (get_sample_sentences_unknown _ _ _ H), get_sample_sentences_us_plain.
    split; [reflexivity|eexists; reflexivity].
  - intros word. unfold is_protected_word. now rewrite P.
  - destruct us_config as (us & E & _ & Es & _).
    unfold sentence_pool. rewrite (get_sample_sentences_unknown _ _ _ H).
    cbn [rbind]. rewrite E. cbn [rbind].
    rewrite (get_default_missing _ _ _ H), Es. reflexivity.
  - intros num_samples error_rate clean_sample_ratio variable_error_rate
           variants_per_sample w.
    destruct (runs_generate_dataset num_samples error_rate code clean_sample_ratio
                variable_error_rate variants_per_sample w) as (ds & w' & E & _).
    now exists ds, w'.
Qed.

Lemma unknown_variant_falls_back_witness :
  dict_in "XX" VARIANT_CONFIG = false /\
  get_protected_words (Some "XX") = get_protected_words (Some "US").
Proof.
  assert (H : dict_in "XX" VARIANT_CONFIG = false) by (vm_compute; reflexivity).
  split; [exact H|].
  exact (proj1 (proj2 (unknown_variant_falls_back "XX" H))).
Defined.


(** * Further properties *)

(** ** Characters and case *)

Ltac ascii_cases c := destruct c as [[] [] [] [] [] [] [] []].









(** ** Protection of single words *)



Lemma set_of_In x l : In x (set_of l) <-> In x l.
Proof.
  induction l as [|a r IH]; simpl; [reflexivity|].
  rewrite filter_In, IH. split.
  - intros [H|[H _]]; auto.
  - intros [H|H]; [now left|].
    destruct (String.eqb_spec a x) as [E|N]; [now left|right].
    split; [exact H|reflexivity].
Qed.

Lemma union_In x a b : In x (union a b) <-> In x a \/ In x b.
Proof. unfold union. rewrite set_of_In. apply in_app_iff. Qed.

Lemma dict_get_values {V} (d : dict V) k v : dict_get d k = Some v -> In v (values d).
Proof.
  intros H. apply dict_get_In in H. unfold values.
  change v with (snd (k, v)). now apply in_map.
Qed.

(* the words protected under a variant are among those protected when no
   variant is given *)
Lemma protected_words_subsumed x variant_ :
  In x (get_protected_words (Some variant_)) -> In x (get_protected_words None).
Proof.
  unfold get_protected_words.
  destruct (dict_get VARIANT_CONFIG variant_) as [c|] eqn:E.
  - rewrite !union_In. intros [H|H]; [now right|left].
    unfold ALL_PROTECTED_WORDS. rewrite set_of_In. apply in_flat_map.
    exists c. split; [|exact H]. eapply dict_get_values, E.
  - rewrite union_In. now right.
Qed.

(** X2. Whatever is protected under some variant is protected when no
    variant is given: if [is_protected_word] (or [should_protect_word])
    holds for a word with a variant code, known or not, it holds for that
    word with variant None. *)
Theorem no_variant_protects_most :
  forall word variant_,
    (is_protected_word word (Some variant_) = true ->
     is_protected_word word None = true) /\
    (should_protect_word word (Some variant_) = true ->
     should_protect_word word None = true).
Proof.
  intros word variant_.
  assert (I : is_protected_word word (Some variant_) = true ->
              is_protected_word word None = true).
  { unfold is_protected_word. rewrite !contains_In. apply protected_words_subsumed. }
  split; [exact I|].
  unfold should_protect_word.
  destruct (dict_in _ PRESERVED_ABBREVIATIONS); [reflexivity|].
  destruct (contains _ PROTECTED_PROPER_NOUNS); [reflexivity|].
  destruct (is_protected_word word (Some variant_)) eqn:P.
  - intros _. now rewrite (I eq_refl).
  - intros H. destruct (is_protected_word word None); [reflexivity|exact H].
Qed.

Lemma no_variant_protects_most_witness :
  is_protected_word "Lah" (Some "SG") = true /\ is_protected_word "Lah" None = true.
Proof.
  assert (H : is_protected_word "Lah" (Some "SG") = true) by (vm_compute; reflexivity).
  split; [exact H|].
  exact (proj1 (no_variant_protects_most "Lah" "SG") H).
Defined.

(** ** Written numbers *)

Lemma str_rev_append a b : str_rev (a ++ b) = (str_rev b ++ str_rev a)%string.
Proof.
  induction a as [|c a IH]; simpl.
  - now rewrite append_nil_r.
  - now rewrite IH, append_assoc.
Qed.

Lemma str_rev_involutive s : str_rev (str_rev s) = s.
Proof.
  induction s as [|c r IH]; simpl; [reflexivity|].
  rewrite str_rev_append, IH. reflexivity.
Qed.

Lemma str_filter_append p a b :
  str_filter p (a ++ b) = (str_filter p a ++ str_filter p b)%string.
Proof.
  induction a as [|c a IH]; simpl; [reflexivity|].
  destruct (p c); simpl; now rewrite IH.
Qed.

Lemma str_filter_rev p s : str_filter p (str_rev s) = str_rev (str_filter p s).
Proof.
  induction s as [|c r IH]; simpl; [reflexivity|].
  rewrite str_filter_append, IH. simpl.
  destruct (p c); simpl; [reflexivity|apply append_nil_r].
Qed.

Lemma str_all_append p a b : str_all p (a ++ b) = str_all p a && str_all p b.
Proof.
  induction a as [|c a IH]; simpl; [reflexivity|].
  now rewrite IH, andb_assoc.
Qed.

Lemma str_all_rev p s : str_all p (str_rev s) = str_all p s.
Proof.
  induction s as [|c r IH]; simpl; [reflexivity|].
  rewrite str_all_append, IH. simpl. rewrite andb_true_r. apply andb_comm.
Qed.

Lemma lstrip_filter p chars_ s :
  (forall c, str_mem c chars_ = true -> p c = false) ->
  str_filter p (lstrip chars_ s) = str_filter p s.
Proof.
  intros H. induction s as [|c r IH]; simpl; [reflexivity|].
  destruct (str_mem c chars_) eqn:E; [|reflexivity].
  now rewrite IH, (H c E).
Qed.

Lemma lstrip_all p chars_ s :
  str_all p s = true -> str_all p (lstrip chars_ s) = true.
Proof.
  induction s as [|c r IH]; simpl; [reflexivity|].
  intros H. apply andb_prop in H. destruct H as [Hc Hr].
  destruct (str_mem c chars_); [now apply IH|]. simpl. now rewrite Hc, Hr.
Qed.

(* stripping loses none of the characters outside the stripped set *)
Lemma strip_filter p chars_ s :
  (forall c, str_mem c chars_ = true -> p c = false) ->
  str_filter p (strip chars_ s) = str_filter p s.
Proof.
  intros H. unfold strip, rstrip.
  rewrite str_filter_rev, (lstrip_filter _ _ _ H), str_filter_rev, str_rev_involutive.
  apply lstrip_filter, H.
Qed.

Lemma strip_all p chars_ s :
  str_all p s = true -> str_all p (strip chars_ s) = true.
Proof.
  intros H. unfold strip, rstrip.
  rewrite str_all_rev. apply lstrip_all. rewrite str_all_rev. now apply lstrip_all.
Qed.

Lemma digit_is_not_stripped c :
  str_mem c generate_typos.STRIP_CHARS = true -> chr_isdigit c = false.
Proof. ascii_cases c; vm_compute; intros H; try reflexivity; discriminate. Qed.

Lemma number_chr_lower c : number_chr c = true -> chr_lower c = c.
Proof. ascii_cases c; vm_compute; intros H; try reflexivity; discriminate. Qed.

Lemma number_lower s : str_all number_chr s = true -> lower s = s.
Proof.
  induction s as [|c r IH]; [reflexivity|].
  cbn [str_all]. intros H. apply andb_prop in H. destruct H as [Hc Hr].
  change (lower (String c r)) with (String (chr_lower c) (lower r)).
  now rewrite (number_chr_lower c Hc), (IH Hr).
Qed.

Lemma number_chr_cases c :
  number_chr c = true ->
  (chr_isdigit c = true /\ Ascii.eqb c "." = false /\ Ascii.eqb c "," = false) \/
  (chr_isdigit c = false /\ (Ascii.eqb c "." = true \/ Ascii.eqb c "," = true)).
Proof. ascii_cases c; vm_compute; intros H; try discriminate; auto. Qed.

(* deleting the periods and the commas of a written number leaves its digits *)
Lemma number_without_marks s :
  str_all number_chr s = true ->
  remove_chr "," (remove_chr "." s) = str_filter chr_isdigit s.
Proof.
  induction s as [|c r IH]; simpl; [reflexivity|].
  intros H. apply andb_prop in H. destruct H as [Hc Hr].
  destruct (number_chr_cases c Hc) as [(D & P & C)|(D & [P|C])]; rewrite D.
  - rewrite P. simpl. rewrite C. now rewrite (IH Hr).
  - rewrite P. now apply IH.
  - destruct (Ascii.eqb c "."); [now apply IH|]. simpl. rewrite C. now apply IH.
Qed.

Lemma isdigit_filter s : isdigit (str_filter chr_isdigit s) = str_any chr_isdigit s.
Proof.
  unfold isdigit. induction s as [|c r IH]; simpl; [reflexivity|].
  destruct (chr_isdigit c) eqn:D; simpl; [|exact IH].
  rewrite D. simpl.
  clear IH. induction r as [|d r IH]; simpl; [reflexivity|].
  destruct (chr_isdigit d) eqn:E; simpl; [now rewrite E|exact IH].
Qed.

Lemma filter_any p s : str_any p s = truthy (str_filter p s).
Proof.
  induction s as [|c r IH]; simpl; [reflexivity|].
  destruct (p c); simpl; [reflexivity|exact IH].
Qed.

(** X3. A word written with digits, periods and commas only, and with at
    least one digit ("42", "3.5", "1,000", "2."), is protected by
    [should_protect_word] under every variant. *)
Theorem written_numbers_are_protected :
  forall word variant_,
    number_like word = true -> should_protect_word word variant_ = true.
Proof.
  intros word variant_ H. unfold number_like in H.
  apply andb_prop in H. destruct H as [Hall Hany].
  unfold should_protect_word. rewrite (number_lower _ Hall).
  destruct (dict_in _ PRESERVED_ABBREVIATIONS); [reflexivity|].
  destruct (contains _ PROTECTED_PROPER_NOUNS); [reflexivity|].
  destruct (is_protected_word word variant_); [reflexivity|].
  rewrite number_without_marks by (now apply strip_all).
  rewrite isdigit_filter, filter_any.
  rewrite (strip_filter _ _ _ digit_is_not_stripped), <- filter_any, Hany.
  reflexivity.
Qed.

Lemma written_numbers_are_protected_witness :
  number_like "1,000.50" = true /\ should_protect_word "1,000.50" (Some "UK") = true.
Proof.
  assert (H : number_like "1,000.50" = true) by (vm_compute; reflexivity).
  split; [exact H|].
  exact (written_numbers_are_protected "1,000.50" (Some "UK") H).
Defined.

(** ** The character operators *)

Lemma append_length a b :
  String.length (a ++ b) = String.length a + String.length b.
Proof. induction a as [|c a IH]; simpl; [reflexivity|now rewrite IH]. Qed.

Lemma str_map_length f s : String.length (str_map f s) = String.length s.
Proof. induction s as [|c r IH]; simpl; [reflexivity|now rewrite IH]. Qed.

Lemma take_drop n s : (take n s ++ drop n s)%string = s.
Proof.
  revert s. induction n as [|n IH]; intros [|c r]; simpl; try reflexivity.
  now rewrite IH.
Qed.

Lemma take_length n s : n <= String.length s -> String.length (take n s) = n.
Proof.
  revert s. induction n as [|n IH]; intros [|c r]; simpl; intros H; try reflexivity; try lia.
  rewrite IH; [reflexivity|lia].
Qed.

Lemma take_exact a b : take (String.length a) (a ++ b) = a.
Proof. induction a as [|c a IH]; simpl; [now destruct b|now rewrite IH]. Qed.

Lemma drop_exact a b : drop (String.length a) (a ++ b) = b.
Proof. induction a as [|c a IH]; simpl; [reflexivity|exact IH]. Qed.

Lemma join_cons c l : join EmptyString (chr c :: l) = String c (join EmptyString l).
Proof. destruct l; reflexivity. Qed.

Lemma join_chars s : join EmptyString (chars s) = s.
Proof.
  induction s as [|c r IH]; [reflexivity|].
  change (chars (String c r)) with (chr c :: chars r). now rewrite join_cons, IH.
Qed.

Lemma chars_single s : Forall single (chars s).
Proof. induction s as [|c r IH]; simpl; constructor; [reflexivity|exact IH]. Qed.

Lemma join_single_length l :
  Forall single l -> String.length (join EmptyString l) = length l.
Proof.
  induction 1 as [|x l Hx Hl IH]; [reflexivity|].
  destruct x as [|c [|d x]]; try discriminate.
  change (String c EmptyString) with (chr c). rewrite join_cons. simpl. now rewrite IH.
Qed.

Lemma list_setitem_Forall {A} (P : A -> Prop) xs : forall i v ys,
  Forall P xs -> P v -> list_setitem xs i v = Ok ys -> Forall P ys.
Proof.
  induction xs as [|x r IH]; intros i v ys Hxs Hv; simpl; [discriminate|].
  inversion Hxs as [|? ? Hx Hr]; subst.
  destruct i as [|i].
  - intros [= <-]. now constructor.
  - destruct (list_setitem r i v) as [r'|] eqn:E; simpl; [|intros [=]].
    intros [= <-]. constructor; [exact Hx|]. exact (IH i v r' Hr Hv E).
Qed.

(* the four list steps of apply_transposition exchange two neighbours *)
Lemma transposition_steps {A} (l : list A) : forall pos,
  pos + 1 < length l ->
  (a <~ list_getitem l (pos + 1) ;;
   b <~ list_getitem l pos ;;
   l1 <~ list_setitem l pos a ;;
   l2 <~ list_setitem l1 (pos + 1) b ;;
   Ok l2)%result = Ok (swap_list pos l).
Proof.
  induction l as [|x r IH]; intros pos H; simpl in H; [lia|].
  destruct pos as [|pos].
  - destruct r as [|y r]; simpl in H; [lia|]. reflexivity.
  - assert (Hlt : pos + 1 < length r) by lia. specialize (IH pos Hlt).
    destruct (list_getitem_ok r (pos + 1) Hlt) as (a & Ea & _).
    destruct (list_getitem_ok r pos) as (b & Eb & _); [lia|].
    destruct (list_setitem_ok r pos a) as (l1 & E1 & L1); [lia|].
    destruct (list_setitem_ok l1 (pos + 1) b) as (l2 & E2 & _); [lia|].
    rewrite Ea, Eb in IH. cbn [rbind] in IH. rewrite E1 in IH. cbn [rbind] in IH.
    rewrite E2 in IH. cbn [rbind] in IH. injection IH as IH.
    change (list_getitem (x :: r) (S pos + 1)) with (list_getitem r (pos + 1)).
    change (list_getitem (x :: r) (S pos)) with (list_getitem r pos).
    rewrite Ea, Eb. cbn [rbind].
    change (list_setitem (x :: r) (S pos) a)
      with (rbind (list_setitem r pos a) (fun r' => Ok (x :: r'))).
    rewrite E1. cbn [rbind].
    change (list_setitem (x :: l1) (S pos + 1) b)
      with (rbind (list_setitem l1 (pos + 1) b) (fun r' => Ok (x :: r'))).
    rewrite E2. cbn [rbind]. cbn [swap_list]. now rewrite IH.
Qed.

Lemma swap_at_short pos : forall s, String.length s <= pos + 1 -> swap_at pos s = s.
Proof.
  induction pos as [|pos IH]; intros [|x r]; simpl; intros H; try reflexivity.
  - destruct r; [reflexivity|simpl in H; lia].
  - rewrite IH; [reflexivity|lia].
Qed.

Lemma swap_at_length pos : forall s, String.length (swap_at pos s) = String.length s.
Proof.
  induction pos as [|pos IH]; intros [|x r]; simpl; try reflexivity.
  - destruct r; reflexivity.
  - now rewrite IH.
Qed.

Lemma swap_at_twice pos : forall s, swap_at pos (swap_at pos s) = s.
Proof.
  induction pos as [|pos IH]; intros [|x r]; simpl; try reflexivity.
  - destruct r; reflexivity.
  - now rewrite IH.
Qed.

Lemma join_swap_list pos : forall s,
  join EmptyString (swap_list pos (chars s)) = swap_at pos s.
Proof.
  induction pos as [|pos IH]; intros [|x r]; try reflexivity.
  - destruct r as [|y r]; [reflexivity|].
    change (swap_list 0 (chars (String x (String y r))))
      with (chr y :: chr x :: chars r).
    now rewrite !join_cons, join_chars.
  - change (swap_list (S pos) (chars (String x r)))
      with (chr x :: swap_list pos (chars r)).
    rewrite join_cons, IH. reflexivity.
Qed.

(* apply_transposition exchanges the characters at pos and pos + 1 *)
Lemma apply_transposition_swaps word pos :
  apply_transposition word pos = Ok (swap_at pos word).
Proof.
  unfold apply_transposition.
  destruct (Nat.leb_spec (String.length word - 1) pos) as [Hle|Hlt].
  - rewrite swap_at_short; [reflexivity|lia].
  - pose proof (chars_length word) as L.
    assert (Hpos : pos + 1 < length (chars word)) by lia.
    pose proof (transposition_steps (chars word) pos Hpos) as T.
    destruct (list_getitem_ok (chars word) (pos + 1) Hpos) as (a & Ea & _).
    destruct (list_getitem_ok (chars word) pos) as (b & Eb & _); [lia|].
    destruct (list_setitem_ok (chars word) pos a) as (l1 & E1 & L1); [lia|].
    destruct (list_setitem_ok l1 (pos + 1) b) as (l2 & E2 & _); [lia|].
    rewrite Ea, Eb in T |- *. cbn [rbind] in T |- *.
    rewrite E1 in T |- *. cbn [rbind] in T |- *.
    rewrite E2 in T |- *. cbn [rbind] in T |- *.
    injection T as ->. now rewrite join_swap_list.
Qed.

(** X4. [apply_transposition] never fails and keeps the length of the
    word; applied a second time at the same position it gives the word
    back; and at an offset with no character after it (pos >= len - 1,
    the empty word included) it returns the word unchanged. *)
Theorem transposition_is_an_involution :
  forall word pos,
  exists swapped,
    apply_transposition word pos = Ok swapped /\
    String.length swapped = String.length word /\
    apply_transposition swapped pos = Ok word /\
    (String.length word <= pos + 1 -> swapped = word).
Proof.
  intros word pos. exists (swap_at pos word).
  split; [apply apply_transposition_swaps|].
  split; [apply swap_at_length|]. split.
  - rewrite apply_transposition_swaps. f_equal. apply swap_at_twice.
  - apply swap_at_short.
Qed.

Lemma transposition_is_an_involution_witness :
  apply_transposition "hello" 3 = Ok "helol" /\ apply_transposition "helol" 3 = Ok "hello".
Proof.
  destruct (transposition_is_an_involution "hello" 3) as (s & E & _ & B & _).
  assert (Hs : s = "helol").
  { assert (C : apply_transposition "hello" 3 = Ok "helol") by (vm_compute; reflexivity).
    rewrite C in E. now injection E as <-. }
  subst s. split; [exact E|exact B].
Defined.

(** ** Fat-finger substitution *)

Lemma adjacency_entries_ok :
  forallb adjacency_entry_ok MOBILE_ADJACENT_KEYS = true.
Proof. vm_compute. reflexivity. Qed.

(* the keys of MOBILE_ADJACENT_KEYS are the lower-case forms of the letters *)
Lemma adjacency_has_letters c :
  dict_in (lower (chr c)) MOBILE_ADJACENT_KEYS = is_letter c.
Proof. ascii_cases c; vm_compute; reflexivity. Qed.

Lemma islower_chr c : islower (chr c) = chr_islower c.
Proof. ascii_cases c; vm_compute; reflexivity. Qed.

Lemma lower_letter_facts c :
  chr_islower c = true -> chr_lower c = c /\ chr_isupper c = false.
Proof. ascii_cases c; vm_compute; intros H; try discriminate; split; reflexivity. Qed.

Lemma raised_letter_facts d :
  chr_islower d = true ->
  chr_isupper (chr_upper d) = true /\ chr_islower (chr_upper d) = false /\
  chr_lower (chr_upper d) = d.
Proof. ascii_cases d; vm_compute; intros H; try discriminate; repeat split. Qed.

Lemma runs_adjacent_error c w :
  runs (apply_adjacent_error (chr c)) w
    (fun out w' =>
       (is_letter c = false -> out = chr c /\ w' = w) /\
       (is_letter c = true ->
        exists d neighbours,
          out = chr d /\ d <> c /\
          chr_isupper d = chr_isupper c /\ chr_islower d = chr_islower c /\
          dict_get MOBILE_ADJACENT_KEYS (chr (chr_lower c)) = Some neighbours /\
          In (chr (chr_lower d)) neighbours)).
Proof.
  unfold apply_adjacent_error. rewrite adjacency_has_letters.
  destruct (is_letter c) eqn:L.
  2:{ apply runs_ret. split; [intros _; split; reflexivity|discriminate]. }
  assert (Hin : dict_in (lower (chr c)) MOBILE_ADJACENT_KEYS = true)
    by now rewrite adjacency_has_letters.
  destruct (dict_in_getitem _ _ Hin) as (l & G & Hl).
  eapply runs_bind; [apply runs_lift_quiet; exact G|].
  intros l' w1 (-> & _). cbv beta.
  pose proof adjacency_entries_ok as T. rewrite forallb_forall in T.
  specialize (T _ Hl). unfold adjacency_entry_ok in T. cbn [fst snd] in T.
  change (lower (chr c)) with (chr (chr_lower c)) in *.
  cbv beta iota in T. unfold chr in T at 1.
  apply andb_prop in T. destruct T as [Tk Tl]. rewrite forallb_forall in Tl.
  assert (Hne : l <> []).
  { pose proof (table_entry_nonempty _ _ adjacency_lists_nonempty Hin) as (l0 & G0 & N0).
    change (lower (chr c)) with (chr (chr_lower c)) in G0.
    rewrite G in G0. now injection G0 as <-. }
  eapply runs_bind; [apply runs_choice; exact Hne|].
  intros adjacent w2 (_ & Hadj). apply runs_ret.
  split; [discriminate|]. intros _.
  specialize (Tl _ Hadj). destruct adjacent as [|d [|? ?]]; try discriminate.
  apply andb_prop in Tl. destruct Tl as [Dl Dk].
  apply negb_true_iff, Ascii.eqb_neq in Dk.
  assert (G' : dict_get MOBILE_ADJACENT_KEYS (chr (chr_lower c)) = Some l).
  { unfold getitem in G. destruct (dict_get MOBILE_ADJACENT_KEYS (chr (chr_lower c)));
      [now injection G as ->|discriminate]. }
  rewrite islower_chr. destruct (chr_islower c) eqn:C.
  - destruct (lower_letter_facts c C) as [Ec Uc]. rewrite Ec in Dk.
    destruct (lower_letter_facts d Dl) as [Ed Ud].
    exists d, l. rewrite Ed, Ud, Uc, Dl. repeat split; assumption.
  - destruct (raised_letter_facts d Dl) as (U1 & U2 & U3).
    unfold is_letter in L. rewrite C, orb_false_r in L.
    exists (chr_upper d), l. rewrite U1, U2, U3, L.
    repeat split; try assumption.
    intros E. apply Dk. rewrite <- E. symmetry. exact U3.
Qed.



(** ** Insertion and omission *)

Lemma drop_length n : forall s, String.length (drop n s) = String.length s - n.
Proof.
  induction n as [|n IH]; intros [|c r]; simpl; try reflexivity; try lia.
  apply IH.
Qed.

Lemma drop_add n m : forall s, drop (n + m) s = drop m (drop n s).
Proof.
  induction n as [|n IH]; intros s; simpl; [reflexivity|].
  destruct s as [|c r]; [now destruct m|apply IH].
Qed.

Lemma str_getitem_chr s i :
  i < String.length s -> exists c, str_getitem s i = Ok (chr c).
Proof.
  unfold str_getitem. revert i. induction s as [|c r IH]; intros i H; simpl in H; [lia|].
  destruct i as [|i]; simpl; [now exists c|]. apply IH. lia.
Qed.

Lemma single_chr x : single x -> exists c, x = chr c.
Proof. destruct x as [|c [|d x]]; try discriminate. intros _. now exists c. Qed.

Lemma runs_adjacent_error_single x w :
  single x -> runs (apply_adjacent_error x) w (fun out _ => single out).
Proof.
  intros Hx. destruct (single_chr x Hx) as (c & ->).
  eapply runs_weaken; [apply runs_adjacent_error|]. cbv beta.
  intros out w' (H1 & H2). destruct (is_letter c).
  - destruct (H2 eq_refl) as (d & l & -> & _). reflexivity.
  - destruct (H1 eq_refl) as (-> & _). reflexivity.
Qed.

(* apply_insertion puts one character in front of offset pos *)
Lemma runs_insertion word pos w :
  pos < String.length word ->
  runs (apply_insertion word pos) w
    (fun out _ => exists x, single x /\ out = (take pos word ++ x ++ drop pos word)%string).
Proof.
  intros Hpos. unfold apply_insertion.
  destruct (Nat.leb_spec (String.length word) pos) as [|_]; [lia|].
  destruct (str_getitem_chr word pos Hpos) as (c & E).
  eapply runs_bind; [apply runs_lift_quiet; exact E|].
  intros x w1 (-> & _). cbv beta.
  run_with runs_random. intros r w2 _.
  destruct (Qltb r (6 # 10)).
  - apply runs_ret. exists (chr c). split; reflexivity.
  - eapply runs_bind; [apply (runs_adjacent_error_single (chr c)); reflexivity|].
    cbv beta. intros a w3 Ha. apply runs_ret. exists a. split; [exact Ha|reflexivity].
Qed.

Lemma omission_of_inserted word pos x :
  pos < String.length word -> single x ->
  apply_omission (take pos word ++ x ++ drop pos word) pos = word.
Proof.
  intros Hpos Hx. unfold apply_omission.
  assert (Lt : String.length (take pos word) = pos) by (apply take_length; lia).
  rewrite !append_length, Lt, drop_length. unfold single in Hx. rewrite Hx.
  destruct (Nat.leb_spec (pos + (1 + (String.length word - pos))) 1) as [|_]; [lia|].
  assert (T : take pos (take pos word ++ x ++ drop pos word) = take pos word).
  { rewrite <- Lt at 1. apply take_exact. }
  assert (D : drop pos (take pos word ++ x ++ drop pos word) = (x ++ drop pos word)%string).
  { rewrite <- Lt at 1. apply drop_exact. }
  rewrite T, drop_add, D.
  destruct x as [|c [|d x]]; try discriminate. simpl. apply take_drop.
Qed.

(** X6. For an offset inside the word, [apply_insertion] returns a word
    one character longer, whatever the draws, and [apply_omission] at the
    same offset gives the original word back; for an offset at or past
    the end, [apply_insertion] returns the word unchanged and makes no
    draw. *)
Theorem omission_undoes_insertion :
  forall word pos w,
    (pos < String.length word ->
     exists out w',
       apply_insertion word pos w = Ok (out, w') /\
       String.length out = String.length word + 1 /\
       apply_omission out pos = word) /\
    (String.length word <= pos -> apply_insertion word pos w = Ok (word, w)).
Proof.
  intros word pos w. split.
  - intros Hpos.
    destruct (runs_insertion word pos w Hpos) as (out & w' & E & x & Hx & ->).
    exists (take pos word ++ x ++ drop pos word)%string, w'.
    split; [exact E|]. split; [|now apply omission_of_inserted].
    rewrite !append_length, take_length, drop_length by lia.
    unfold single in Hx. lia.
  - intros Hpos. unfold apply_insertion.
    destruct (Nat.leb_spec (String.length word) pos) as [_|]; [reflexivity|lia].
Qed.

Lemma omission_undoes_insertion_witness :
  exists out w',
    apply_insertion "cat" 1 (start [7; 9000000000000000; 2]%N) = Ok (out, w') /\
    apply_omission out 1 = "cat".
Proof.
  destruct (proj1 (omission_undoes_insertion "cat" 1 (start [7; 9000000000000000; 2]%N)))
    as (out & w' & E & _ & O); [simpl; lia|].
  exists out, w'. split; [exact E|exact O].
Defined.

(** ** The length of a corrupted word *)

Lemma in_chars_single x s : In x (chars s) -> single x.
Proof. intros H. pose proof (chars_single s) as F. rewrite Forall_forall in F. auto. Qed.

Lemma runs_apply_error_length error_type word pos w :
  pos < String.length word ->
  runs (apply_error error_type word pos) w
    (fun out _ => String.length out = length_after error_type (String.length word)).
Proof.
  intros Hpos. unfold apply_error.
  pose proof (chars_length word) as L.
  destruct (String.eqb_spec error_type "adjacent") as [->|N0].
  { destruct (list_getitem_ok (chars word) pos) as (c & E & Hc); [lia|].
    eapply runs_bind; [apply runs_lift_quiet; exact E|].
    intros c0 w1 (-> & _). cbv beta.
    eapply runs_bind; [apply runs_adjacent_error_single, (in_chars_single _ _ Hc)|].
    cbv beta. intros c' w2 Hc'.
    destruct (list_setitem_ok (chars word) pos c') as (l & E' & Ll); [lia|].
    eapply runs_bind; [apply runs_lift_quiet; exact E'|].
    intros l' w3 (-> & _). apply runs_ret.
    rewrite join_single_length.
    - change (length_after "adjacent" (String.length word)) with (String.length word). lia.
    - eapply list_setitem_Forall; [apply chars_single|exact Hc'|exact E']. }
  destruct (String.eqb_spec error_type "omission") as [->|N1].
  { apply runs_ret. unfold apply_omission.
    change (length_after "omission" (String.length word))
      with (if Nat.leb (String.length word) 1 then String.length word
            else String.length word - 1).
    destruct (Nat.leb_spec (String.length word) 1); [reflexivity|].
    rewrite append_length, take_length, drop_length by lia. lia. }
  destruct (String.eqb_spec error_type "insertion") as [->|N2].
  { eapply runs_weaken; [apply runs_insertion; exact Hpos|]. cbv beta.
    intros out w' (x & Hx & ->).
    change (length_after "insertion" (String.length word)) with (String.length word + 1).
    rewrite !append_length, take_length, drop_length by lia. unfold single in Hx. lia. }
  destruct (String.eqb_spec error_type "transposition") as [->|N3].
  { eapply runs_weaken; [apply runs_lift_quiet, apply_transposition_swaps|]. cbv beta.
    intros out w' (-> & _). apply swap_at_length. }
  destruct (String.eqb_spec error_type "substitution") as [->|N4].
  { eapply runs_bind; [apply runs_choice; discriminate|].
    intros c w1 (_ & Hc). cbv beta.
    destruct (list_setitem_ok (chars word) pos c) as (l & E' & Ll); [lia|].
    eapply runs_bind; [apply runs_lift_quiet; exact E'|].
    intros l' w2 (-> & _). apply runs_ret.
    rewrite join_single_length.
    - change (length_after "substitution" (String.length word)) with (String.length word).
      lia.
    - eapply list_setitem_Forall; [apply chars_single| |exact E'].
      apply (in_chars_single c "abcdefghijklmnopqrstuvwxyz"), Hc. }
  destruct (String.eqb_spec error_type "case_error") as [->|N5].
  { destruct (list_getitem_ok (chars word) pos) as (c & E & Hc); [lia|].
    eapply runs_bind; [apply runs_lift_quiet; exact E|].
    intros c0 w1 (-> & _). cbv beta.
    destruct (list_setitem_ok (chars word) pos (swapcase c)) as (l & E' & Ll); [lia|].
    eapply runs_bind; [apply runs_lift_quiet; exact E'|].
    intros l' w2 (-> & _). apply runs_ret.
    rewrite join_single_length.
    - change (length_after "case_error" (String.length word)) with (String.length word).
      lia.
    - eapply list_setitem_Forall; [apply chars_single| |exact E'].
      unfold single, swapcase. rewrite str_map_length. apply (in_chars_single _ _ Hc). }
  apply runs_ret. unfold length_after.
  destruct (String.eqb_spec error_type "omission"); [contradiction|].
  destruct (String.eqb_spec error_type "insertion"); [contradiction|]. reflexivity.
Qed.



Lemma thumb_typos_nonempty :
  forallb (fun kv => forallb truthy (snd kv)) THUMB_TYPING_ERRORS = true.
Proof. vm_compute. reflexivity. Qed.

Lemma runs_thumb_typo_nonempty word word_lower w :
  0 < String.length word ->
  dict_in word_lower THUMB_TYPING_ERRORS = true ->
  runs (thumb_typo word word_lower) w (fun out _ => 0 < String.length out).
Proof.
  intros Hlen Hin. unfold thumb_typo.
  destruct (table_entry_nonempty _ _ thumb_lists_nonempty Hin) as (l & G & Hne).
  assert (Hl : forall t, In t l -> 0 < String.length t).
  { destruct (dict_in_getitem _ _ Hin) as (l0 & G0 & Hl0).
    rewrite G in G0. injection G0 as <-.
    pose proof thumb_typos_nonempty as T. rewrite forallb_forall in T.
    specialize (T _ Hl0). cbn [snd] in T. rewrite forallb_forall in T.
    intros t Ht. specialize (T t Ht). destruct t; [discriminate|simpl; lia]. }
  eapply runs_bind; [apply runs_lift_quiet; exact G|].
  intros l' w1 (-> & _). cbv beta.
  eapply runs_bind; [apply runs_choice; exact Hne|].
  intros typo w2 (_ & Ht). cbv beta.
  destruct (str_getitem_ok word 0 Hlen) as (c & E).
  eapply runs_bind; [apply runs_lift_quiet; exact E|].
  intros c' w3 (-> & _).
  specialize (Hl typo Ht).
  assert (R : String.length
                (if isupper c && Nat.ltb 0 (String.length typo)
                 then (upper (take 1 typo) ++ drop 1 typo)%string else typo)
              = String.length typo).
  { destruct (isupper c && Nat.ltb 0 (String.length typo)); [|reflexivity].
    unfold upper. rewrite append_length, str_map_length, <- append_length.
    now rewrite take_drop. }
  apply runs_ret. destruct (isupper word).
  - unfold upper at 1. rewrite str_map_length, R. exact Hl.
  - rewrite R. exact Hl.
Qed.

Lemma runs_corrupt_word_length word w :
  runs (corrupt_word_mobile word) w
    (fun out w' =>
       (String.length word <= 1 -> out = word /\ cursor w' = cursor w) /\
       (2 <= String.length word -> 1 <= String.length out)).
Proof.
  unfold corrupt_word_mobile.
  eapply runs_bind with (mid := fun _ w1 => cursor w1 = cursor w).
  { eexists _, _. split; reflexivity. }
  intros ? w1 Hc.
  destruct (Nat.leb_spec (String.length word) 1) as [Hle|Hlen].
  { apply runs_ret. split; [intros _; split; [reflexivity|exact Hc]|lia]. }
  run_with runs_thumb_gate. intros hit w2 (_ & Hhit).
  destruct hit.
  - eapply runs_weaken; [apply runs_thumb_typo_nonempty; [lia|auto]|]. cbv beta.
    intros out w3 H. split; [lia|intros _; lia].
  - eapply runs_bind; [apply runs_choices, error_weights_fit|].
    intros error_type w3 _. cbv beta.
    eapply runs_bind; [apply runs_randint; lia|].
    intros pos w4 (_ & Hpos). cbv beta.
    eapply runs_weaken; [apply runs_apply_error_length; lia|]. cbv beta.
    intros out w5 L. split; [lia|intros _].
    rewrite L. unfold length_after.
    destruct (error_type =? "omission").
    + destruct (Nat.leb_spec (String.length word) 1); lia.
    + destruct (error_type =? "insertion"); lia.
Qed.

(** X8. [corrupt_word_mobile] never fails: a word of at most one
    character (the empty word included) comes back unchanged, with no
    draw made; a longer word comes back as a word that is not empty. *)
Theorem corrupted_word_is_never_empty :
  forall word w,
  exists out w',
    corrupt_word_mobile word w = Ok (out, w') /\
    (String.length word <= 1 -> out = word /\ cursor w' = cursor w) /\
    (2 <= String.length word -> out <> EmptyString).
Proof.
  intros word w.
  destruct (runs_corrupt_word_length word w) as (out & w' & E & H1 & H2).
  exists out, w'. split; [exact E|]. split; [exact H1|].
  intros Hlen Hout. specialize (H2 Hlen). rewrite Hout in H2. simpl in H2. lia.
Qed.

Lemma corrupted_word_is_never_empty_witness :
  exists w', corrupt_word_mobile "I" (start [1; 2; 3]%N) = Ok ("I", w') /\ cursor w' = 0.
Proof.
  destruct (corrupted_word_is_never_empty "I" (start [1; 2; 3]%N))
    as (out & w' & E & H & _).
  destruct H as [-> C]; [simpl; lia|].
  exists w'. split; [exact E|exact C].
Defined.

(** ** Protected spans, continued *)

Lemma in_order_iff a b :
  in_order a b <-> fst a < fst b \/ (fst a = fst b /\ snd a <= snd b).
Proof.
  unfold in_order, span_leb.
  rewrite orb_true_iff, andb_true_iff, Nat.ltb_lt, Nat.eqb_eq, Nat.leb_le. reflexivity.
Qed.

Lemma not_in_order a b : span_leb a b = false -> in_order b a.
Proof.
  intros H. apply in_order_iff.
  assert (N : ~ in_order a b) by (unfold in_order; congruence).
  rewrite in_order_iff in N. lia.
Qed.

Lemma in_order_trans a b c : in_order a b -> in_order b c -> in_order a c.
Proof. rewrite !in_order_iff. lia. Qed.

Lemma sort_insert_in_order x l :
  StronglySorted in_order l -> StronglySorted in_order (sort_insert x l).
Proof.
  induction 1 as [|y l Hs IH Hy]; simpl.
  - constructor; constructor.
  - destruct (span_leb x y) eqn:E.
    + constructor; [now constructor|]. constructor; [exact E|].
      eapply Forall_impl; [|exact Hy]. intros z Hz. eapply in_order_trans; eassumption.
    + constructor; [exact IH|].
      apply Forall_forall. intros z Hz. apply sort_insert_In in Hz.
      destruct Hz as [->|Hz]; [now apply not_in_order|].
      rewrite Forall_forall in Hy. now apply Hy.
Qed.

Lemma sort_in_order l : StronglySorted in_order (sort l).
Proof.
  induction l as [|x l IH]; simpl; [constructor|now apply sort_insert_in_order].
Qed.

(* sorting a list that is in order leaves it as it is *)
Lemma sort_of_sorted l : StronglySorted in_order l -> sort l = l.
Proof.
  induction 1 as [|x l Hs IH Hx]; simpl; [reflexivity|].
  rewrite IH. destruct l as [|y l]; [reflexivity|].
  simpl. inversion Hx as [|? ? Hxy _]; subst. unfold in_order in Hxy. now rewrite Hxy.
Qed.

(* every merged span starts where a match starts and ends where a match ends *)
Lemma merge_from_ends rest : forall cur m,
  In m (merge_from cur rest) ->
  (exists i, In i (cur :: rest) /\ fst i = fst m /\ snd i <= snd m) /\
  (exists j, In j (cur :: rest) /\ snd j = snd m).
Proof.
  induction rest as [|[start end_] rest IH]; intros cur m; simpl.
  - intros [<-|[]]. split; exists cur; auto.
  - destruct (Nat.leb start (snd cur)).
    + intros H. destruct (IH _ _ H) as ((i & Hi & Ei & Li) & (j & Hj & Ej)).
      cbn [fst snd] in *. split.
      * destruct Hi as [<-|Hi].
        -- exists cur. cbn [fst snd] in *. split; [now left|]. split; [exact Ei|lia].
        -- exists i. auto.
      * destruct Hj as [<-|Hj]; [|exists j; auto].
        cbn [snd] in Ej.
        destruct (Nat.max_spec (snd cur) end_) as [[_ M]|[_ M]]; rewrite M in Ej.
        -- exists (start, end_). auto.
        -- exists cur. auto.
    + intros [<-|H]; [split; exists cur; auto|].
      destruct (IH _ _ H) as ((i & Hi & Ei) & (j & Hj & Ej)).
      split; [exists i|exists j]; auto.
Qed.

(* a merged span holds matched offsets only *)
Lemma merge_from_sound pos rest : forall cur,
  Exists (inside pos) (merge_from cur rest) -> Exists (inside pos) (cur :: rest).
Proof.
  induction rest as [|[start end_] rest IH]; intros cur; simpl; [auto|].
  destruct (Nat.leb_spec start (snd cur)) as [Hle|Hgt].
  - intros H. apply IH in H. inversion H as [? ? Hc|? ? Hr]; subst.
    + unfold inside in Hc. cbn [fst snd] in Hc.
      destruct (Nat.lt_ge_cases pos (snd cur)).
      * left. unfold inside. lia.
      * right. left. unfold inside. cbn [fst snd]. lia.
    + right. right. exact Hr.
  - intros H. inversion H as [? ? Hc|? ? Hr]; subst; [now left|].
    right. apply IH, Hr.
Qed.

Lemma merge_from_in_order rest : forall cur,
  Forall (in_order cur) rest -> StronglySorted in_order rest ->
  StronglySorted in_order (merge_from cur rest).
Proof.
  induction rest as [|[start end_] rest IH]; intros cur Hc Hs; simpl.
  - constructor; constructor.
  - inversion Hc as [|? ? C1 C2]; subst. inversion Hs as [|? ? S1 S2]; subst.
    destruct (Nat.leb_spec start (snd cur)) as [Hle|Hgt].
    + apply IH; [|exact S1].
      rewrite Forall_forall in C2, S2 |- *. intros r Hr.
      specialize (C2 r Hr). specialize (S2 r Hr).
      rewrite in_order_iff in C1, C2, S2 |- *. cbn [fst snd] in *. lia.
    + constructor; [apply IH; assumption|].
      apply Forall_forall. intros m Hm.
      destruct (merge_from_ends _ _ _ Hm) as ((i & Hi & Ei & Li) & _).
      assert (Oi : in_order cur i).
      { destruct Hi as [<-|Hi]; [exact C1|]. rewrite Forall_forall in C2. now apply C2. }
      rewrite in_order_iff in Oi |- *. lia.
Qed.

(* merging spans that already lie apart changes nothing *)
Lemma merge_from_apart_id rest : forall cur,
  StronglySorted apart (cur :: rest) -> merge_from cur rest = cur :: rest.
Proof.
  induction rest as [|[start end_] rest IH]; intros cur H; simpl; [reflexivity|].
  inversion H as [|? ? Hs Hf]; subst. inversion Hf as [|? ? Hap _]; subst.
  unfold apart in Hap. cbn [fst] in Hap.
  destruct (Nat.leb_spec start (snd cur)); [lia|]. f_equal. now apply IH.
Qed.

Section PatternFactsContinued.

Variable pattern : Type.
Variable PROTECTED_PATTERNS : list pattern.
Variable finditer : pattern -> string -> list span.

Local Abbreviation spans_of' := (find_protected_spans pattern PROTECTED_PATTERNS finditer).
Local Abbreviation matches_of := (collect_spans pattern PROTECTED_PATTERNS finditer).

Lemma in_matches s text :
  In s (matches_of text) <-> exists p, In p PROTECTED_PATTERNS /\ In s (finditer p text).
Proof. unfold collect_spans. apply in_flat_map. Qed.

(** X9. [find_protected_spans] protects matched characters only: every
    offset inside a returned span is inside a match of some pattern,
    every returned span starts where some match starts and ends where
    some match ends, and with no match at all the list is empty. *)
Theorem protected_spans_are_exact :
  forall text,
    (forall pos, Exists (inside pos) (spans_of' text) ->
       exists p s, In p PROTECTED_PATTERNS /\ In s (finditer p text) /\ inside pos s) /\
    (forall m, In m (spans_of' text) ->
       (exists p s, In p PROTECTED_PATTERNS /\ In s (finditer p text) /\ fst s = fst m) /\
       (exists p s, In p PROTECTED_PATTERNS /\ In s (finditer p text) /\ snd s = snd m)) /\
    ((forall p, In p PROTECTED_PATTERNS -> finditer p text = []) -> spans_of' text = []).
Proof.
  intros text. rewrite find_protected_spans_merge.
  assert (Hin : forall s, In s (sort (matches_of text)) ->
                  exists p, In p PROTECTED_PATTERNS /\ In s (finditer p text)).
  { intros s Hs. apply in_matches, sort_In, Hs. }
  split; [|split].
  - intros pos H. destruct (sort (matches_of text)) as [|first rest]; [inversion H|].
    apply merge_from_sound, Exists_exists in H. destruct H as (s & Hs & Hpos).
    destruct (Hin s Hs) as (p & Hp & Hm). now exists p, s.
  - intros m H. destruct (sort (matches_of text)) as [|first rest]; [contradiction|].
    destruct (merge_from_ends _ _ _ H) as ((i & Hi & Ei & _) & (j & Hj & Ej)).
    destruct (Hin i Hi) as (p & Hp & Hm). destruct (Hin j Hj) as (q & Hq & Hn).
    split; [now exists p, i|now exists q, j].
  - intros Hnone. destruct (sort (matches_of text)) as [|first rest]; [reflexivity|].
    destruct (Hin first (or_introl eq_refl)) as (p & Hp & Hm).
    rewrite (Hnone p Hp) in Hm. contradiction.
Qed.

Lemma spans_in_order_and_apart text :
  StronglySorted in_order (spans_of' text) /\ StronglySorted apart (spans_of' text).
Proof.
  rewrite find_protected_spans_merge.
  pose proof (sort_in_order (matches_of text)) as Hs.
  pose proof (sort_sorted (matches_of text)) as Hb.
  destruct (sort (matches_of text)) as [|first rest]; [split; constructor|].
  inversion Hs as [|? ? S1 S2]; subst. inversion Hb as [|? ? B1 B2]; subst.
  split; [now apply merge_from_in_order|now apply merge_from_apart].
Qed.

End PatternFactsContinued.

Lemma merge_of_merged (spans : list span) text :
  StronglySorted in_order spans -> StronglySorted apart spans ->
  find_protected_spans unit [tt] (fun _ _ => spans) text = spans.
Proof.
  intros Ho Ha. unfold find_protected_spans, collect_spans. cbn [flat_map].
  rewrite app_nil_r, (sort_of_sorted _ Ho).
  destruct spans as [|first rest]; [reflexivity|].
  pose proof (fold_merge_step rest [] first) as F. cbn [app] in F.
  rewrite F. now apply merge_from_apart_id.
Qed.

(** X10. Merging is idempotent: when the spans [find_protected_spans]
    has returned for a text are given back to it as the matches of a
    single pattern, it returns the same list. *)
Theorem merging_is_idempotent :
  forall (pattern : Type) (PROTECTED_PATTERNS : list pattern)
         (finditer : pattern -> string -> list span) (text text' : string),
    find_protected_spans unit [tt]
      (fun _ _ => find_protected_spans pattern PROTECTED_PATTERNS finditer text) text'
    = find_protected_spans pattern PROTECTED_PATTERNS finditer text.
Proof.
  intros pattern PROTECTED_PATTERNS finditer text text'.
  destruct (spans_in_order_and_apart pattern PROTECTED_PATTERNS finditer text) as [Ho Ha].
  now apply merge_of_merged.
Qed.

(** ** The sentence pipeline, continued *)

Lemma occurs_in_refl t : occurs_in t t.
Proof. exists EmptyString, EmptyString. simpl. symmetry. apply append_nil_r. Qed.

Lemma occurs_in_append_r t r s : occurs_in t r -> occurs_in t (r ++ s).
Proof.
  intros (a & b & ->). exists a, (b ++ s)%string. now rewrite !append_assoc.
Qed.

Lemma occurs_in_append_l t s : occurs_in t (s ++ t).
Proof. exists s, EmptyString. now rewrite append_nil_r. Qed.

Lemma occurs_in_trans t r s : occurs_in t r -> occurs_in r s -> occurs_in t s.
Proof.
  intros (a & b & ->) (c & d & ->). exists (c ++ a)%string, (b ++ d)%string.
  now rewrite !append_assoc.
Qed.

Lemma held_app_l t rw extra : held t rw -> held t (rw ++ extra).
Proof. intros (r & Hin & Ho). exists r. split; [apply in_or_app; now left|exact Ho]. Qed.

Lemma held_last t rw : held t (rw ++ [t]).
Proof. exists t. split; [apply in_or_app; right; now left|apply occurs_in_refl]. Qed.

Lemma extend_last_shape x0 rw0 s :
  exists front l,
    x0 :: rw0 = front ++ [l] /\ extend_last (x0 :: rw0) s = front ++ [(l ++ s)%string].
Proof.
  destruct (@exists_last _ (x0 :: rw0)) as (front & l & EQ); [discriminate|].
  exists front, l. split; [exact EQ|].
  unfold extend_last. rewrite EQ, removelast_last, last_last. reflexivity.
Qed.

Lemma held_extend_last t x0 rw0 s :
  held t (x0 :: rw0) -> held t (extend_last (x0 :: rw0) s).
Proof.
  intros (r & Hin & Ho). destruct (extend_last_shape x0 rw0 s) as (front & l & EQ & ->).
  rewrite EQ in Hin. apply in_app_or in Hin. destruct Hin as [Hin|[Hl|[]]].
  - exists r. split; [apply in_or_app; now left|exact Ho].
  - subst l. exists (r ++ s)%string.
    split; [apply in_or_app; right; now left|now apply occurs_in_append_r].
Qed.

Lemma held_extend_last_new x0 rw0 s : held s (extend_last (x0 :: rw0) s).
Proof.
  destruct (extend_last_shape x0 rw0 s) as (front & l & _ & ->).
  exists (l ++ s)%string. split; [apply in_or_app; right; now left|apply occurs_in_append_l].
Qed.

Lemma held_occurs sep t rw : held t rw -> occurs_in t (join sep rw).
Proof.
  intros (r & Hin & Ho). eapply occurs_in_trans; [exact Ho|now apply in_join_occurs].
Qed.

(* the spacebar branch loses no word, the current one included *)
Lemma runs_spacebar_error_held result_words token w :
  runs (spacebar_error result_words token) w
    (fun rw' w' => quiet w w' /\ (forall t, held t result_words -> held t rw') /\
                   held token rw').
Proof.
  unfold spacebar_error.
  eapply runs_bind; [apply runs_choices, spacebar_weights_fit|].
  intros space_error w1 (Hq & _). cbv beta.
  destruct (space_error =? "no_space").
  { destruct result_words as [|x0 rw0]; apply runs_ret; (split; [exact Hq|]); split.
    - intros t Ht. now apply held_app_l.
    - apply held_last.
    - intros t Ht. now apply held_extend_last.
    - apply held_extend_last_new. }
  destruct (space_error =? "double_space").
  { apply runs_ret. split; [exact Hq|]. split; [|apply held_last].
    intros t Ht. now apply held_app_l, held_app_l. }
  destruct (contains space_error ["space_to_b"; "space_to_n"; "space_to_v"]) eqn:C.
  { apply contains_In in C.
    assert (L : exists c, last_chr space_error = Some c).
    { destruct C as [<-|[<-|[<-|[]]]]; eexists; reflexivity. }
    destruct L as (c & ->). apply runs_ret. split; [exact Hq|]. split; [|apply held_last].
    intros t Ht. now apply held_app_l, held_app_l. }
  apply runs_ret. split; [exact Hq|]. split; [|apply held_last].
  intros t Ht. now apply held_app_l.
Qed.

Lemma runs_corrupt_token_rate0 variant_ i word result_words w :
  runs (corrupt_token (0 # 1) variant_ i word result_words) w
    (fun rw' w' => quiet w w' /\ (forall t, held t result_words -> held t rw') /\
                   held word rw').
Proof.
  unfold corrupt_token.
  destruct (peel word) as [[prefix core] suffix] eqn:P.
  pose proof (peel_joins _ _ _ _ P) as J.
  destruct (should_protect_word core variant_).
  - apply runs_ret. rewrite J. split; [apply quiet_refl|]. split; [|apply held_last].
    intros t Ht. now apply held_app_l.
  - eapply runs_bind with (mid := fun c w1 => c = core /\ quiet w w1).
    { destruct (truthy core); [|apply runs_ret; split; [reflexivity|apply quiet_refl]].
      run_with runs_random. intros r w1 (Hq1 & _ & H0). rewrite H0.
      apply runs_ret. split; [reflexivity|exact Hq1]. }
    intros c w1 (-> & Hq1). cbv beta. rewrite J.
    eapply runs_bind with (mid := fun _ w2 => quiet w w2).
    { destruct (Nat.ltb 0 i); [|apply runs_ret; exact Hq1].
      run_with runs_random. intros r w2 (Hq2 & _). apply runs_ret.
      eapply quiet_trans; eassumption. }
    intros hit w2 Hq2. cbv beta. destruct hit.
    + eapply runs_weaken; [apply runs_spacebar_error_held|]. cbv beta.
      intros rw' w3 (Hq3 & Hk & Hn). split; [eapply quiet_trans; eassumption|].
      split; assumption.
    + apply runs_ret. split; [exact Hq2|]. split; [|apply held_last].
      intros t Ht. now apply held_app_l.
Qed.

Lemma runs_corrupt_words_rate0 variant_ words : forall i result_words w,
  runs (corrupt_words (0 # 1) variant_ i words result_words) w
    (fun rw' w' => quiet w w' /\ (forall t, held t result_words -> held t rw') /\
                   (forall t, In t words -> held t rw')).
Proof.
  induction words as [|word rest IH]; intros i result_words w; simpl.
  - apply runs_ret. split; [apply quiet_refl|]. split; [auto|contradiction].
  - run_with runs_corrupt_token_rate0. intros rw1 w1 (Hq1 & Hk1 & Hn1).
    eapply runs_weaken; [apply IH|]. cbv beta.
    intros rw2 w2 (Hq2 & Hk2 & Hn2). split; [eapply quiet_trans; eassumption|].
    split; [auto|]. intros t [<-|Hin]; auto.
Qed.

(** X11. At error rate 0.0 [corrupt_text_mobile] makes no call of
    [corrupt_word_mobile], whatever the draws: every token of the text
    stands unchanged in the sentence joined from the word loop (joined to
    a neighbour at most), and the output is that sentence after the
    sentence-level pass. *)
Theorem rate_zero_corrupts_no_word :
  forall text variant_ w,
  exists result_words out w',
    corrupt_text_mobile text (0 # 1) variant_ w = Ok (out, w') /\
    calls w' = calls w /\
    (forall token, In token (split text) -> occurs_in token (join " " result_words)) /\
    (exists b0 b1 b2 b3, out = sentence_pass b0 b1 b2 b3 (join " " result_words)).
Proof.
  intros text variant_ w.
  destruct (runs_corrupt_words_rate0 variant_ (split text) 0 [] w)
    as (rw & w1 & E1 & Hq1 & _ & Hh).
  destruct (runs_postprocess (join " " rw) w1) as (out & w2 & E2 & Hq2 & Hpass).
  exists rw, out, w2. split; [|split; [|split]].
  - unfold corrupt_text_mobile. rewrite (bind_eq _ _ _ _ _ E1). exact E2.
  - unfold quiet in *. congruence.
  - intros token Hin. apply held_occurs, Hh, Hin.
  - exact Hpass.
Qed.

Lemma rate_zero_corrupts_no_word_witness :
  exists result_words,
    In "there" (split "hello there") /\ occurs_in "there" (join " " result_words).
Proof.
  destruct (rate_zero_corrupts_no_word "hello there" None (start [9; 9; 9]%N))
    as (rw & out & w' & _ & _ & H & _).
  exists rw. assert (Hin : In "there" (split "hello there")) by (vm_compute; auto).
  split; [exact Hin|exact (H _ Hin)].
Defined.

(* the word loop on protected tokens copies them and makes no draw *)
Lemma corrupt_words_all_protected error_rate variant_ words : forall i result_words w,
  Forall (fun t => should_protect_word (core_of t) variant_ = true) words ->
  corrupt_words error_rate variant_ i words result_words w = Ok (result_words ++ words, w).
Proof.
  induction words as [|word rest IH]; intros i result_words w H; simpl.
  - now rewrite app_nil_r.
  - inversion H as [|? ? Hw Hr]; subst.
    unfold corrupt_token at 1. unfold core_of in Hw.
    destruct (peel word) as [[prefix core] suffix] eqn:P. cbn [fst snd] in Hw.
    rewrite Hw, (peel_joins _ _ _ _ P). unfold bind, ret at 1.
    rewrite (IH _ _ _ Hr), <- app_assoc. reflexivity.
Qed.

(** X12. A sentence whose tokens are all protected gets no word-level
    and no spacing error, at any error rate and whatever the draws: no
    call of [corrupt_word_mobile] is made and the output is the sentence,
    its tokens joined by single spaces, after the sentence-level pass. *)
Theorem protected_sentence_meets_sentence_pass_only :
  forall text error_rate variant_ w,
    (forall token, In token (split text) ->
                   should_protect_word (core_of token) variant_ = true) ->
    exists out w' b0 b1 b2 b3,
      corrupt_text_mobile text error_rate variant_ w = Ok (out, w') /\
      out = sentence_pass b0 b1 b2 b3 (join " " (split text)) /\
      calls w' = calls w.
Proof.
  intros text error_rate variant_ w H.
  assert (F : Forall (fun t => should_protect_word (core_of t) variant_ = true)
                (split text)) by now apply Forall_forall.
  pose proof (corrupt_words_all_protected error_rate variant_ (split text) 0 [] w F) as E1.
  cbn [app] in E1.
  destruct (runs_postprocess (join " " (split text)) w)
    as (out & w' & E2 & Hq & b0 & b1 & b2 & b3 & ->).
  exists (sentence_pass b0 b1 b2 b3 (join " " (split text))), w', b0, b1, b2, b3.
  split; [|split; [reflexivity|exact Hq]].
  unfold corrupt_text_mobile. rewrite (bind_eq _ _ _ _ _ E1). exact E2.
Qed.

Lemma protected_sentence_meets_sentence_pass_only_witness :
  exists out w' b0 b1 b2 b3,
    corrupt_text_mobile "brb  10.30, lol" (1 # 2) (Some "US") (start [4; 5]%N)
    = Ok (out, w') /\
    out = sentence_pass b0 b1 b2 b3 "brb 10.30, lol".
Proof.
  destruct (protected_sentence_meets_sentence_pass_only "brb  10.30, lol" (1 # 2)
              (Some "US") (start [4; 5]%N))
    as (out & w' & b0 & b1 & b2 & b3 & E & O & _).
  - intros token Hin. vm_compute in Hin.
    destruct Hin as [<-|[<-|[<-|[]]]]; vm_compute; reflexivity.
  - exists out, w', b0, b1, b2, b3. split; [exact E|exact O].
Defined.

(** ** Blank text *)

Lemma split_blank s : str_all chr_isspace s = true -> split s = [].
Proof.
  unfold split. induction s as [|c r IH]; simpl; [reflexivity|].
  intros H. apply andb_prop in H. destruct H as [Hc Hr]. rewrite Hc. now apply IH.
Qed.

Lemma postprocess_empty w :
  postprocess EmptyString w
  = Ok (EmptyString,
        {| tape := tape w; cursor := S (S (S (cursor w))); calls := calls w |}).
Proof.
  unfold postprocess, bind, random.random, draw, ret. cbn.
  repeat match goal with |- context [Qltb ?a ?b] => destruct (Qltb a b) end;
    reflexivity.
Qed.

(** X13. On a text that is empty or made of whitespace only,
    [convert_sentence_spelling] returns the empty string, and
    [corrupt_text_mobile] returns the empty string after exactly three
    draws (those of the punctuation errors), with no call of
    [corrupt_word_mobile], at any error rate and under any variant. *)
Theorem blank_text_stays_empty :
  forall text,
    str_all chr_isspace text = true ->
    (forall variant_, convert_sentence_spelling text variant_ = EmptyString) /\
    (forall error_rate variant_ w,
     exists w',
       corrupt_text_mobile text error_rate variant_ w = Ok (EmptyString, w') /\
       cursor w' = cursor w + 3 /\ calls w' = calls w).
Proof.
  intros text H. pose proof (split_blank text H) as S. split.
  - intros variant_. unfold convert_sentence_spelling. rewrite S. reflexivity.
  - intros error_rate variant_ w. eexists. split; [|split].
    + unfold corrupt_text_mobile. rewrite S. cbn [corrupt_words].
      unfold bind at 1, ret at 1. apply postprocess_empty.
    + cbn [cursor]. lia.
    + reflexivity.
Qed.

Lemma blank_text_stays_empty_witness :
  convert_sentence_spelling "   " "UK" = EmptyString.
Proof.
  apply (proj1 (blank_text_stays_empty "   " ltac:(vm_compute; reflexivity)) "UK").
Defined.

(** ** The dataset builder, continued *)

Lemma concat_length_bound {A} (groups : list (list A)) k :
  Forall (fun g => length g <= k) groups -> length (concat groups) <= length groups * k.
Proof.
  induction 1 as [|g groups Hg _ IH]; simpl; [lia|]. rewrite length_app. lia.
Qed.

(** X14. Whatever the parameters and the draws, every record
    [generate_dataset] returns carries the variant code it was called
    with and has as output a sentence of the pool it draws from, and the
    number of records is at most num_samples times
    max(1, variants_per_sample); with num_samples <= 0 the dataset is
    empty. *)
Theorem dataset_records_come_from_the_pool :
  forall num_samples error_rate variant_ clean_sample_ratio variable_error_rate
         variants_per_sample w,
  exists all_sentences dataset w',
    sentence_pool variant_ = Ok all_sentences /\
    generate_dataset num_samples error_rate variant_ clean_sample_ratio
      variable_error_rate variants_per_sample w = Ok (dataset, w') /\
    Forall (fun r => variant r = variant_ /\ In (output r) all_sentences) dataset /\
    length dataset <= Z.to_nat num_samples * Nat.max 1 (Z.to_nat variants_per_sample) /\
    ((num_samples <= 0)%Z -> dataset = []).
Proof.
  intros num_samples error_rate variant_ clean_sample_ratio variable_error_rate
         variants_per_sample w.
  destruct (runs_generate_dataset num_samples error_rate variant_ clean_sample_ratio
              variable_error_rate variants_per_sample w)
    as (ds & w' & E & pool & groups & Epool & -> & L & F).
  exists pool, (concat groups), w'. split; [exact Epool|]. split; [exact E|].
  assert (G : Forall (fun g =>
                length g <= Nat.max 1 (Z.to_nat variants_per_sample) /\
                Forall (fun r => variant r = variant_ /\ In (output r) pool) g) groups).
  { eapply Forall_impl; [|exact F]. cbv beta.
    intros g (clean & r & Hin & _ & _ & [[_ ->]|(_ & Hlen & _ & Hl)]).
    - split; [cbn [length]; lia|]. constructor; [|constructor]. split; [reflexivity|exact Hin].
    - split; [lia|]. eapply Forall_impl; [|exact Hl]. cbv beta.
      intros x (Ho & Hv & _). split; [exact Hv|now rewrite Ho]. }
  split; [|split].
  - clear -G. induction G as [|g groups [_ Hg] _ IH]; simpl; [constructor|].
    apply Forall_app. split; assumption.
  - rewrite <- L. apply concat_length_bound.
    eapply Forall_impl; [|exact G]. cbv beta. intros g [Hg _]. exact Hg.
  - intros Hn. assert (Z.to_nat num_samples = 0) as Z0 by lia.
    rewrite Z0 in L. destruct groups; [reflexivity|discriminate].
Qed.

Lemma runs_variants_loop_count variable_error_rate error_rate variant_ clean dataset n :
  forall emitted w,
    runs (variants_loop n (error_rates_of variable_error_rate error_rate)
            (error_weights_of variable_error_rate) variant_ clean
            (map input emitted, dataset ++ emitted)) w
      (fun st _ =>
         exists emitted',
           snd st = dataset ++ emitted' /\
           length emitted <= length emitted' <= length emitted + n).
Proof.
  induction n as [|n IH]; intros emitted w; simpl.
  - apply runs_ret. exists emitted. cbn [snd]. split; [reflexivity|lia].
  - run_with runs_variant_iteration. intros st w1 (c & k & _ & _ & ->).
    destruct (contains c (map input emitted)).
    + eapply runs_weaken; [apply IH|]. cbv beta.
      intros st ? (e' & E & L). exists e'. split; [exact E|lia].
    + set (rec := mk_sample c clean variant_
                    (if negb (c =? clean) then "corrupted" else "none")).
      replace (map input emitted ++ [c]) with (map input (emitted ++ [rec]))
        by (rewrite map_app; reflexivity).
      rewrite <- app_assoc.
      eapply runs_weaken; [apply IH|]. cbv beta.
      intros st ? (e' & E & L). exists e'. rewrite length_app in L. simpl in L.
      split; [exact E|lia].
Qed.

(* with at least one variant asked for, a round appends at least one record *)
Lemma runs_sample_iteration_count variable_error_rate error_rate variant_ all_sentences
    clean_sample_ratio variants_per_sample dataset w :
  all_sentences <> [] -> 1 <= Z.to_nat variants_per_sample ->
  runs (sample_iteration all_sentences (error_rates_of variable_error_rate error_rate)
          (error_weights_of variable_error_rate) variant_ clean_sample_ratio
          variants_per_sample dataset) w
    (fun dataset' _ =>
       exists g, dataset' = dataset ++ g /\
                 1 <= length g <= Z.to_nat variants_per_sample).
Proof.
  intros Hne Hv. unfold sample_iteration.
  eapply runs_bind; [apply runs_choice; exact Hne|].
  intros clean w1 _. cbv beta.
  run_with runs_random. intros r w2 _.
  destruct (Qltb r clean_sample_ratio).
  - apply runs_ret. eexists. split; [reflexivity|]. simpl. lia.
  - destruct (Z.to_nat variants_per_sample) as [|n]; [lia|].
    cbn [variants_loop].
    eapply runs_bind with
      (mid := fun st _ => exists e', snd st = dataset ++ e' /\
                                     1 <= length e' <= 1 + n).
    { eapply runs_bind; [apply runs_variant_iteration|]. cbv beta.
      intros st w3 (c & k & _ & _ & ->). cbn [contains existsb].
      set (rec := mk_sample c clean variant_
                    (if negb (c =? clean) then "corrupted" else "none")).
      change ([] ++ [c]) with (map input [rec]).
      apply (runs_variants_loop_count variable_error_rate error_rate variant_ clean
               dataset n [rec]). }
    cbv beta. intros st w4 (e' & E & L). apply runs_ret.
    exists e'. split; [exact E|]. simpl in L. lia.
Qed.

(* the loop over range(num_samples) runs its body num_samples times *)
Lemma samples_loop_rule (P : list sample -> Prop) all_sentences error_rates error_weights
    variant_ clean_sample_ratio variants_per_sample :
  (forall dataset w,
     runs (sample_iteration all_sentences error_rates error_weights variant_
             clean_sample_ratio variants_per_sample dataset) w
       (fun dataset' _ => exists g, dataset' = dataset ++ g /\ P g)) ->
  forall n dataset w,
    runs (samples_loop n all_sentences error_rates error_weights variant_
            clean_sample_ratio variants_per_sample dataset) w
      (fun dataset' _ =>
         exists groups,
           dataset' = dataset ++ concat groups /\ length groups = n /\ Forall P groups).
Proof.
  intros Hbody. induction n as [|n IH]; intros dataset w; simpl.
  - apply runs_ret. exists []. simpl. rewrite app_nil_r. repeat split. constructor.
  - eapply runs_bind; [apply Hbody|].
    cbv beta. intros ds1 w1 (g & -> & Hg).
    eapply runs_weaken; [apply IH|]. cbv beta.
    intros ds2 ? (groups & -> & L & F). exists (g :: groups).
    simpl. rewrite app_assoc. repeat split; [now rewrite L|]. now constructor.
Qed.

Lemma concat_length_bounds {A} (groups : list (list A)) lo hi :
  Forall (fun g => lo <= length g <= hi) groups ->
  length groups * lo <= length (concat groups) <= length groups * hi.
Proof.
  induction 1 as [|g groups Hg _ IH]; simpl; [lia|]. rewrite length_app. lia.
Qed.

(** X15. When at least one variant per sample is asked for, every round
    of the loop over range(num_samples) appends at least one record and
    at most variants_per_sample, whatever the clean ratio and the draws:
    the dataset has between num_samples and
    num_samples * variants_per_sample records, and exactly num_samples
    with the default variants_per_sample = 1. *)
Theorem dataset_size_bounds :
  forall num_samples error_rate variant_ clean_sample_ratio variable_error_rate
         variants_per_sample w,
    (1 <= variants_per_sample)%Z ->
    exists dataset w',
      generate_dataset num_samples error_rate variant_ clean_sample_ratio
        variable_error_rate variants_per_sample w = Ok (dataset, w') /\
      Z.to_nat num_samples <= length dataset
        <= Z.to_nat num_samples * Z.to_nat variants_per_sample /\
      (variants_per_sample = 1%Z -> length dataset = Z.to_nat num_samples).
Proof.
  intros num_samples error_rate variant_ clean_sample_ratio variable_error_rate
         variants_per_sample w Hv.
  destruct (sentence_pool_ok variant_) as (pool & Epool & Hne).
  assert (Hv' : 1 <= Z.to_nat variants_per_sample) by lia.
  destruct (samples_loop_rule
              (fun g => 1 <= length g <= Z.to_nat variants_per_sample)
              pool (error_rates_of variable_error_rate error_rate)
              (error_weights_of variable_error_rate) variant_ clean_sample_ratio
              variants_per_sample
              (fun ds w0 => runs_sample_iteration_count variable_error_rate error_rate
                              variant_ pool clean_sample_ratio variants_per_sample
                              ds w0 Hne Hv')
              (Z.to_nat num_samples) [] w)
    as (ds & w' & E & groups & -> & L & F).
  exists (concat groups), w'. cbn [app] in *.
  pose proof (concat_length_bounds groups 1 (Z.to_nat variants_per_sample) F) as B.
  rewrite L in B. split; [|split].
  - unfold generate_dataset, bind, lift. rewrite Epool. exact E.
  - lia.
  - intros ->. change (Z.to_nat 1) with 1 in B. lia.
Qed.

Lemma dataset_size_bounds_witness :
  exists dataset w',
    generate_dataset 4 (1 # 5) "SG" (1 # 10) true 1 (start [3; 1; 4; 1; 5]%N)
    = Ok (dataset, w') /\
    length dataset = 4.
Proof.
  destruct (dataset_size_bounds 4 (1 # 5) "SG" (1 # 10) true 1 (start [3; 1; 4; 1; 5]%N))
    as (ds & w' & E & _ & L); [lia|].
  exists ds, w'. split; [exact E|exact (L eq_refl)].
Defined.

(** ** The spelling converter, continued *)











(** ** Tokens and their three parts *)















(** ** Case changes keep the classes of characters *)



Section ClassKeeping.

Variable f : ascii -> ascii.
Hypothesis f_class :
  forall c, chr_isalnum (f c) = chr_isalnum c /\ chr_isspace (f c) = chr_isspace c.





End ClassKeeping.












